(** * Dancing links (DLX) exact-cover library: model and verification

    Shallow embedding of [dlx.c] (link primitives, cover/uncover, row
    preselection, matrix construction, recursive search) and of the
    loader in [dlx_read.c] (growable buffer, text reader, CSR to DLX).

    Memory is a finite map from pointers to cells.  [size_t] values are
    integers with their wrap-around modulo [2^64] written out.  [while]
    loops take a fuel argument and return [None] when it runs out. *)

From Stdlib Require Import ZArith Lia Ascii.
From stdpp Require Import gmap list numbers.

Local Open Scope Z_scope.

(** ** Pointers and cells *)

(** The C code uses one root [struct dlx_hnode], an array [headers] of
    [struct dlx_hnode], an array [nodes] of [struct dlx_node] and the
    array [row_off] (a node's [row_id] points into it). *)
Inductive ptr : Type :=
| Null
| Root
| Hd (c : nat)
| Nd (k : nat)
| RowOff (i : nat).

#[global] Instance ptr_inhabited : Inhabited ptr := populate Null.

#[global] Instance ptr_eq_dec : EqDecision ptr.
Proof. solve_decision. Defined.

Definition ptr_code (p : ptr) : nat + (nat + (nat + (unit + unit))) :=
  match p with
  | Hd c => inl c
  | Nd k => inr (inl k)
  | RowOff i => inr (inr (inl i))
  | Null => inr (inr (inr (inl tt)))
  | Root => inr (inr (inr (inr tt)))
  end.

Definition ptr_decode (x : nat + (nat + (nat + (unit + unit)))) : ptr :=
  match x with
  | inl c => Hd c
  | inr (inl k) => Nd k
  | inr (inr (inl i)) => RowOff i
  | inr (inr (inr (inl _))) => Null
  | inr (inr (inr (inr _))) => Root
  end.

#[global] Instance ptr_countable : Countable ptr.
Proof.
  apply (inj_countable' ptr_code ptr_decode).
  intros []; reflexivity.
Defined.

(** [struct dlx_node] extended with the two [struct dlx_hnode] members
    ([dlx_hnode] has a [dlx_node] as its first member and the code casts
    freely between the two); [node_count] and [id] are meaningful for
    headers and the root only. *)
Record cell : Type := Cell {
  row_id : ptr;
  left : ptr;
  right : ptr;
  up : ptr;
  down : ptr;
  header : ptr;
  node_count : Z;
  id : ptr
}.

(** [calloc]ed memory: all pointers null, all counters zero. *)
Definition zero_cell : cell := Cell Null Null Null Null Null Null 0 Null.

#[global] Instance cell_inhabited : Inhabited cell := populate zero_cell.

#[global] Instance cell_eq_dec : EqDecision cell.
Proof. solve_decision. Defined.

Abbreviation heap := (gmap ptr cell).

Definition SIZE_MAX : Z := 2 ^ 64 - 1.
Definition wrap (z : Z) : Z := z mod 2 ^ 64.

(** ** Reading and writing fields *)

Definition rd (H : heap) (p : ptr) : cell := H !!! p.
Definition wr (p : ptr) (c : cell) (H : heap) : heap := <[p := c]> H.

Definition lf (H : heap) (p : ptr) : ptr := left (rd H p).
Definition rt (H : heap) (p : ptr) : ptr := right (rd H p).
Definition upp (H : heap) (p : ptr) : ptr := up (rd H p).
Definition dn (H : heap) (p : ptr) : ptr := down (rd H p).
Definition hdr (H : heap) (p : ptr) : ptr := header (rd H p).
Definition cnt (H : heap) (p : ptr) : Z := node_count (rd H p).
Definition rid (H : heap) (p : ptr) : ptr := row_id (rd H p).
Definition cid (H : heap) (p : ptr) : ptr := id (rd H p).

Definition with_row_id (v : ptr) (c : cell) : cell :=
  Cell v (left c) (right c) (up c) (down c) (header c) (node_count c) (id c).
Definition with_left (v : ptr) (c : cell) : cell :=
  Cell (row_id c) v (right c) (up c) (down c) (header c) (node_count c) (id c).
Definition with_right (v : ptr) (c : cell) : cell :=
  Cell (row_id c) (left c) v (up c) (down c) (header c) (node_count c) (id c).
Definition with_up (v : ptr) (c : cell) : cell :=
  Cell (row_id c) (left c) (right c) v (down c) (header c) (node_count c) (id c).
Definition with_down (v : ptr) (c : cell) : cell :=
  Cell (row_id c) (left c) (right c) (up c) v (header c) (node_count c) (id c).
Definition with_header (v : ptr) (c : cell) : cell :=
  Cell (row_id c) (left c) (right c) (up c) (down c) v (node_count c) (id c).
Definition with_count (v : Z) (c : cell) : cell :=
  Cell (row_id c) (left c) (right c) (up c) (down c) (header c) v (id c).

Definition set_row_id (p v : ptr) (H : heap) : heap := wr p (with_row_id v (rd H p)) H.
Definition set_left (p v : ptr) (H : heap) : heap := wr p (with_left v (rd H p)) H.
Definition set_right (p v : ptr) (H : heap) : heap := wr p (with_right v (rd H p)) H.
Definition set_up (p v : ptr) (H : heap) : heap := wr p (with_up v (rd H p)) H.
Definition set_down (p v : ptr) (H : heap) : heap := wr p (with_down v (rd H p)) H.
Definition set_header (p v : ptr) (H : heap) : heap := wr p (with_header v (rd H p)) H.
Definition set_count (p : ptr) (v : Z) (H : heap) : heap := wr p (with_count v (rd H p)) H.

(** ** dlx.c: private link primitives *)

(** [n->left->right = n->right; n->right->left = n->left;] *)
Definition remove_lr (n : ptr) (H : heap) : heap :=
  let H1 := set_right (lf H n) (rt H n) H in
  set_left (rt H1 n) (lf H1 n) H1.

(** [n->up->down = n->down; n->down->up = n->up;] *)
Definition remove_ud (n : ptr) (H : heap) : heap :=
  let H1 := set_down (upp H n) (dn H n) H in
  set_up (dn H1 n) (upp H1 n) H1.

(** [n->left->right = n->right->left = n;]: the inner assignment, then
    the outer one. *)
Definition insert_lr (n : ptr) (H : heap) : heap :=
  let H1 := set_left (rt H n) n H in
  set_right (lf H1 n) n H1.

(** [n->up->down = n->down->up = n;] *)
Definition insert_ud (n : ptr) (H : heap) : heap :=
  let H1 := set_up (dn H n) n H in
  set_down (upp H1 n) n H1.

(** [return n->up->down != n;] *)
Definition is_removed_ud (n : ptr) (H : heap) : bool :=
  negb (bool_decide (dn H (upp H n) = n)).

(** [c->node_count++] and [c->node_count--] on a [size_t]. *)
Definition incr_count (c : ptr) (H : heap) : heap := set_count c (wrap (cnt H c + 1)) H.
Definition decr_count (c : ptr) (H : heap) : heap := set_count c (wrap (cnt H c - 1)) H.

Definition append_node_to_column (n c : ptr) (H : heap) : heap :=
  let H1 := set_header n c H in
  let H2 := set_up n (upp H1 c) H1 in
  let H3 := set_down n c H2 in
  let H4 := insert_ud n H3 in
  incr_count c H4.

(** ** dlx.c: cover and uncover *)

(** Inner loop of [cover]: [while ((j = j->right) != i) { remove_ud(j);
    j->header->node_count--; }]. *)
Fixpoint cover_row (fuel : nat) (i j : ptr) (H : heap) : option heap :=
  match fuel with
  | O => None
  | S f =>
      let j' := rt H j in
      if decide (j' = i) then Some H
      else let H1 := remove_ud j' H in
           cover_row f i j' (decr_count (hdr H1 j') H1)
  end.

(** Outer loop of [cover]: [while ((i = i->down) != h) { j = i; ... }]. *)
Fixpoint cover_rows (fuel : nat) (h i : ptr) (H : heap) : option heap :=
  match fuel with
  | O => None
  | S f =>
      let i' := dn H i in
      if decide (i' = h) then Some H
      else H1 ← cover_row f i' i' H; cover_rows f h i' H1
  end.

Definition cover (fuel : nat) (h : ptr) (H : heap) : option heap :=
  cover_rows fuel h h (remove_lr h H).

(** Inner loop of [uncover]: [while ((j = j->left) != i)
    { j->header->node_count++; insert_ud(j); }]. *)
Fixpoint uncover_row (fuel : nat) (i j : ptr) (H : heap) : option heap :=
  match fuel with
  | O => None
  | S f =>
      let j' := lf H j in
      if decide (j' = i) then Some H
      else let H1 := incr_count (hdr H j') H in
           uncover_row f i j' (insert_ud j' H1)
  end.

Fixpoint uncover_rows (fuel : nat) (h i : ptr) (H : heap) : option heap :=
  match fuel with
  | O => None
  | S f =>
      let i' := upp H i in
      if decide (i' = h) then Some H
      else H1 ← uncover_row f i' i' H; uncover_rows f h i' H1
  end.

Definition uncover (fuel : nat) (h : ptr) (H : heap) : option heap :=
  H1 ← uncover_rows fuel h h H; Some (insert_lr h H1).

(** [while ((j = j->right) != i) cover(j->header);] *)
Fixpoint cover_other_columns_from (fuel : nat) (i j : ptr) (H : heap) : option heap :=
  match fuel with
  | O => None
  | S f =>
      let j' := rt H j in
      if decide (j' = i) then Some H
      else H1 ← cover f (hdr H j') H; cover_other_columns_from f i j' H1
  end.

Definition cover_other_columns (fuel : nat) (i : ptr) (H : heap) : option heap :=
  cover_other_columns_from fuel i i H.

(** [while ((j = j->left) != i) uncover(j->header);] *)
Fixpoint uncover_other_columns_from (fuel : nat) (i j : ptr) (H : heap) : option heap :=
  match fuel with
  | O => None
  | S f =>
      let j' := lf H j in
      if decide (j' = i) then Some H
      else H1 ← uncover f (hdr H j') H; uncover_other_columns_from f i j' H1
  end.

Definition uncover_other_columns (fuel : nat) (i : ptr) (H : heap) : option heap :=
  uncover_other_columns_from fuel i i H.

(** [hnode_min_count]: the loop [while ((h = h->right) != root)] keeping
    the first header of least [node_count]; [min] starts as [NULL]. *)
Fixpoint hnode_min_count_from (fuel : nat) (root h min : ptr) (H : heap) : option ptr :=
  match fuel with
  | O => None
  | S f =>
      let h' := rt H h in
      if decide (h' = root) then Some min
      else if decide (min = Null) then hnode_min_count_from f root h' h' H
      else if bool_decide (cnt H h' < cnt H min) then hnode_min_count_from f root h' h' H
      else hnode_min_count_from f root h' min H
  end.

Definition hnode_min_count (fuel : nat) (root : ptr) (H : heap) : option ptr :=
  hnode_min_count_from fuel root root Null H.

(** ** dlx.c: row preselection *)

Definition dlx_force_row (fuel : nat) (r : ptr) (H : heap) : option (Z * heap) :=
  if is_removed_ud r H then Some (-1, H)
  else H1 ← cover fuel (hdr H r) H;
       H2 ← cover_other_columns fuel r H1;
       Some (0, H2).

Definition dlx_unselect_row (fuel : nat) (r : ptr) (H : heap) : option (Z * heap) :=
  if negb (is_removed_ud r H) then Some (-1, H)
  else H1 ← uncover_other_columns fuel r H;
       H2 ← uncover fuel (hdr H1 r) H1;
       Some (0, H2).

(** ** dlx.c: matrix construction *)

(** The six stores that initialise one column header [hi]. *)
Definition init_header (hi l r : ptr) (H : heap) : heap :=
  let H := set_left hi l H in
  let H := set_right hi r H in
  let H := set_up hi hi H in
  let H := set_down hi hi H in
  let H := set_header hi hi H in
  set_count hi 1 H.

(** The stores that initialise the root. *)
Definition init_root (root l r : ptr) (H : heap) : heap :=
  let H := set_left root l H in
  let H := set_right root r H in
  let H := set_up root Null H in
  let H := set_down root Null H in
  let H := set_header root Null H in
  set_count root 1 H.

(** [dlx_make_header_row(root, headers, n)]; [headers] is the index of
    the first header of the array, so that [headers + i] is [Hd (hb + i)]. *)
Definition dlx_make_header_row (root : ptr) (hb : nat) (n : nat) (H : heap) : heap :=
  if bool_decide (n < 1)%nat then init_root root root root H
  else
    let H := init_root root (Hd (hb + n - 1)) (Hd hb) H in
    if bool_decide (n = 1)%nat then init_header (Hd hb) root root H
    else
      let H := init_header (Hd hb) root (Hd (hb + 1)) H in
      let H := foldl (fun H i => init_header (Hd (hb + i)) (Hd (hb + i - 1)) (Hd (hb + i + 1)) H)
                     H (seq 1 (n - 1 - 1)) in
      init_header (Hd (hb + n - 1)) (Hd (hb + n - 1 - 1)) root H.

Definition init_node (ni l r row : ptr) (H : heap) : heap :=
  let H := set_left ni l H in
  let H := set_right ni r H in
  set_row_id ni row H.

(** [dlx_make_row(nodes, row_id, n)]; [nodes] is the index of the first
    node of the row, so that [nodes + i] is [Nd (nb + i)]. *)
Definition dlx_make_row (nb : nat) (row : ptr) (n : nat) (H : heap) : heap :=
  if bool_decide (n < 1)%nat then H
  else if bool_decide (n = 1)%nat then init_node (Nd nb) (Nd nb) (Nd nb) row H
  else
    let H := init_node (Nd nb) (Nd (nb + n - 1)) (Nd (nb + 1)) row H in
    let H := foldl (fun H i => init_node (Nd (nb + i)) (Nd (nb + i - 1)) (Nd (nb + i + 1)) row H)
                   H (seq 1 (n - 1 - 1)) in
    init_node (Nd (nb + n - 1)) (Nd (nb + n - 1 - 1)) (Nd nb) row H.

(** [dlx_add_row(nodes, headers, n)]: [headers] is the parallel array of
    header pointers. *)
Definition dlx_add_row (nb : nat) (headers : list ptr) (n : nat) (H : heap) : heap :=
  foldl (fun H i => append_node_to_column (Nd (nb + i)) (headers !!! i) H) H (seq 0 n).

(** ** dlx.c: the search *)

Record dlx_srow : Type := Srow {
  row_node : ptr;
  srow_id : ptr;
  n_choices : Z
}.

#[global] Instance dlx_srow_inhabited : Inhabited dlx_srow := populate (Srow Null Null 0).

(** What the search threads through: the caller's [solution] array, the
    counter [*pnsol] and the matrix. *)
Record sstate : Type := SState {
  sol : list dlx_srow;
  pnsol : Z;
  mem : heap
}.

(** A store into [solution[k]]; outside the caller's array the C code
    has no defined behaviour, rendered as [None]. *)
Definition store_choice (k : Z) (cid' : ptr) (nch : Z) (s : list dlx_srow) : option (list dlx_srow) :=
  let i := Z.to_nat k in
  if bool_decide (i < length s)%nat
  then Some (<[i := Srow (row_node (s !!! i)) cid' nch]> s)
  else None.

Definition store_row_node (k : Z) (r : ptr) (s : list dlx_srow) : option (list dlx_srow) :=
  let i := Z.to_nat k in
  if bool_decide (i < length s)%nat
  then Some (<[i := Srow r (srow_id (s !!! i)) (n_choices (s !!! i))]> s)
  else None.

(** The row loop of [dlx_exact_cover]; [rec] is the recursive call. *)
Fixpoint search_rows (rec : Z → sstate → option (Z * sstate))
    (fuel inner : nat) (col i : ptr) (k n : Z) (s : sstate) : option (Z * sstate) :=
  match fuel with
  | O => None
  | S f =>
      let i' := dn (mem s) i in
      if decide (i' = col) then Some (n, s)
      else
        H1 ← cover_other_columns inner i' (mem s);
        r ← rec (wrap (k + 1)) (SState (sol s) (pnsol s) H1);
        let n' := r.1 in
        let s1 := r.2 in
        H2 ← uncover_other_columns inner i' (mem s1);
        sol2 ← (if bool_decide (n' > 0) then store_row_node k i' (sol s1) else Some (sol s1));
        let s2 := SState sol2 (pnsol s1) H2 in
        if bool_decide (pnsol s1 = 0) then Some (n', s2)
        else search_rows rec f inner col i' k n' s2
  end.

Fixpoint dlx_exact_cover (fuel : nat) (root : ptr) (k : Z) (s : sstate) : option (Z * sstate) :=
  match fuel with
  | O => None
  | S f =>
      if decide (rt (mem s) root = root)
      then Some (k, SState (sol s) (wrap (pnsol s - 1)) (mem s))
      else
        col ← hnode_min_count f root (mem s);
        H1 ← cover f col (mem s);
        sol1 ← store_choice k (cid H1 col) (cnt H1 col) (sol s);
        r ← search_rows (dlx_exact_cover f root) f f col col k 0 (SState sol1 (pnsol s) H1);
        H3 ← uncover f col (mem r.2);
        Some (r.1, SState (sol r.2) (pnsol r.2) H3)
  end.

(** [dlx_row_id] *)
Definition dlx_row_id (node : ptr) (H : heap) : ptr :=
  if decide (node = Null) then Null else rid H node.

(** ** Building a matrix from its rows

    The body of the row loop of [bcsr_to_dlx]: row [i] with column
    indices [cs] uses the nodes from index [off] on. *)
Definition build_row (hb : nat) (i off : nat) (cs : list nat) (H : heap) : heap :=
  let n := length cs in
  let pheaders := (fun c => Hd (hb + c)) <$> cs in
  dlx_add_row off pheaders n (dlx_make_row off (RowOff i) n H).

Fixpoint build_rows (i off : nat) (rows : list (list nat)) (H : heap) : heap :=
  match rows with
  | [] => H
  | cs :: rest => build_rows (S i) (off + length cs) rest (build_row 0 i off cs H)
  end.

Definition build (ncols : nat) (rows : list (list nat)) : heap :=
  build_rows 0 0 rows (dlx_make_header_row Root 0 ncols ∅).

(** * Reasoning about memory *)

Lemma rd_wr p c H q : rd (wr p c H) q = if decide (q = p) then c else rd H q.
Proof.
  unfold rd, wr. destruct (decide (q = p)) as [->|Hne].
  - apply lookup_total_insert_eq.
  - apply lookup_total_insert_ne. congruence.
Qed.

Lemma wr_same p H : is_Some (H !! p) → wr p (rd H p) H = H.
Proof.
  intros [c Hc]. unfold wr, rd. apply insert_id.
  rewrite lookup_total_alt, Hc. done.
Qed.

Lemma wr_wr p c c' H : wr p c (wr p c' H) = wr p c H.
Proof. unfold wr. apply insert_insert_eq. Qed.

Lemma wr_comm p q c d H : p ≠ q → wr p c (wr q d H) = wr q d (wr p c H).
Proof. intros. unfold wr. by apply insert_insert_ne. Qed.

Lemma wr_is_Some p c H q : is_Some (H !! q) → is_Some (wr p c H !! q).
Proof.
  unfold wr. intros Hq. destruct (decide (p = q)) as [->|Hne].
  - rewrite lookup_insert_eq. eauto.
  - by rewrite lookup_insert_ne.
Qed.

Lemma cell_eta c :
  Cell (row_id c) (left c) (right c) (up c) (down c) (header c) (node_count c) (id c) = c.
Proof. by destruct c. Qed.

(** Unfolds every field access and every store and decides the
    comparisons of addresses. *)
Ltac unfold_heap :=
  unfold incr_count, decr_count, insert_ud, remove_ud, insert_lr, remove_lr,
    lf, rt, upp, dn, hdr, cnt, rid, cid,
    set_row_id, set_left, set_right, set_up, set_down, set_header, set_count,
    with_row_id, with_left, with_right, with_up, with_down, with_header, with_count in *.

Ltac heap_cases :=
  unfold_heap; repeat (rewrite !rd_wr in *; simpl in * );
  repeat (case_decide; simplify_eq/=; try done); try congruence.

Section field_frames.
Context (H : heap) (p q v : ptr) (z : Z).

Lemma lf_set_left : lf (set_left p v H) q = if decide (q = p) then v else lf H q.
Proof. heap_cases. Qed.
Lemma rt_set_left : rt (set_left p v H) q = rt H q.
Proof. heap_cases. Qed.
Lemma upp_set_left : upp (set_left p v H) q = upp H q.
Proof. heap_cases. Qed.
Lemma dn_set_left : dn (set_left p v H) q = dn H q.
Proof. heap_cases. Qed.
Lemma hdr_set_left : hdr (set_left p v H) q = hdr H q.
Proof. heap_cases. Qed.
Lemma cnt_set_left : cnt (set_left p v H) q = cnt H q.
Proof. heap_cases. Qed.
Lemma rid_set_left : rid (set_left p v H) q = rid H q.
Proof. heap_cases. Qed.
Lemma cid_set_left : cid (set_left p v H) q = cid H q.
Proof. heap_cases. Qed.

Lemma lf_set_right : lf (set_right p v H) q = lf H q.
Proof. heap_cases. Qed.
Lemma rt_set_right : rt (set_right p v H) q = if decide (q = p) then v else rt H q.
Proof. heap_cases. Qed.
Lemma upp_set_right : upp (set_right p v H) q = upp H q.
Proof. heap_cases. Qed.
Lemma dn_set_right : dn (set_right p v H) q = dn H q.
Proof. heap_cases. Qed.
Lemma hdr_set_right : hdr (set_right p v H) q = hdr H q.
Proof. heap_cases. Qed.
Lemma cnt_set_right : cnt (set_right p v H) q = cnt H q.
Proof. heap_cases. Qed.
Lemma rid_set_right : rid (set_right p v H) q = rid H q.
Proof. heap_cases. Qed.
Lemma cid_set_right : cid (set_right p v H) q = cid H q.
Proof. heap_cases. Qed.

Lemma lf_set_up : lf (set_up p v H) q = lf H q.
Proof. heap_cases. Qed.
Lemma rt_set_up : rt (set_up p v H) q = rt H q.
Proof. heap_cases. Qed.
Lemma upp_set_up : upp (set_up p v H) q = if decide (q = p) then v else upp H q.
Proof. heap_cases. Qed.
Lemma dn_set_up : dn (set_up p v H) q = dn H q.
Proof. heap_cases. Qed.
Lemma hdr_set_up : hdr (set_up p v H) q = hdr H q.
Proof. heap_cases. Qed.
Lemma cnt_set_up : cnt (set_up p v H) q = cnt H q.
Proof. heap_cases. Qed.
Lemma rid_set_up : rid (set_up p v H) q = rid H q.
Proof. heap_cases. Qed.
Lemma cid_set_up : cid (set_up p v H) q = cid H q.
Proof. heap_cases. Qed.

Lemma lf_set_down : lf (set_down p v H) q = lf H q.
Proof. heap_cases. Qed.
Lemma rt_set_down : rt (set_down p v H) q = rt H q.
Proof. heap_cases. Qed.
Lemma upp_set_down : upp (set_down p v H) q = upp H q.
Proof. heap_cases. Qed.
Lemma dn_set_down : dn (set_down p v H) q = if decide (q = p) then v else dn H q.
Proof. heap_cases. Qed.
Lemma hdr_set_down : hdr (set_down p v H) q = hdr H q.
Proof. heap_cases. Qed.
Lemma cnt_set_down : cnt (set_down p v H) q = cnt H q.
Proof. heap_cases. Qed.
Lemma rid_set_down : rid (set_down p v H) q = rid H q.
Proof. heap_cases. Qed.
Lemma cid_set_down : cid (set_down p v H) q = cid H q.
Proof. heap_cases. Qed.

Lemma lf_set_header : lf (set_header p v H) q = lf H q.
Proof. heap_cases. Qed.
Lemma rt_set_header : rt (set_header p v H) q = rt H q.
Proof. heap_cases. Qed.
Lemma upp_set_header : upp (set_header p v H) q = upp H q.
Proof. heap_cases. Qed.
Lemma dn_set_header : dn (set_header p v H) q = dn H q.
Proof. heap_cases. Qed.
Lemma hdr_set_header : hdr (set_header p v H) q = if decide (q = p) then v else hdr H q.
Proof. heap_cases. Qed.
Lemma cnt_set_header : cnt (set_header p v H) q = cnt H q.
Proof. heap_cases. Qed.
Lemma rid_set_header : rid (set_header p v H) q = rid H q.
Proof. heap_cases. Qed.
Lemma cid_set_header : cid (set_header p v H) q = cid H q.
Proof. heap_cases. Qed.

Lemma lf_set_count : lf (set_count p z H) q = lf H q.
Proof. heap_cases. Qed.
Lemma rt_set_count : rt (set_count p z H) q = rt H q.
Proof. heap_cases. Qed.
Lemma upp_set_count : upp (set_count p z H) q = upp H q.
Proof. heap_cases. Qed.
Lemma dn_set_count : dn (set_count p z H) q = dn H q.
Proof. heap_cases. Qed.
Lemma hdr_set_count : hdr (set_count p z H) q = hdr H q.
Proof. heap_cases. Qed.
Lemma cnt_set_count : cnt (set_count p z H) q = if decide (q = p) then z else cnt H q.
Proof. heap_cases. Qed.
Lemma rid_set_count : rid (set_count p z H) q = rid H q.
Proof. heap_cases. Qed.
Lemma cid_set_count : cid (set_count p z H) q = cid H q.
Proof. heap_cases. Qed.

Lemma lf_set_row_id : lf (set_row_id p v H) q = lf H q.
Proof. heap_cases. Qed.
Lemma rt_set_row_id : rt (set_row_id p v H) q = rt H q.
Proof. heap_cases. Qed.
Lemma upp_set_row_id : upp (set_row_id p v H) q = upp H q.
Proof. heap_cases. Qed.
Lemma dn_set_row_id : dn (set_row_id p v H) q = dn H q.
Proof. heap_cases. Qed.
Lemma hdr_set_row_id : hdr (set_row_id p v H) q = hdr H q.
Proof. heap_cases. Qed.
Lemma cnt_set_row_id : cnt (set_row_id p v H) q = cnt H q.
Proof. heap_cases. Qed.
Lemma rid_set_row_id : rid (set_row_id p v H) q = if decide (q = p) then v else rid H q.
Proof. heap_cases. Qed.
Lemma cid_set_row_id : cid (set_row_id p v H) q = cid H q.
Proof. heap_cases. Qed.
End field_frames.

Create Rewrite HintDb heap_rw.
#[global] Hint Rewrite
  lf_set_left rt_set_left upp_set_left dn_set_left hdr_set_left cnt_set_left rid_set_left cid_set_left
  lf_set_right rt_set_right upp_set_right dn_set_right hdr_set_right cnt_set_right rid_set_right cid_set_right
  lf_set_up rt_set_up upp_set_up dn_set_up hdr_set_up cnt_set_up rid_set_up cid_set_up
  lf_set_down rt_set_down upp_set_down dn_set_down hdr_set_down cnt_set_down rid_set_down cid_set_down
  lf_set_header rt_set_header upp_set_header dn_set_header hdr_set_header cnt_set_header rid_set_header cid_set_header
  lf_set_count rt_set_count upp_set_count dn_set_count hdr_set_count cnt_set_count rid_set_count cid_set_count
  lf_set_row_id rt_set_row_id upp_set_row_id dn_set_row_id hdr_set_row_id cnt_set_row_id rid_set_row_id cid_set_row_id
  : heap_rw.

Ltac heap_rw := autorewrite with heap_rw.

(** ** The two elementary steps of cover and uncover *)

(** One iteration of the inner loop of [cover]. *)
Definition rm_step (j : ptr) (H : heap) : heap :=
  let H1 := remove_ud j H in decr_count (hdr H1 j) H1.

(** One iteration of the inner loop of [uncover]. *)
Definition ins_step (j : ptr) (H : heap) : heap :=
  insert_ud j (incr_count (hdr H j) H).

Section step_frames.
Context (H : heap) (j q : ptr).

Lemma rt_rm_step : rt (rm_step j H) q = rt H q.
Proof. unfold rm_step, decr_count, remove_ud. by heap_rw. Qed.
Lemma lf_rm_step : lf (rm_step j H) q = lf H q.
Proof. unfold rm_step, decr_count, remove_ud. by heap_rw. Qed.
Lemma hdr_rm_step : hdr (rm_step j H) q = hdr H q.
Proof. unfold rm_step, decr_count, remove_ud. by heap_rw. Qed.
Lemma rid_rm_step : rid (rm_step j H) q = rid H q.
Proof. unfold rm_step, decr_count, remove_ud. by heap_rw. Qed.
Lemma cid_rm_step : cid (rm_step j H) q = cid H q.
Proof. unfold rm_step, decr_count, remove_ud. by heap_rw. Qed.
Lemma dn_rm_step :
  dn (rm_step j H) q = if decide (q = upp H j) then dn H j else dn H q.
Proof. unfold rm_step, decr_count, remove_ud. by heap_rw. Qed.
Lemma upp_rm_step :
  upp (rm_step j H) q = if decide (q = dn H j) then upp H j else upp H q.
Proof.
  unfold rm_step, decr_count, remove_ud. heap_rw.
  assert ((if decide (j = upp H j) then dn H j else dn H j) = dn H j) as -> by (by case_decide).
  done.
Qed.
Lemma cnt_rm_step :
  cnt (rm_step j H) q = if decide (q = hdr H j) then wrap (cnt H q - 1) else cnt H q.
Proof. unfold rm_step, decr_count, remove_ud. heap_rw. by case_decide; subst. Qed.

Lemma rt_ins_step : rt (ins_step j H) q = rt H q.
Proof. unfold ins_step, incr_count, insert_ud. by heap_rw. Qed.
Lemma lf_ins_step : lf (ins_step j H) q = lf H q.
Proof. unfold ins_step, incr_count, insert_ud. by heap_rw. Qed.
Lemma hdr_ins_step : hdr (ins_step j H) q = hdr H q.
Proof. unfold ins_step, incr_count, insert_ud. by heap_rw. Qed.

Lemma rt_remove_lr :
  rt (remove_lr j H) q = if decide (q = lf H j) then rt H j else rt H q.
Proof. unfold remove_lr. by heap_rw. Qed.
Lemma lf_remove_lr :
  lf (remove_lr j H) q = if decide (q = rt H j) then lf H j else lf H q.
Proof.
  unfold remove_lr. heap_rw.
  assert ((if decide (j = lf H j) then rt H j else rt H j) = rt H j) as -> by (by case_decide).
  done.
Qed.
Lemma upp_remove_lr : upp (remove_lr j H) q = upp H q.
Proof. unfold remove_lr. by heap_rw. Qed.
Lemma dn_remove_lr : dn (remove_lr j H) q = dn H q.
Proof. unfold remove_lr. by heap_rw. Qed.
Lemma hdr_remove_lr : hdr (remove_lr j H) q = hdr H q.
Proof. unfold remove_lr. by heap_rw. Qed.
Lemma cnt_remove_lr : cnt (remove_lr j H) q = cnt H q.
Proof. unfold remove_lr. by heap_rw. Qed.
Lemma rid_remove_lr : rid (remove_lr j H) q = rid H q.
Proof. unfold remove_lr. by heap_rw. Qed.
Lemma cid_remove_lr : cid (remove_lr j H) q = cid H q.
Proof. unfold remove_lr. by heap_rw. Qed.
End step_frames.

(** Stores keep allocated what is allocated. *)
Lemma rm_step_is_Some j H q : is_Some (H !! q) → is_Some (rm_step j H !! q).
Proof. intros. unfold rm_step. unfold_heap. eauto using wr_is_Some. Qed.

Lemma remove_lr_is_Some j H q : is_Some (H !! q) → is_Some (remove_lr j H !! q).
Proof. intros. unfold_heap. eauto using wr_is_Some. Qed.

(** Two memories with the same allocated cells and the same contents are
    equal. *)
Lemma heap_ext (H1 H2 : heap) :
  (∀ q, is_Some (H1 !! q) ↔ is_Some (H2 !! q)) →
  (∀ q, rd H1 q = rd H2 q) → H1 = H2.
Proof.
  intros Hdom Hrd. apply map_eq. intros q.
  specialize (Hdom q). specialize (Hrd q). unfold rd in Hrd.
  rewrite !lookup_total_alt in Hrd.
  destruct (H1 !! q) as [c1|] eqn:E1, (H2 !! q) as [c2|] eqn:E2; simpl in *.
  - by subst.
  - destruct Hdom as [Hd _]. destruct Hd as [? ?]; [eauto|done].
  - destruct Hdom as [_ Hd]. destruct Hd as [? ?]; [eauto|done].
  - done.
Qed.

Lemma wr_dom_iff p c H q : is_Some (H !! p) → (is_Some (wr p c H !! q) ↔ is_Some (H !! q)).
Proof.
  intros Hp. unfold wr. destruct (decide (p = q)) as [->|Hne].
  - rewrite lookup_insert_eq. split; eauto.
  - by rewrite lookup_insert_ne.
Qed.

Lemma cell_ext (c d : cell) :
  row_id c = row_id d → left c = left d → right c = right d → up c = up d →
  down c = down d → header c = header d → node_count c = node_count d → id c = id d →
  c = d.
Proof. destruct c, d; simpl; congruence. Qed.

Lemma heap_ext_fields (H1 H2 : heap) :
  (∀ q, is_Some (H1 !! q) ↔ is_Some (H2 !! q)) →
  (∀ q, lf H1 q = lf H2 q) → (∀ q, rt H1 q = rt H2 q) →
  (∀ q, upp H1 q = upp H2 q) → (∀ q, dn H1 q = dn H2 q) →
  (∀ q, hdr H1 q = hdr H2 q) → (∀ q, cnt H1 q = cnt H2 q) →
  (∀ q, rid H1 q = rid H2 q) → (∀ q, cid H1 q = cid H2 q) →
  H1 = H2.
Proof.
  intros Hd ? ? ? ? ? ? ? ?. apply heap_ext; [done|].
  intros q. apply cell_ext; unfold lf, rt, upp, dn, hdr, cnt, rid, cid in *; eauto.
Qed.

(** * Doubly linked segments and rings

    [seg nx pv a l b]: following [nx] from [a] visits [l] and then [b],
    and [pv] undoes every step. *)

Fixpoint seg (nx pv : ptr → ptr) (a : ptr) (l : list ptr) (b : ptr) : Prop :=
  match l with
  | [] => nx a = b ∧ pv b = a
  | x :: l' => nx a = x ∧ pv x = a ∧ seg nx pv x l' b
  end.

Definition ring (nx pv : ptr → ptr) (h : ptr) (l : list ptr) : Prop := seg nx pv h l h.

Lemma seg_app nx pv a l1 x l2 b :
  seg nx pv a (l1 ++ x :: l2) b ↔ seg nx pv a l1 x ∧ seg nx pv x l2 b.
Proof.
  revert a. induction l1 as [|y l1 IH]; intros a; simpl.
  - tauto.
  - rewrite IH. tauto.
Qed.

Lemma seg_ext nx pv nx' pv' a l b :
  (∀ q, q ∈ a :: l → nx' q = nx q) →
  (∀ q, q ∈ l ++ [b] → pv' q = pv q) →
  seg nx pv a l b → seg nx' pv' a l b.
Proof.
  revert a. induction l as [|x l IH]; intros a Hn Hp; simpl.
  - intros [? ?]. rewrite Hn, Hp by set_solver. done.
  - intros (? & ? & Hs). rewrite Hn, Hp by set_solver.
    split_and!; try done. apply IH; [| |done].
    + intros q Hq. apply Hn. set_solver.
    + intros q Hq. apply Hp. set_solver.
Qed.

Lemma seg_ext_all nx pv nx' pv' a l b :
  (∀ q, nx' q = nx q) → (∀ q, pv' q = pv q) →
  seg nx pv a l b → seg nx' pv' a l b.
Proof. intros. eapply seg_ext; eauto. Qed.

Lemma seg_rev nx pv a l b : seg nx pv a l b → seg pv nx b (reverse l) a.
Proof.
  revert a. induction l as [|x l IH]; intros a; simpl.
  - tauto.
  - intros (? & ? & Hs). rewrite reverse_cons. apply seg_app.
    split; [by apply IH|]. simpl. done.
Qed.

Lemma ring_rev nx pv h l : ring nx pv h l → ring pv nx h (reverse l).
Proof. apply seg_rev. Qed.

(** Rotating a ring. *)
Lemma ring_rotate nx pv a l1 x l2 :
  ring nx pv a (l1 ++ x :: l2) → ring nx pv x (l2 ++ a :: l1).
Proof. unfold ring. rewrite !seg_app. tauto. Qed.

Lemma last_cons_ptr (a x : ptr) l : List.last (x :: l) a = List.last l x.
Proof.
  revert a x. induction l as [|y l IH]; intros a x; [done|].
  change (List.last (x :: y :: l) a) with (List.last (y :: l) a).
  rewrite (IH a y), (IH x y). done.
Qed.

(** Neighbours of a member of a segment. *)
Lemma seg_nx_pv nx pv a l1 x l2 b :
  seg nx pv a (l1 ++ x :: l2) b →
  pv x = List.last l1 a ∧ nx (List.last l1 a) = x ∧ nx x = hd b l2 ∧ pv (hd b l2) = x.
Proof.
  rewrite seg_app. intros [H1 H2].
  assert (nx (List.last l1 a) = x ∧ pv x = List.last l1 a) as [? ?].
  { clear H2. revert a H1. induction l1 as [|y l1 IH]; intros a Hs; [simpl in *; tauto|].
    destruct Hs as (? & ? & Hs). rewrite last_cons_ptr. by apply IH. }
  destruct l2; simpl in *; tauto.
Qed.

Lemma last_elem_of (a : ptr) l : List.last l a ∈ a :: l.
Proof.
  revert a. induction l as [|x l IH]; intros a; [set_solver|].
  rewrite last_cons_ptr. specialize (IH x). set_solver.
Qed.

Lemma hd_elem_of (b : ptr) l : hd b l ∈ l ++ [b].
Proof. destruct l; simpl; set_solver. Qed.

Lemma last_snoc_ptr (a x : ptr) l : List.last (l ++ [x]) a = x.
Proof. apply last_last. Qed.

(** Unlinking a member of a ring: its predecessor and successor are
    linked to each other, nothing else changes. *)
Lemma ring_remove nx pv nx' pv' h l1 x l2 :
  NoDup (h :: l1 ++ x :: l2) →
  ring nx pv h (l1 ++ x :: l2) →
  (∀ q, nx' q = if decide (q = pv x) then nx x else nx q) →
  (∀ q, pv' q = if decide (q = nx x) then pv x else pv q) →
  ring nx' pv' h (l1 ++ l2).
Proof.
  intros Hnd Hr Hnx Hpv. unfold ring in *.
  destruct (seg_nx_pv _ _ _ _ _ _ _ Hr) as (Ep & Epn & En & Enp).
  apply seg_app in Hr as [Hs1 Hs2].
  apply list.NoDup_cons in Hnd as [Hh Hnd].
  apply list.NoDup_app in Hnd as (Hnd1 & Hdisj & Hnd2).
  apply list.NoDup_cons in Hnd2 as [Hx2 Hnd2].
  assert (Hx1 : x ∉ l1) by (intros ?; eapply Hdisj; [done|set_solver]).
  assert (Hxh : x ≠ h) by set_solver.
  destruct l1 as [|y l1 _] using rev_ind; destruct l2 as [|z l2]; simpl in *.
  - (* the ring had one member *)
    rewrite Hnx, Hpv. rewrite Ep, En. rewrite !decide_True by done. done.
  - rewrite Hnx, Hpv, Ep, En. rewrite !decide_True by done.
    split_and!; try done. destruct Hs2 as (_ & _ & Hs2).
    eapply seg_ext; [| |exact Hs2].
    + intros q Hq. rewrite Hnx, Ep. rewrite decide_False; [done|].
      intros ->. apply list.NoDup_cons in Hnd2 as [? ?]. set_solver.
    + intros q Hq. rewrite Hpv, En. rewrite decide_False; [done|].
      intros ->. apply list.NoDup_cons in Hnd2 as [? ?].
      apply elem_of_app in Hq as [?|?]; set_solver.
  - rewrite last_snoc_ptr in Ep, Epn. rewrite app_nil_r.
    apply seg_app. apply seg_app in Hs1 as [Hs1 _]. split.
    + eapply seg_ext; [| |exact Hs1].
      * intros q Hq. rewrite Hnx, Ep. rewrite decide_False; [done|].
        intros ->. apply list.NoDup_app in Hnd1 as (? & Hd & ?).
        apply elem_of_cons in Hq as [->|Hq]; [set_solver|].
        eapply Hd; [done|set_solver].
      * intros q Hq. rewrite Hpv, En. rewrite decide_False; [done|].
        intros ->. set_solver.
    + simpl. rewrite Hnx, Hpv, Ep, En. rewrite !decide_True by done. done.
  - rewrite last_snoc_ptr in Ep, Epn. rewrite <- app_assoc. simpl.
    apply seg_app. apply seg_app in Hs1 as [Hs1 _].
    destruct Hs2 as (_ & _ & Hs2).
    apply list.NoDup_cons in Hnd2 as [Hz Hnd2].
    split.
    + eapply seg_ext; [| |exact Hs1].
      * intros q Hq. rewrite Hnx, Ep. rewrite decide_False; [done|].
        intros ->. apply list.NoDup_app in Hnd1 as (? & Hd & ?).
        apply elem_of_cons in Hq as [->|Hq]; [set_solver|].
        eapply Hd; [done|set_solver].
      * intros q Hq. rewrite Hpv, En. rewrite decide_False; [done|].
        intros ->. eapply Hdisj; [done|set_solver].
    + simpl. rewrite Hnx, Hpv, Ep, En. rewrite !decide_True by done.
      split_and!; try done.
      eapply seg_ext; [| |exact Hs2].
      * intros q Hq. rewrite Hnx, Ep. rewrite decide_False; [done|].
        intros ->. eapply (Hdisj y); [set_solver|set_solver].
      * intros q Hq. rewrite Hpv, En. rewrite decide_False; [done|].
        intros ->. apply elem_of_app in Hq as [?|?]; set_solver.
Qed.

(** * The layout of a matrix and its invariants *)

(** What never changes once a matrix is built: the column headers from
    left to right, the data nodes row by row, and the header of each
    data node. *)
Record layout : Type := Layout {
  l_cols : list ptr;
  l_rows : list (list ptr);
  l_hd : ptr → ptr
}.

Definition nodes (Σ : layout) : list ptr := mjoin (l_rows Σ).

(** The data nodes of column [c], top to bottom. *)
Definition col0 (Σ : layout) (c : ptr) : list ptr :=
  filter (λ x, l_hd Σ x = c) (nodes Σ).

(** What is left of column [c] when the nodes [R] are unlinked. *)
Definition colL (Σ : layout) (R : list ptr) (c : ptr) : list ptr :=
  filter (λ x, x ∉ R) (col0 Σ c).

(** The headers still in the header list when the columns [V] are covered. *)
Definition live (Σ : layout) (V : list ptr) : list ptr :=
  filter (λ c, c ∉ V) (l_cols Σ).

(** The nodes after [i] and the nodes before [i] in a row. *)
Fixpoint split_at (i : ptr) (row : list ptr) : list ptr * list ptr :=
  match row with
  | [] => ([], [])
  | x :: r => if decide (x = i) then ([], r)
              else let ab := split_at i r in (x :: ab.1, ab.2)
  end.

(** The other nodes of the row of [i], in the order in which a walk to
    the right from [i] meets them. *)
Fixpoint others_in (rows : list (list ptr)) (i : ptr) : list ptr :=
  match rows with
  | [] => []
  | row :: rs => if decide (i ∈ row)
                 then let ab := split_at i row in ab.2 ++ ab.1
                 else others_in rs i
  end.

Definition others (Σ : layout) (i : ptr) : list ptr := others_in (l_rows Σ) i.

Record layout_ok (Σ : layout) : Prop := {
  lo_nodup : NoDup (Root :: l_cols Σ ++ nodes Σ);
  lo_hd : ∀ x, x ∈ nodes Σ → l_hd Σ x ∈ l_cols Σ;
  lo_row : ∀ row, row ∈ l_rows Σ → NoDup (l_hd Σ <$> row);
  lo_size : Z.of_nat (length (nodes Σ)) + 1 < 2 ^ 64
}.

Lemma split_at_spec i l1 l2 : i ∉ l1 → split_at i (l1 ++ i :: l2) = (l1, l2).
Proof.
  induction l1 as [|x l1 IH]; intros Hi; simpl.
  - by rewrite decide_True.
  - rewrite decide_False by set_solver. rewrite IH by set_solver. done.
Qed.

Lemma others_in_spec rows row l1 i l2 :
  NoDup (mjoin rows) → row ∈ rows → row = l1 ++ i :: l2 →
  others_in rows i = l2 ++ l1.
Proof.
  induction rows as [|r rs IH]; intros Hnd Hin Heq; [by apply elem_of_nil in Hin|].
  simpl in Hnd. apply list.NoDup_app in Hnd as (Hr & Hdisj & Hrs).
  simpl. apply elem_of_cons in Hin as [<-|Hin].
  - subst row. rewrite decide_True by set_solver.
    rewrite split_at_spec; [done|].
    apply list.NoDup_app in Hr as (_ & Hd & _). intros ?. eapply Hd; [done|set_solver].
  - rewrite decide_False; [by apply IH|].
    intros Hir. eapply Hdisj; [done|]. apply list_elem_of_join. exists row.
    split; [subst; set_solver|done].
Qed.

Lemma NoDup_fmap_eq {A B} (f : A → B) (l : list A) x y :
  NoDup (f <$> l) → x ∈ l → y ∈ l → f x = f y → x = y.
Proof.
  induction l as [|a l IH]; intros Hnd Hx Hy Heq; [by apply elem_of_nil in Hx|].
  simpl in Hnd. apply list.NoDup_cons in Hnd as [Ha Hnd].
  apply elem_of_cons in Hx as [->|Hx]; apply elem_of_cons in Hy as [->|Hy]; try done.
  - exfalso. apply Ha. rewrite Heq. by apply list_elem_of_fmap_2.
  - exfalso. apply Ha. rewrite <- Heq. by apply list_elem_of_fmap_2.
  - by apply IH.
Qed.

Section layout_facts.
Context (Σ : layout) (HΣ : layout_ok Σ).

Lemma nodes_nodup : NoDup (nodes Σ).
Proof.
  pose proof (lo_nodup _ HΣ) as Hnd.
  apply list.NoDup_cons in Hnd as [_ Hnd]. by apply list.NoDup_app in Hnd as (_ & _ & ?).
Qed.

Lemma cols_nodup : NoDup (l_cols Σ).
Proof.
  pose proof (lo_nodup _ HΣ) as Hnd.
  apply list.NoDup_cons in Hnd as [_ Hnd]. by apply list.NoDup_app in Hnd as (? & _ & _).
Qed.

Lemma col_not_node c : c ∈ l_cols Σ → c ∉ nodes Σ.
Proof.
  pose proof (lo_nodup _ HΣ) as Hnd.
  apply list.NoDup_cons in Hnd as [_ Hnd]. apply list.NoDup_app in Hnd as (_ & Hd & _). eauto.
Qed.

Lemma root_not_col : Root ∉ l_cols Σ.
Proof.
  pose proof (lo_nodup _ HΣ) as Hnd.
  apply list.NoDup_cons in Hnd as [Hr _]. set_solver.
Qed.

Lemma root_not_node : Root ∉ nodes Σ.
Proof.
  pose proof (lo_nodup _ HΣ) as Hnd.
  apply list.NoDup_cons in Hnd as [Hr _]. set_solver.
Qed.

Lemma node_row i : i ∈ nodes Σ → ∃ row l1 l2, row ∈ l_rows Σ ∧ row = l1 ++ i :: l2.
Proof.
  intros Hi. apply list_elem_of_join in Hi as (row & Hir & Hrow).
  apply list_elem_of_split in Hir as (l1 & l2 & ->). eauto.
Qed.

Lemma others_spec row l1 i l2 :
  row ∈ l_rows Σ → row = l1 ++ i :: l2 → others Σ i = l2 ++ l1.
Proof. intros. eapply others_in_spec; eauto using nodes_nodup. Qed.

Lemma row_sub_nodes row x : row ∈ l_rows Σ → x ∈ row → x ∈ nodes Σ.
Proof. intros. apply list_elem_of_join. eauto. Qed.

Lemma row_nodup row : row ∈ l_rows Σ → NoDup row.
Proof. intros Hr. eapply NoDup_fmap_1. by apply lo_row. Qed.

(** Two rows that share a node are the same row. *)
Lemma row_unique r1 r2 x : r1 ∈ l_rows Σ → r2 ∈ l_rows Σ → x ∈ r1 → x ∈ r2 → r1 = r2.
Proof.
  pose proof nodes_nodup as Hnd. unfold nodes in Hnd.
  induction (l_rows Σ) as [|r rs IH]; intros H1 H2 Hx1 Hx2; [by apply elem_of_nil in H1|].
  simpl in Hnd. apply list.NoDup_app in Hnd as (_ & Hd & Hrs).
  apply elem_of_cons in H1 as [->|H1]; apply elem_of_cons in H2 as [->|H2]; try done.
  - exfalso. eapply Hd; [done|]. apply list_elem_of_join. eauto.
  - exfalso. eapply Hd; [done|]. apply list_elem_of_join. eauto.
  - by apply IH.
Qed.

Lemma others_elem i j :
  i ∈ nodes Σ →
  (j ∈ others Σ i ↔ j ≠ i ∧ ∃ row, row ∈ l_rows Σ ∧ i ∈ row ∧ j ∈ row).
Proof.
  intros Hi. destruct (node_row i Hi) as (row & l1 & l2 & Hrow & Heq).
  rewrite (others_spec row l1 i l2) by done.
  pose proof (row_nodup row Hrow) as Hnd. rewrite Heq in Hnd.
  apply list.NoDup_app in Hnd as (Hnd1 & Hd & Hnd2). apply list.NoDup_cons in Hnd2 as [Hi2 Hnd2].
  split.
  - intros Hj. split.
    + intros ->. apply elem_of_app in Hj as [?|?]; [done|]. eapply Hd; [done|set_solver].
    + exists row. subst row. set_solver.
  - intros [Hne (row' & Hrow' & Hi' & Hj')].
    assert (row' = row) as ->.
    { apply (row_unique row' row i); [done|done|done|]. rewrite Heq. set_solver. }
    subst row. set_solver.
Qed.

Lemma others_nodup i : i ∈ nodes Σ → NoDup (others Σ i).
Proof.
  intros Hi. destruct (node_row i Hi) as (row & l1 & l2 & Hrow & Heq).
  rewrite (others_spec row l1 i l2) by done.
  pose proof (row_nodup row Hrow) as Hnd. rewrite Heq in Hnd.
  apply list.NoDup_app in Hnd as (Hnd1 & Hd & Hnd2). apply list.NoDup_cons in Hnd2 as [Hi2 Hnd2].
  apply list.NoDup_app. split_and!; try done.
  intros x Hx2 Hx1. eapply Hd; [done|set_solver].
Qed.

Lemma others_nodes i j : i ∈ nodes Σ → j ∈ others Σ i → j ∈ nodes Σ.
Proof.
  intros Hi Hj. apply others_elem in Hj as [_ (row & ? & ? & ?)]; [|done].
  eauto using row_sub_nodes.
Qed.

Lemma others_not_self i : i ∈ nodes Σ → i ∉ others Σ i.
Proof. intros Hi Hj. apply others_elem in Hj as [? _]; done. Qed.

(** Two nodes of a row are in different columns. *)
Lemma others_hd i j : i ∈ nodes Σ → j ∈ others Σ i → l_hd Σ j ≠ l_hd Σ i.
Proof.
  intros Hi Hj Heq. apply others_elem in Hj as [Hne (row & Hrow & Hir & Hjr)]; [|done].
  apply Hne. eapply (NoDup_fmap_eq (l_hd Σ) row); eauto using lo_row.
Qed.

Lemma others_sym i j : i ∈ nodes Σ → j ∈ others Σ i → i ∈ others Σ j.
Proof.
  intros Hi Hj. pose proof (others_nodes _ _ Hi Hj).
  apply others_elem in Hj as [Hne (row & Hrow & Hir & Hjr)]; [|done].
  apply others_elem; [done|]. split; [done|]. eauto.
Qed.

Lemma others_length i : (length (others Σ i) ≤ length (nodes Σ))%nat.
Proof.
  destruct (decide (i ∈ nodes Σ)) as [Hi|Hi].
  - apply submseteq_length, NoDup_submseteq; [by apply others_nodup|].
    intros x Hx. eauto using others_nodes.
  - assert (Hnil : others Σ i = []); [|rewrite Hnil; simpl; lia].
    unfold others, nodes in *. induction (l_rows Σ) as [|r rs IH]; [done|]. simpl in *.
    rewrite decide_False by set_solver. apply IH. set_solver.
Qed.

Lemma col0_elem c x : x ∈ col0 Σ c ↔ x ∈ nodes Σ ∧ l_hd Σ x = c.
Proof. unfold col0. rewrite list_elem_of_filter. tauto. Qed.

Lemma colL_elem R c x : x ∈ colL Σ R c ↔ x ∈ nodes Σ ∧ l_hd Σ x = c ∧ x ∉ R.
Proof. unfold colL. rewrite list_elem_of_filter, col0_elem. tauto. Qed.

Lemma live_elem V c : c ∈ live Σ V ↔ c ∈ l_cols Σ ∧ c ∉ V.
Proof. unfold live. rewrite list_elem_of_filter. tauto. Qed.

Lemma colL_nodup R c : NoDup (colL Σ R c).
Proof. unfold colL, col0. apply list.NoDup_filter, list.NoDup_filter, nodes_nodup. Qed.

Lemma live_nodup V : NoDup (live Σ V).
Proof. apply list.NoDup_filter, cols_nodup. Qed.

Lemma ring_nodup_col R c : c ∈ l_cols Σ → NoDup (c :: colL Σ R c).
Proof.
  intros Hc. apply list.NoDup_cons. split; [|apply colL_nodup].
  intros Hin. apply colL_elem in Hin as (? & _). by eapply col_not_node.
Qed.

Lemma ring_nodup_live V : NoDup (Root :: live Σ V).
Proof.
  apply list.NoDup_cons. split; [|apply live_nodup].
  intros Hin. apply live_elem in Hin as [? _]. by apply root_not_col.
Qed.

Lemma colL_length R c : (length (colL Σ R c) ≤ length (nodes Σ))%nat.
Proof.
  unfold colL, col0. etrans; [apply length_filter|]. apply length_filter.
Qed.
End layout_facts.

(** The links of a matrix in which the columns [V] are covered and the
    nodes [R] are unlinked from their columns. *)
Record struct_ok (Σ : layout) (V R : list ptr) (H : heap) : Prop := {
  so_hdrs : ring (rt H) (lf H) Root (live Σ V);
  so_cols : ∀ c, c ∈ l_cols Σ → ring (dn H) (upp H) c (colL Σ R c);
  so_rows : ∀ row l1 i l2, row ∈ l_rows Σ → row = l1 ++ i :: l2 →
            ring (rt H) (lf H) i (l2 ++ l1);
  so_hd : ∀ x, x ∈ nodes Σ → hdr H x = l_hd Σ x;
  so_cnt : ∀ c, c ∈ l_cols Σ → cnt H c = 1 + Z.of_nat (length (colL Σ R c));
  so_dom : ∀ p, p ∈ Root :: l_cols Σ ++ nodes Σ → is_Some (H !! p)
}.

(** A row with one node that is linked in a live column has all its
    nodes linked, all of them in live columns. *)
Definition alive (Σ : layout) (V R : list ptr) : Prop :=
  ∀ row, row ∈ l_rows Σ →
    (∃ i, i ∈ row ∧ l_hd Σ i ∉ V ∧ i ∉ R) →
    ∀ j, j ∈ row → l_hd Σ j ∉ V ∧ j ∉ R.

Definition rm_all (js : list ptr) (H : heap) : heap := foldl (λ H j, rm_step j H) H js.
Definition ins_all (js : list ptr) (H : heap) : heap := foldl (λ H j, ins_step j H) H js.

(** The nodes that [cover] unlinks while walking down the column whose
    linked nodes are [L]. *)
Definition trace (Σ : layout) (L : list ptr) : list ptr := mjoin (others Σ <$> L).

Lemma filter_true_in {A} (P : A → Prop) `{!∀ x, Decision (P x)} (l : list A) :
  (∀ x, x ∈ l → P x) → filter P l = l.
Proof.
  induction l as [|a l IH]; intros HP; [done|].
  rewrite filter_cons_True by (apply HP; set_solver).
  rewrite IH; [done|]. intros x Hx. apply HP. set_solver.
Qed.

Lemma filter_ext_in {A} (P1 P2 : A → Prop)
    `{!∀ x, Decision (P1 x), !∀ x, Decision (P2 x)} (l : list A) :
  (∀ x, x ∈ l → (P1 x ↔ P2 x)) → filter P1 l = filter P2 l.
Proof.
  induction l as [|a l IH]; intros HP; [done|].
  assert (∀ x, x ∈ l → P1 x ↔ P2 x) as HP' by (intros x Hx; apply HP; set_solver).
  destruct (decide (P1 a)) as [Ha|Ha].
  - rewrite !filter_cons_True; [by rewrite IH|apply HP; [set_solver|done]|done].
  - rewrite !filter_cons_False; [by rewrite IH|rewrite <- HP; [done|set_solver]|done].
Qed.

Lemma filter_remove_mid (x : ptr) l1 l2 :
  NoDup (l1 ++ x :: l2) → filter (λ y, y ≠ x) (l1 ++ x :: l2) = l1 ++ l2.
Proof.
  intros Hnd. apply list.NoDup_app in Hnd as (_ & Hd & Hnd2).
  apply list.NoDup_cons in Hnd2 as [Hx2 _].
  rewrite list.filter_app, filter_cons_False by (intros ?; done).
  f_equal; apply filter_true_in.
  - intros y Hy ->. eapply Hd; [done|set_solver].
  - intros y Hy ->. done.
Qed.

Lemma colL_cons Σ j R c : colL Σ (j :: R) c = filter (λ y, y ≠ j) (colL Σ R c).
Proof.
  unfold colL. rewrite list_filter_filter. apply list_filter_iff.
  intros x. rewrite not_elem_of_cons. tauto.
Qed.

Lemma colL_ext Σ R R' c : (∀ x, x ∈ R ↔ x ∈ R') → colL Σ R c = colL Σ R' c.
Proof. intros HR. unfold colL. apply list_filter_iff. intros x. by rewrite HR. Qed.

Lemma live_ext Σ V V' : (∀ x, x ∈ V ↔ x ∈ V') → live Σ V = live Σ V'.
Proof. intros HV. unfold live. apply list_filter_iff. intros x. by rewrite HV. Qed.

Lemma struct_ok_ext Σ V V' R R' H :
  (∀ x, x ∈ V ↔ x ∈ V') → (∀ x, x ∈ R ↔ x ∈ R') →
  struct_ok Σ V R H → struct_ok Σ V' R' H.
Proof.
  intros HV HR [? ? ? ? ? ?]. split; try done.
  - by rewrite <- (live_ext Σ V V').
  - intros c Hc. rewrite <- (colL_ext Σ R R') by done. auto.
  - intros c Hc. rewrite <- (colL_ext Σ R R') by done. auto.
Qed.

Lemma alive_ext Σ V V' R R' :
  (∀ x, x ∈ V ↔ x ∈ V') → (∀ x, x ∈ R ↔ x ∈ R') → alive Σ V R → alive Σ V' R'.
Proof.
  intros HV HR Ha row Hrow (i & Hi & Hiv & Hir) j Hj.
  rewrite <- HV, <- HR. apply (Ha row Hrow); [|done].
  exists i. rewrite HV, HR. done.
Qed.

Lemma wrap_small z : 0 ≤ z < 2 ^ 64 → wrap z = z.
Proof. intros. unfold wrap. by apply Z.mod_small. Qed.

Section steps.
Context (Σ : layout) (HΣ : layout_ok Σ).

(** Distinct columns share no cell. *)
Lemma col_disjoint R R' c c' q :
  c ∈ l_cols Σ → c' ∈ l_cols Σ → c ≠ c' →
  q ∈ c :: colL Σ R c → q ∈ c' :: colL Σ R' c' → False.
Proof.
  intros Hc Hc' Hne Hq Hq'.
  apply elem_of_cons in Hq as [->|Hq]; apply elem_of_cons in Hq' as [->|Hq']; try done.
  - apply colL_elem in Hq' as (? & _). by apply (col_not_node Σ HΣ c).
  - apply colL_elem in Hq as (? & _). by apply (col_not_node Σ HΣ c').
  - apply colL_elem in Hq as (_ & ? & _). apply colL_elem in Hq' as (_ & ? & _). congruence.
Qed.

Lemma rm_step_ok V R H j :
  struct_ok Σ V R H → j ∈ nodes Σ → j ∉ R →
  struct_ok Σ V (j :: R) (rm_step j H).
Proof.
  intros Hok Hj HjR.
  pose proof (lo_hd _ HΣ j Hj) as Hc0.
  assert (Hjc : j ∈ colL Σ R (l_hd Σ j)) by (by apply colL_elem).
  apply list_elem_of_split in Hjc as (l1 & l2 & Hsplit).
  pose proof (so_cols _ _ _ _ Hok _ Hc0) as Hring. rewrite Hsplit in Hring.
  pose proof (ring_nodup_col Σ HΣ R _ Hc0) as Hnd. rewrite Hsplit in Hnd.
  destruct (seg_nx_pv _ _ _ _ _ _ _ Hring) as (Ep & Epn & En & Enp).
  split.
  - eapply seg_ext_all; [..|apply (so_hdrs _ _ _ _ Hok)]; intros q.
    + apply rt_rm_step.
    + apply lf_rm_step.
  - intros c Hc. rewrite colL_cons.
    destruct (decide (c = l_hd Σ j)) as [->|Hne].
    + rewrite Hsplit, filter_remove_mid
        by (apply list.NoDup_cons in Hnd as [_ ?]; done).
      eapply ring_remove; [exact Hnd|exact Hring|..]; intros q.
      * apply dn_rm_step.
      * apply upp_rm_step.
    + rewrite filter_true_in.
      2:{ intros x Hx ->. apply colL_elem in Hx as (_ & ? & _). done. }
      eapply seg_ext; [| |apply (so_cols _ _ _ _ Hok _ Hc)].
      * intros q Hq. rewrite dn_rm_step. rewrite decide_False; [done|].
        intros ->. eapply (col_disjoint R R c (l_hd Σ j)); [done..|].
        rewrite Ep, Hsplit. pose proof (last_elem_of (l_hd Σ j) l1). set_solver.
      * intros q Hq. rewrite upp_rm_step. rewrite decide_False; [done|].
        intros ->. eapply (col_disjoint R R c (l_hd Σ j) (dn H j)); [done..| |].
        { apply elem_of_app in Hq as [?|?]; set_solver. }
        rewrite En, Hsplit. pose proof (hd_elem_of (l_hd Σ j) l2). set_solver.
  - intros row l1' i l2' Hrow Heq.
    eapply seg_ext_all; [..|apply (so_rows _ _ _ _ Hok _ _ _ _ Hrow Heq)]; intros q.
    + apply rt_rm_step.
    + apply lf_rm_step.
  - intros x Hx. rewrite hdr_rm_step. by apply (so_hd _ _ _ _ Hok).
  - intros c Hc. rewrite cnt_rm_step, (so_hd _ _ _ _ Hok j Hj), (so_cnt _ _ _ _ Hok c Hc).
    rewrite colL_cons.
    pose proof (colL_length Σ R c). pose proof (lo_size _ HΣ).
    destruct (decide (c = l_hd Σ j)) as [->|Hne].
    + rewrite Hsplit, filter_remove_mid
        by (apply list.NoDup_cons in Hnd as [_ ?]; done).
      rewrite Hsplit in *. rewrite length_app in *. simpl in *.
      rewrite wrap_small by lia. rewrite length_app. lia.
    + rewrite filter_true_in; [done|].
      intros x Hx ->. apply colL_elem in Hx as (_ & ? & _). done.
  - intros p Hp. apply rm_step_is_Some. by apply (so_dom _ _ _ _ Hok).
Qed.
End steps.

Section ins_frames.
Context (H : heap) (j q : ptr).

Lemma rid_ins_step : rid (ins_step j H) q = rid H q.
Proof. unfold ins_step, incr_count, insert_ud. by heap_rw. Qed.
Lemma cid_ins_step : cid (ins_step j H) q = cid H q.
Proof. unfold ins_step, incr_count, insert_ud. by heap_rw. Qed.
Lemma upp_ins_step :
  upp (ins_step j H) q = if decide (q = dn H j) then j else upp H q.
Proof. unfold ins_step, incr_count, insert_ud. by heap_rw. Qed.
Lemma dn_ins_step :
  dn H j ≠ j →
  dn (ins_step j H) q = if decide (q = upp H j) then j else dn H q.
Proof.
  intros Hne. unfold ins_step, incr_count, insert_ud. heap_rw.
  rewrite (decide_False (P := j = dn H j)) by done. done.
Qed.
Lemma cnt_ins_step :
  cnt (ins_step j H) q = if decide (q = hdr H j) then wrap (cnt H q + 1) else cnt H q.
Proof. unfold ins_step, incr_count, insert_ud. heap_rw. by case_decide; subst. Qed.

Lemma rt_insert_lr :
  rt H j ≠ j →
  rt (insert_lr j H) q = if decide (q = lf H j) then j else rt H q.
Proof.
  intros Hne. unfold insert_lr. heap_rw.
  rewrite (decide_False (P := j = rt H j)) by done. done.
Qed.
Lemma lf_insert_lr :
  lf (insert_lr j H) q = if decide (q = rt H j) then j else lf H q.
Proof. unfold insert_lr. by heap_rw. Qed.
Lemma upp_insert_lr : upp (insert_lr j H) q = upp H q.
Proof. unfold insert_lr. by heap_rw. Qed.
Lemma dn_insert_lr : dn (insert_lr j H) q = dn H q.
Proof. unfold insert_lr. by heap_rw. Qed.
Lemma hdr_insert_lr : hdr (insert_lr j H) q = hdr H q.
Proof. unfold insert_lr. by heap_rw. Qed.
Lemma cnt_insert_lr : cnt (insert_lr j H) q = cnt H q.
Proof. unfold insert_lr. by heap_rw. Qed.
Lemma rid_insert_lr : rid (insert_lr j H) q = rid H q.
Proof. unfold insert_lr. by heap_rw. Qed.
Lemma cid_insert_lr : cid (insert_lr j H) q = cid H q.
Proof. unfold insert_lr. by heap_rw. Qed.
End ins_frames.

(** Stores to allocated cells leave the set of allocated cells as it is. *)
Section dom.
Context (H : heap) (p v : ptr) (z : Z) (Hp : is_Some (H !! p)).

Lemma set_left_dom q : is_Some (set_left p v H !! q) ↔ is_Some (H !! q).
Proof. by apply wr_dom_iff. Qed.
Lemma set_right_dom q : is_Some (set_right p v H !! q) ↔ is_Some (H !! q).
Proof. by apply wr_dom_iff. Qed.
Lemma set_up_dom q : is_Some (set_up p v H !! q) ↔ is_Some (H !! q).
Proof. by apply wr_dom_iff. Qed.
Lemma set_down_dom q : is_Some (set_down p v H !! q) ↔ is_Some (H !! q).
Proof. by apply wr_dom_iff. Qed.
Lemma set_count_dom q : is_Some (set_count p z H !! q) ↔ is_Some (H !! q).
Proof. by apply wr_dom_iff. Qed.
End dom.

Lemma rm_step_dom H j q :
  is_Some (H !! upp H j) → is_Some (H !! dn H j) → is_Some (H !! hdr H j) →
  (is_Some (rm_step j H !! q) ↔ is_Some (H !! q)).
Proof.
  intros Hu Hd Hh. unfold rm_step, decr_count, remove_ud. cbv zeta.
  rewrite set_count_dom, set_up_dom, set_down_dom; [done|done|..]; heap_rw.
  - apply set_down_dom; [done|]. by case_decide.
  - apply set_up_dom; [apply set_down_dom; [done|by case_decide]|].
    by apply set_down_dom.
Qed.

Lemma ins_step_dom H j q :
  is_Some (H !! upp H j) → is_Some (H !! dn H j) → is_Some (H !! hdr H j) →
  is_Some (H !! j) →
  (is_Some (ins_step j H !! q) ↔ is_Some (H !! q)).
Proof.
  intros Hu Hd Hh Hj. unfold ins_step, incr_count, insert_ud. cbv zeta.
  rewrite set_down_dom, set_up_dom, set_count_dom; [done|done|..]; heap_rw.
  - by apply set_count_dom.
  - apply set_up_dom; [by apply set_count_dom|]. apply set_count_dom; [done|].
    by case_decide.
Qed.

Lemma remove_lr_dom H j q :
  is_Some (H !! lf H j) → is_Some (H !! rt H j) →
  (is_Some (remove_lr j H !! q) ↔ is_Some (H !! q)).
Proof.
  intros Hl Hr. unfold remove_lr. cbv zeta.
  rewrite set_left_dom, set_right_dom; [done|done|]. heap_rw.
  apply set_right_dom; [done|]. by case_decide.
Qed.

Lemma insert_lr_dom H j q :
  is_Some (H !! lf H j) → is_Some (H !! rt H j) → is_Some (H !! j) →
  (is_Some (insert_lr j H !! q) ↔ is_Some (H !! q)).
Proof.
  intros Hl Hr Hj. unfold insert_lr. cbv zeta.
  rewrite set_right_dom, set_left_dom; [done|done|]. heap_rw.
  apply set_left_dom; [done|]. by case_decide.
Qed.

Section inverse.
Context (Σ : layout) (HΣ : layout_ok Σ).

(** The neighbours of a linked node. *)
Lemma linked_node V R H j :
  struct_ok Σ V R H → j ∈ nodes Σ → j ∉ R →
  dn H (upp H j) = j ∧ upp H (dn H j) = j ∧
  upp H j ∈ l_hd Σ j :: colL Σ R (l_hd Σ j) ∧
  dn H j ∈ l_hd Σ j :: colL Σ R (l_hd Σ j) ∧
  upp H j ≠ j ∧ dn H j ≠ j.
Proof.
  intros Hok Hj HjR.
  pose proof (lo_hd _ HΣ j Hj) as Hc0.
  assert (Hjc : j ∈ colL Σ R (l_hd Σ j)) by (by apply colL_elem).
  apply list_elem_of_split in Hjc as (l1 & l2 & Hsplit).
  pose proof (so_cols _ _ _ _ Hok _ Hc0) as Hring. rewrite Hsplit in Hring.
  pose proof (ring_nodup_col Σ HΣ R _ Hc0) as Hnd. rewrite Hsplit in Hnd.
  destruct (seg_nx_pv _ _ _ _ _ _ _ Hring) as (Ep & Epn & En & Enp).
  rewrite Ep, En, Hsplit.
  pose proof (last_elem_of (l_hd Σ j) l1) as Hl.
  pose proof (hd_elem_of (l_hd Σ j) l2) as Hh.
  apply list.NoDup_cons in Hnd as [Hc Hnd].
  apply list.NoDup_app in Hnd as (Hnd1 & Hdisj & Hnd2).
  apply list.NoDup_cons in Hnd2 as [Hx2 Hnd2].
  split_and!; try done.
  - set_solver.
  - apply elem_of_app in Hh as [?|?]; set_solver.
  - intros Heq. rewrite Heq in Hl. apply elem_of_cons in Hl as [Hjc|Hl].
    { apply Hc. rewrite <- Hjc. set_solver. }
    eapply Hdisj; [done|set_solver].
  - intros Heq. rewrite Heq in Hh. apply elem_of_app in Hh as [?|Hjc]; [done|].
    apply list_elem_of_singleton in Hjc. apply Hc. rewrite <- Hjc. set_solver.
Qed.

Lemma col_cell_alloc V R H c q :
  struct_ok Σ V R H → c ∈ l_cols Σ → q ∈ c :: colL Σ R c → is_Some (H !! q).
Proof.
  intros Hok Hc Hq. apply (so_dom _ _ _ _ Hok).
  apply elem_of_cons in Hq as [->|Hq]; [set_solver|].
  apply colL_elem in Hq as (? & _). set_solver.
Qed.

(** [uncover]'s step undoes [cover]'s step. *)
Lemma ins_rm_step V R H j :
  struct_ok Σ V R H → j ∈ nodes Σ → j ∉ R → ins_step j (rm_step j H) = H.
Proof.
  intros Hok Hj HjR.
  destruct (linked_node V R H j Hok Hj HjR) as (Hdu & Hud & Hu & Hd & Hune & Hdne).
  pose proof (lo_hd _ HΣ j Hj) as Hc0.
  pose proof (col_cell_alloc _ _ _ _ _ Hok Hc0 Hu) as Hua.
  pose proof (col_cell_alloc _ _ _ _ _ Hok Hc0 Hd) as Hda.
  assert (Hha : is_Some (H !! hdr H j)).
  { rewrite (so_hd _ _ _ _ Hok j Hj). apply (so_dom _ _ _ _ Hok). set_solver. }
  assert (Hja : is_Some (H !! j)).
  { apply (so_dom _ _ _ _ Hok). set_solver. }
  assert (Hu' : upp (rm_step j H) j = upp H j).
  { rewrite upp_rm_step. by case_decide. }
  assert (Hd' : dn (rm_step j H) j = dn H j).
  { rewrite dn_rm_step. by case_decide. }
  apply heap_ext_fields; intros q.
  - rewrite ins_step_dom.
    + by apply rm_step_dom.
    + rewrite Hu'. by apply rm_step_dom.
    + rewrite Hd'. by apply rm_step_dom.
    + rewrite hdr_rm_step. by apply rm_step_dom.
    + by apply rm_step_dom.
  - by rewrite lf_ins_step, lf_rm_step.
  - by rewrite rt_ins_step, rt_rm_step.
  - rewrite upp_ins_step, Hd', upp_rm_step. case_decide; [by subst|done].
  - rewrite dn_ins_step by (by rewrite Hd').
    rewrite Hu', dn_rm_step. case_decide; [by subst|done].
  - by rewrite hdr_ins_step, hdr_rm_step.
  - rewrite cnt_ins_step, hdr_rm_step, cnt_rm_step. case_decide; [|done].
    subst q. rewrite (so_hd _ _ _ _ Hok j Hj), (so_cnt _ _ _ _ Hok _ Hc0).
    pose proof (colL_length Σ R (l_hd Σ j)). pose proof (lo_size _ HΣ).
    rewrite (wrap_small (_ - 1)) by lia. rewrite wrap_small by lia. lia.
  - by rewrite rid_ins_step, rid_rm_step.
  - by rewrite cid_ins_step, cid_rm_step.
Qed.

Lemma rm_all_ok js : ∀ V R H,
  struct_ok Σ V R H → NoDup js →
  (∀ j, j ∈ js → j ∈ nodes Σ ∧ j ∉ R) →
  struct_ok Σ V (reverse js ++ R) (rm_all js H).
Proof.
  induction js as [|j js IH]; intros V R H Hok Hnd Hjs; [done|].
  apply list.NoDup_cons in Hnd as [Hj Hnd].
  rewrite reverse_cons, <- app_assoc. simpl.
  apply IH; [|done|].
  - apply rm_step_ok; [done|done|..]; apply Hjs; set_solver.
  - intros j' Hj'. split; [apply Hjs; set_solver|].
    rewrite not_elem_of_cons. split; [set_solver|]. apply Hjs. set_solver.
Qed.

Lemma ins_rm_all js : ∀ V R H,
  struct_ok Σ V R H → NoDup js →
  (∀ j, j ∈ js → j ∈ nodes Σ ∧ j ∉ R) →
  ins_all (reverse js) (rm_all js H) = H.
Proof.
  induction js as [|j js IH]; intros V R H Hok Hnd Hjs; [done|].
  apply list.NoDup_cons in Hnd as [Hj Hnd].
  rewrite reverse_cons. unfold ins_all. rewrite foldl_app. simpl.
  fold (ins_all (reverse js) (rm_all js (rm_step j H))).
  rewrite (IH V (j :: R)); [|apply rm_step_ok; [done|done|..]; apply Hjs; set_solver|done|].
  - eapply ins_rm_step; [done|..]; apply Hjs; set_solver.
  - intros j' Hj'. split; [apply Hjs; set_solver|].
    rewrite not_elem_of_cons. split; [set_solver|]. apply Hjs. set_solver.
Qed.
End inverse.

(** * The loops of cover and uncover *)

Lemma ring_member nx pv h l1 x l2 :
  NoDup (h :: l1 ++ x :: l2) → ring nx pv h (l1 ++ x :: l2) →
  nx (pv x) = x ∧ pv (nx x) = x ∧ pv x ∈ h :: l1 ∧ nx x ∈ l2 ++ [h] ∧
  pv x ≠ x ∧ nx x ≠ x.
Proof.
  intros Hnd Hring.
  destruct (seg_nx_pv _ _ _ _ _ _ _ Hring) as (Ep & Epn & En & Enp).
  rewrite Ep, En.
  pose proof (last_elem_of h l1) as Hl.
  pose proof (hd_elem_of h l2) as Hh.
  apply list.NoDup_cons in Hnd as [Hc Hnd].
  apply list.NoDup_app in Hnd as (Hnd1 & Hdisj & Hnd2).
  apply list.NoDup_cons in Hnd2 as [Hx2 Hnd2].
  split_and!; try done.
  - intros Heq. rewrite Heq in Hl. apply elem_of_cons in Hl as [Hjc|Hl].
    { apply Hc. rewrite <- Hjc. set_solver. }
    eapply Hdisj; [done|set_solver].
  - intros Heq. rewrite Heq in Hh. apply elem_of_app in Hh as [?|Hjc]; [done|].
    apply list_elem_of_singleton in Hjc. apply Hc. rewrite <- Hjc. set_solver.
Qed.

Lemma cover_row_run i js : ∀ fuel j H,
  seg (rt H) (lf H) j js i → i ∉ js → (length js < fuel)%nat →
  cover_row fuel i j H = Some (rm_all js H).
Proof.
  induction js as [|x js IH]; intros fuel j H Hseg Hi Hf;
    (destruct fuel as [|f]; [simpl in Hf; lia|]); simpl in *.
  - destruct Hseg as [-> _]. by rewrite decide_True.
  - destruct Hseg as (Hx & _ & Hseg). rewrite Hx.
    rewrite decide_False by set_solver.
    fold (rm_step x H). apply IH; [|set_solver|lia].
    eapply seg_ext_all; [..|exact Hseg]; intros q.
    + apply rt_rm_step.
    + apply lf_rm_step.
Qed.

Lemma uncover_row_run i js : ∀ fuel j H,
  seg (lf H) (rt H) j js i → i ∉ js → (length js < fuel)%nat →
  uncover_row fuel i j H = Some (ins_all js H).
Proof.
  induction js as [|x js IH]; intros fuel j H Hseg Hi Hf;
    (destruct fuel as [|f]; [simpl in Hf; lia|]); simpl in *.
  - destruct Hseg as [-> _]. by rewrite decide_True.
  - destruct Hseg as (Hx & _ & Hseg). rewrite Hx.
    rewrite decide_False by set_solver.
    fold (ins_step x H). apply IH; [|set_solver|lia].
    eapply seg_ext_all; [..|exact Hseg]; intros q.
    + apply lf_ins_step.
    + apply rt_ins_step.
Qed.

Lemma live_cons Σ h V : live Σ (h :: V) = filter (λ y, y ≠ h) (live Σ V).
Proof.
  unfold live. rewrite list_filter_filter. apply list_filter_iff.
  intros x. rewrite not_elem_of_cons. tauto.
Qed.

Section cover.
Context (Σ : layout) (HΣ : layout_ok Σ).

Lemma live_not_node V q x : q ∈ Root :: live Σ V → x ∈ nodes Σ → q ≠ x.
Proof.
  intros Hq Hx ->. apply elem_of_cons in Hq as [->|Hq].
  - by apply (root_not_node Σ HΣ).
  - apply live_elem in Hq as [? _]. by apply (col_not_node Σ HΣ x).
Qed.

Lemma live_cell_alloc V R H q :
  struct_ok Σ V R H → q ∈ Root :: live Σ V → is_Some (H !! q).
Proof.
  intros Hok Hq. apply (so_dom _ _ _ _ Hok).
  apply elem_of_cons in Hq as [->|Hq]; [set_solver|].
  apply live_elem in Hq as [? _]. set_solver.
Qed.

(** Removing a live header from the header list. *)
Lemma remove_lr_ok V R H h :
  struct_ok Σ V R H → h ∈ live Σ V →
  struct_ok Σ (h :: V) R (remove_lr h H).
Proof.
  intros Hok Hh.
  apply list_elem_of_split in Hh as (l1 & l2 & Hsplit).
  pose proof (so_hdrs _ _ _ _ Hok) as Hring. rewrite Hsplit in Hring.
  pose proof (ring_nodup_live Σ HΣ V) as Hnd. rewrite Hsplit in Hnd.
  destruct (ring_member _ _ _ _ _ _ Hnd Hring) as (_ & _ & Hp & Hn & _ & _).
  split.
  - rewrite live_cons, Hsplit, filter_remove_mid
      by (apply list.NoDup_cons in Hnd as [_ ?]; done).
    eapply ring_remove; [exact Hnd|exact Hring|..]; intros q.
    + apply rt_remove_lr.
    + apply lf_remove_lr.
  - intros c Hc. eapply seg_ext_all; [..|apply (so_cols _ _ _ _ Hok _ Hc)]; intros q.
    + apply dn_remove_lr.
    + apply upp_remove_lr.
  - intros row l1' i l2' Hrow Heq.
    assert (∀ q, q ∈ row → q ∈ nodes Σ) as Hsub
      by (intros q Hq; eapply row_sub_nodes; eauto).
    eapply seg_ext; [| |apply (so_rows _ _ _ _ Hok _ _ _ _ Hrow Heq)]; intros q Hq.
    + rewrite rt_remove_lr. rewrite decide_False; [done|]. intros ->.
      eapply (live_not_node V (lf H h) (lf H h)); [|apply Hsub|done].
      * rewrite Hsplit. set_solver.
      * subst row. set_solver.
    + rewrite lf_remove_lr. rewrite decide_False; [done|]. intros ->.
      eapply (live_not_node V (rt H h) (rt H h)); [|apply Hsub|done].
      * rewrite Hsplit. apply elem_of_app in Hn as [?|?]; set_solver.
      * subst row. set_solver.
  - intros x Hx. rewrite hdr_remove_lr. by apply (so_hd _ _ _ _ Hok).
  - intros c Hc. rewrite cnt_remove_lr. by apply (so_cnt _ _ _ _ Hok).
  - intros p Hp'. apply remove_lr_is_Some. by apply (so_dom _ _ _ _ Hok).
Qed.

Lemma insert_remove_lr V R H h :
  struct_ok Σ V R H → h ∈ live Σ V → insert_lr h (remove_lr h H) = H.
Proof.
  intros Hok Hh.
  assert (Hha : is_Some (H !! h)) by (eapply live_cell_alloc; [done|set_solver]).
  apply list_elem_of_split in Hh as (l1 & l2 & Hsplit).
  pose proof (so_hdrs _ _ _ _ Hok) as Hring. rewrite Hsplit in Hring.
  pose proof (ring_nodup_live Σ HΣ V) as Hnd. rewrite Hsplit in Hnd.
  destruct (ring_member _ _ _ _ _ _ Hnd Hring) as (Hrl & Hlr & Hp & Hn & Hpne & Hnne).
  assert (Hla : is_Some (H !! lf H h)).
  { eapply live_cell_alloc; [done|]. rewrite Hsplit. set_solver. }
  assert (Hra : is_Some (H !! rt H h)).
  { eapply live_cell_alloc; [done|]. rewrite Hsplit.
    apply elem_of_app in Hn as [?|?]; set_solver. }
  assert (Hl' : lf (remove_lr h H) h = lf H h).
  { rewrite lf_remove_lr. by case_decide. }
  assert (Hr' : rt (remove_lr h H) h = rt H h).
  { rewrite rt_remove_lr. by case_decide. }
  apply heap_ext_fields; intros q.
  - rewrite insert_lr_dom.
    + by apply remove_lr_dom.
    + rewrite Hl'. by apply remove_lr_dom.
    + rewrite Hr'. by apply remove_lr_dom.
    + by apply remove_lr_dom.
  - rewrite lf_insert_lr, Hr', lf_remove_lr. case_decide; [by subst|done].
  - rewrite rt_insert_lr by (by rewrite Hr').
    rewrite Hl', rt_remove_lr. case_decide; [by subst|done].
  - by rewrite upp_insert_lr, upp_remove_lr.
  - by rewrite dn_insert_lr, dn_remove_lr.
  - by rewrite hdr_insert_lr, hdr_remove_lr.
  - by rewrite cnt_insert_lr, cnt_remove_lr.
  - by rewrite rid_insert_lr, rid_remove_lr.
  - by rewrite cid_insert_lr, cid_remove_lr.
Qed.

Lemma row_ring V R H i :
  struct_ok Σ V R H → i ∈ nodes Σ → ring (rt H) (lf H) i (others Σ i).
Proof.
  intros Hok Hi. destruct (node_row Σ i Hi) as (row & l1 & l2 & Hrow & Heq).
  rewrite (others_spec Σ HΣ row l1 i l2) by done.
  by apply (so_rows _ _ _ _ Hok row).
Qed.

Lemma trace_elem L j : j ∈ trace Σ L ↔ ∃ i, i ∈ L ∧ j ∈ others Σ i.
Proof.
  unfold trace. rewrite list_elem_of_join. split.
  - intros (l & Hj & Hl). apply list_elem_of_fmap in Hl as (i & -> & Hi). eauto.
  - intros (i & Hi & Hj). exists (others Σ i). split; [done|].
    by apply list_elem_of_fmap_2.
Qed.

Lemma trace_app L1 L2 : trace Σ (L1 ++ L2) = trace Σ L1 ++ trace Σ L2.
Proof. unfold trace. by rewrite fmap_app, join_app. Qed.

Lemma rm_all_app js1 js2 H : rm_all (js1 ++ js2) H = rm_all js2 (rm_all js1 H).
Proof. unfold rm_all. by rewrite foldl_app. Qed.

(** The nodes of one column are in different rows, so the walk down a
    column unlinks every node at most once. *)
Lemma trace_nodup c L :
  NoDup L → (∀ i, i ∈ L → i ∈ nodes Σ ∧ l_hd Σ i = c) → NoDup (trace Σ L).
Proof.
  induction L as [|i L IH]; intros Hnd HL; [constructor|].
  apply list.NoDup_cons in Hnd as [Hi Hnd].
  change (trace Σ (i :: L)) with (others Σ i ++ trace Σ L).
  apply list.NoDup_app. split_and!.
  - apply others_nodup; [done|]. apply HL. set_solver.
  - intros j Hj Hj'. apply trace_elem in Hj' as (i' & Hi' & Hj').
    destruct (HL i) as [Hin Hic]; [set_solver|].
    destruct (HL i') as [Hin' Hic']; [set_solver|].
    apply others_elem in Hj as [Hne (row & Hrow & Hir & Hjr)]; [|done..].
    apply others_elem in Hj' as [Hne' (row' & Hrow' & Hir' & Hjr')]; [|done..].
    assert (row' = row) as -> by (by apply (row_unique Σ HΣ row' row j)).
    assert (i' = i); [|by subst].
    eapply (NoDup_fmap_eq (l_hd Σ) row); eauto using lo_row. congruence.
  - apply IH; [done|]. intros. apply HL. set_solver.
Qed.
End cover.

Lemma seg_last_hd nx pv a l1 l2 b :
  seg nx pv a (l1 ++ l2) b → nx (List.last l1 a) = hd b l2 ∧ pv (hd b l2) = List.last l1 a.
Proof.
  destruct l2 as [|x l2].
  - rewrite app_nil_r. simpl. revert a.
    induction l1 as [|y l1 IH]; intros a Hs; [simpl in *; tauto|].
    destruct Hs as (_ & _ & Hs). rewrite last_cons_ptr. by apply IH.
  - intros Hs. destruct (seg_nx_pv _ _ _ _ _ _ _ Hs) as (? & ? & _). simpl. done.
Qed.

Section cover_loops.
Context (Σ : layout) (HΣ : layout_ok Σ).

Lemma colL_irrelevant R1 R c :
  (∀ x, x ∈ R1 → l_hd Σ x ≠ c) → colL Σ (R1 ++ R) c = colL Σ R c.
Proof.
  intros HR1. unfold colL. apply filter_ext_in. intros x Hx.
  apply col0_elem in Hx as [_ Hx]. rewrite not_elem_of_app.
  split; [tauto|]. intros ?. split; [|done]. intros ?. by eapply HR1.
Qed.

Lemma cover_rows_run h L2 : ∀ L1 R S fuel,
  h ∈ l_cols Σ →
  ∀ V, struct_ok Σ V R S →
  colL Σ R h = L1 ++ L2 →
  NoDup (trace Σ L2) →
  (∀ j, j ∈ trace Σ L2 → j ∈ nodes Σ ∧ j ∉ R ∧ l_hd Σ j ≠ h) →
  (length L2 + length (nodes Σ) < fuel)%nat →
  cover_rows fuel h (List.last L1 h) S = Some (rm_all (trace Σ L2) S).
Proof.
  induction L2 as [|i L2 IH]; intros L1 R S fuel Hh V Hok HL Hnd HT Hf;
    (destruct fuel as [|f]; [lia|]); simpl.
  - pose proof (so_cols _ _ _ _ Hok h Hh) as Hring. rewrite HL in Hring.
    destruct (seg_last_hd _ _ _ _ _ _ Hring) as [-> _]. simpl.
    by rewrite decide_True.
  - pose proof (so_cols _ _ _ _ Hok h Hh) as Hring. rewrite HL in Hring.
    destruct (seg_last_hd _ _ _ _ _ _ Hring) as [-> _]. simpl.
    assert (Hi : i ∈ nodes Σ).
    { assert (i ∈ colL Σ R h) as Hi by (rewrite HL; set_solver).
      by apply colL_elem in Hi as (? & _). }
    rewrite decide_False by (intros ->; by apply (col_not_node Σ HΣ h)).
    change (trace Σ (i :: L2)) with (others Σ i ++ trace Σ L2) in *.
    apply list.NoDup_app in Hnd as (Hnd1 & Hdisj & Hnd2).
    rewrite (cover_row_run i (others Σ i)).
    2:{ by eapply row_ring. }
    2:{ by apply others_not_self. }
    2:{ pose proof (others_length Σ HΣ i). simpl in Hf. lia. }
    simpl. rewrite rm_all_app.
    assert (Hok1 : struct_ok Σ V (reverse (others Σ i) ++ R) (rm_all (others Σ i) S)).
    { apply rm_all_ok; [done..|]. intros j Hj. destruct (HT j) as (? & ? & ?); [set_solver|done]. }
    specialize (IH (L1 ++ [i]) (reverse (others Σ i) ++ R) (rm_all (others Σ i) S) f Hh V Hok1).
    rewrite last_snoc_ptr in IH. apply IH.
    + rewrite colL_irrelevant, HL, <- app_assoc; [done|].
      intros x Hx. apply elem_of_reverse in Hx. apply HT. set_solver.
    + done.
    + intros j Hj. destruct (HT j) as (? & ? & ?); [set_solver|].
      split_and!; try done. rewrite not_elem_of_app, elem_of_reverse. split; [|done].
      intros ?. by eapply Hdisj.
    + simpl in Hf. lia.
Qed.

Lemma uncover_rows_run h V R S0 L1 : ∀ L2 fuel,
  h ∈ l_cols Σ →
  struct_ok Σ V R S0 →
  colL Σ R h = L1 ++ L2 →
  NoDup (trace Σ L1) →
  (∀ j, j ∈ trace Σ L1 → j ∈ nodes Σ ∧ j ∉ R ∧ l_hd Σ j ≠ h) →
  (length L1 + length (nodes Σ) < fuel)%nat →
  uncover_rows fuel h (hd h L2) (rm_all (trace Σ L1) S0) = Some S0.
Proof.
  induction L1 as [|i L1 IH] using rev_ind; intros L2 fuel Hh Hok HL Hnd HT Hf;
    (destruct fuel as [|f]; [lia|]); simpl.
  - pose proof (so_cols _ _ _ _ Hok h Hh) as Hring. rewrite HL in Hring.
    destruct (seg_last_hd _ _ _ _ _ _ Hring) as [_ Hu].
    change (rm_all (trace Σ []) S0) with S0. rewrite Hu. simpl.
    by rewrite decide_True.
  - rewrite trace_app in *. change (trace Σ [i]) with (others Σ i ++ []) in *.
    rewrite app_nil_r in *. rewrite rm_all_app.
    apply list.NoDup_app in Hnd as (Hnd1 & Hdisj & Hnd2).
    assert (Hi : i ∈ nodes Σ).
    { assert (i ∈ colL Σ R h) as Hi by (rewrite HL; set_solver).
      by apply colL_elem in Hi as (? & _). }
    set (T0 := rm_all (trace Σ L1) S0).
    assert (Hok0 : struct_ok Σ V (reverse (trace Σ L1) ++ R) T0).
    { apply rm_all_ok; [done..|]. intros j Hj. destruct (HT j) as (? & ? & ?); [set_solver|done]. }
    assert (Hoth : ∀ j, j ∈ others Σ i → j ∈ nodes Σ ∧ j ∉ reverse (trace Σ L1) ++ R).
    { intros j Hj. destruct (HT j) as (? & ? & ?); [set_solver|]. split; [done|].
      rewrite not_elem_of_app, elem_of_reverse. split; [|done].
      intros ?. by eapply Hdisj. }
    assert (Hok1 : struct_ok Σ V (reverse (others Σ i) ++ reverse (trace Σ L1) ++ R)
                      (rm_all (others Σ i) T0)).
    { by apply rm_all_ok. }
    pose proof (so_cols _ _ _ _ Hok1 h Hh) as Hring.
    rewrite !colL_irrelevant, HL in Hring.
    2:{ intros x Hx. apply elem_of_reverse in Hx. apply HT. set_solver. }
    2:{ intros x Hx. apply elem_of_reverse in Hx. apply HT. set_solver. }
    destruct (seg_last_hd _ _ _ _ _ _ Hring) as [_ Hu].
    rewrite Hu, last_snoc_ptr.
    rewrite decide_False by (intros ->; by apply (col_not_node Σ HΣ h)).
    rewrite (uncover_row_run i (reverse (others Σ i))).
    2:{ apply ring_rev. by eapply row_ring. }
    2:{ rewrite elem_of_reverse. by apply others_not_self. }
    2:{ rewrite length_reverse. pose proof (others_length Σ HΣ i).
        rewrite length_app in Hf. simpl in Hf. lia. }
    simpl. rewrite (ins_rm_all Σ HΣ _ V (reverse (trace Σ L1) ++ R)); [|done..].
    apply (IH (i :: L2)); try done.
    + by rewrite HL, <- app_assoc.
    + intros j Hj. apply HT. set_solver.
    + rewrite length_app in Hf. simpl in Hf. lia.
Qed.

(** What [cover h] does to a matrix whose rows are [alive]. *)
Lemma cover_facts V R h :
  alive Σ V R → h ∈ live Σ V →
  NoDup (trace Σ (colL Σ R h)) ∧
  ∀ j, j ∈ trace Σ (colL Σ R h) →
    j ∈ nodes Σ ∧ j ∉ R ∧ l_hd Σ j ≠ h ∧ l_hd Σ j ∉ V.
Proof.
  intros Hal Hh. apply live_elem in Hh as [Hh HhV]. split.
  - apply (trace_nodup Σ HΣ h); [apply (colL_nodup Σ HΣ)|].
    intros i Hi. apply colL_elem in Hi. tauto.
  - intros j Hj. apply trace_elem in Hj as (i & Hi & Hj).
    apply colL_elem in Hi as (Hi & Hih & HiR).
    pose proof (others_nodes Σ HΣ i j Hi Hj) as Hjn.
    pose proof (others_hd Σ HΣ i j Hi Hj) as Hjh.
    apply others_elem in Hj as [Hne (row & Hrow & Hir & Hjr)]; [|done..].
    destruct (Hal row Hrow) with (j := j) as [? ?]; [|done|].
    { exists i. split_and!; try done. by rewrite Hih. }
    split_and!; try done. by rewrite <- Hih.
Qed.

Lemma cover_alive V R h :
  alive Σ V R → h ∈ live Σ V →
  alive Σ (h :: V) (reverse (trace Σ (colL Σ R h)) ++ R).
Proof.
  intros Hal Hh row Hrow (i & Hir & HiV & HiR).
  apply not_elem_of_cons in HiV as [Hih HiV].
  apply not_elem_of_app in HiR as [HiT HiR]. rewrite elem_of_reverse in HiT.
  assert (Hrowal : ∀ j, j ∈ row → l_hd Σ j ∉ V ∧ j ∉ R).
  { apply Hal; [done|]. eauto. }
  assert (Hnoh : ∀ j, j ∈ row → l_hd Σ j ≠ h).
  { intros j Hj Hjh. destruct (Hrowal j Hj) as [_ HjR].
    assert (Hjn : j ∈ nodes Σ) by (eapply row_sub_nodes; eauto).
    destruct (decide (j = i)) as [->|Hne]; [done|].
    apply HiT. apply trace_elem. exists j. split; [by apply colL_elem|].
    apply others_elem; [done..|]. split; [done|]. eauto. }
  intros j Hj. destruct (Hrowal j Hj) as [HjV HjR].
  split.
  - rewrite not_elem_of_cons. split; [|done]. intros Heq. by apply (Hnoh j Hj).
  - rewrite not_elem_of_app, elem_of_reverse. split; [|done].
    intros HjT. apply trace_elem in HjT as (i' & Hi' & Hj').
    apply colL_elem in Hi' as (Hi'n & Hi'h & _).
    apply others_elem in Hj' as [_ (row' & Hrow' & Hi'r & Hjr')]; [|done..].
    assert (row' = row) as -> by (by apply (row_unique Σ HΣ row' row j)).
    by apply (Hnoh i').
Qed.

(** [cover] on a live column of a well-formed matrix. *)
Lemma cover_ok V R H h fuel :
  struct_ok Σ V R H → alive Σ V R → h ∈ live Σ V →
  (2 * length (nodes Σ) < fuel)%nat →
  let H' := rm_all (trace Σ (colL Σ R h)) (remove_lr h H) in
  cover fuel h H = Some H' ∧
  struct_ok Σ (h :: V) (reverse (trace Σ (colL Σ R h)) ++ R) H' ∧
  alive Σ (h :: V) (reverse (trace Σ (colL Σ R h)) ++ R) ∧
  uncover fuel h H' = Some H.
Proof.
  intros Hok Hal Hh Hf H'.
  destruct (cover_facts V R h Hal Hh) as [Hnd HT].
  pose proof (remove_lr_ok Σ HΣ V R H h Hok Hh) as Hok0.
  assert (Hhc : h ∈ l_cols Σ) by (by apply live_elem in Hh as [? _]).
  pose proof (colL_length Σ R h) as Hlen.
  split_and!.
  - unfold cover.
    apply (cover_rows_run h (colL Σ R h) [] R (remove_lr h H) fuel Hhc (h :: V)); try done.
    + intros j Hj. destruct (HT j Hj) as (? & ? & ? & ?). done.
    + lia.
  - apply rm_all_ok; [done..|]. intros j Hj. destruct (HT j Hj) as (? & ? & ? & ?). done.
  - by apply cover_alive.
  - unfold uncover.
    pose proof (uncover_rows_run h (h :: V) R (remove_lr h H) (colL Σ R h) [] fuel) as Hun.
    simpl in Hun. unfold H'. rewrite Hun; try done.
    + simpl. f_equal. by eapply insert_remove_lr.
    + by rewrite app_nil_r.
    + intros j Hj. destruct (HT j Hj) as (? & ? & ? & ?). done.
    + lia.
Qed.
End cover_loops.

(** * Covering the columns of a row *)

(** The covered columns, the unlinked nodes and the memory. *)
Record mstate : Type := MState {
  m_V : list ptr;
  m_R : list ptr;
  m_H : heap
}.

(** The effect of [cover h]. *)
Definition cov1 (Σ : layout) (s : mstate) (h : ptr) : mstate :=
  let T := trace Σ (colL Σ (m_R s) h) in
  MState (h :: m_V s) (reverse T ++ m_R s) (rm_all T (remove_lr h (m_H s))).

Definition covs (Σ : layout) (hs : list ptr) (s : mstate) : mstate := foldl (cov1 Σ) s hs.

Definition mstate_ok (Σ : layout) (s : mstate) : Prop :=
  struct_ok Σ (m_V s) (m_R s) (m_H s) ∧ alive Σ (m_V s) (m_R s).

Section cover_others.
Context (Σ : layout) (HΣ : layout_ok Σ).

Lemma covs_app hs1 hs2 s : covs Σ (hs1 ++ hs2) s = covs Σ hs2 (covs Σ hs1 s).
Proof. unfold covs. by rewrite foldl_app. Qed.

Lemma covs_V hs : ∀ s, m_V (covs Σ hs s) = reverse hs ++ m_V s.
Proof.
  induction hs as [|h hs IH]; intros s; [done|].
  simpl. rewrite IH. simpl. by rewrite reverse_cons, <- app_assoc.
Qed.

Lemma cov1_ok s h : mstate_ok Σ s → h ∈ live Σ (m_V s) → mstate_ok Σ (cov1 Σ s h).
Proof.
  intros [Hok Hal] Hh.
  destruct (cover_ok Σ HΣ _ _ _ h (S (2 * length (nodes Σ))) Hok Hal Hh) as (_ & ? & ? & _);
    [lia|]. by split.
Qed.

Lemma covs_ok hs : ∀ s,
  mstate_ok Σ s → NoDup hs → (∀ h, h ∈ hs → h ∈ live Σ (m_V s)) →
  mstate_ok Σ (covs Σ hs s).
Proof.
  induction hs as [|h hs IH]; intros s Hs Hnd Hhs; [done|].
  apply list.NoDup_cons in Hnd as [Hh Hnd]. simpl. apply IH; [|done|].
  - apply cov1_ok; [done|]. apply Hhs. set_solver.
  - intros h' Hh'. apply live_elem. simpl.
    assert (h' ∈ live Σ (m_V s)) as [? ?]%live_elem by (apply Hhs; set_solver).
    split; [done|]. rewrite not_elem_of_cons. split; [|done]. intros ->. done.
Qed.

(** The headers of the other nodes of the row of a linked node of a live
    column are live and distinct. *)
Lemma others_live s i :
  mstate_ok Σ s → i ∈ nodes Σ → l_hd Σ i ∉ m_V s → i ∉ m_R s →
  NoDup (l_hd Σ <$> others Σ i) ∧
  ∀ h, h ∈ l_hd Σ <$> others Σ i → h ∈ live Σ (m_V s) ∧ h ≠ l_hd Σ i.
Proof.
  intros [Hok Hal] Hi HiV HiR.
  destruct (node_row Σ i Hi) as (row & l1 & l2 & Hrow & Heq).
  pose proof (lo_row _ HΣ row Hrow) as Hnd.
  rewrite (others_spec Σ HΣ row l1 i l2) by done.
  rewrite Heq, fmap_app, fmap_cons in Hnd.
  apply list.NoDup_app in Hnd as (Hnd1 & Hdisj & Hnd2).
  apply list.NoDup_cons in Hnd2 as [Hi2 Hnd2].
  split.
  - rewrite fmap_app. apply list.NoDup_app. split_and!; try done.
    intros x Hx2 Hx1. eapply Hdisj; [done|set_solver].
  - intros h Hh. apply list_elem_of_fmap in Hh as (j & -> & Hj).
    assert (Hjr : j ∈ row) by (subst row; set_solver).
    destruct (Hal row Hrow) with (j := j) as [? ?]; [|done|].
    { exists i. subst row. set_solver. }
    split.
    + apply live_elem. split; [|done]. apply (lo_hd _ HΣ). eauto using row_sub_nodes.
    + intros Heq'. apply elem_of_app in Hj as [Hj|Hj].
      * apply Hi2. rewrite <- Heq'. by apply list_elem_of_fmap_2.
      * eapply Hdisj; [by apply list_elem_of_fmap_2|]. rewrite Heq'. set_solver.
Qed.

Lemma cover_others_run i js : ∀ l1 s fuel,
  mstate_ok Σ s → i ∈ nodes Σ →
  others Σ i = l1 ++ js →
  NoDup (l_hd Σ <$> js) →
  (∀ h, h ∈ l_hd Σ <$> js → h ∈ live Σ (m_V s)) →
  (length js + 2 * length (nodes Σ) < fuel)%nat →
  cover_other_columns_from fuel i (List.last l1 i) (m_H s)
  = Some (m_H (covs Σ (l_hd Σ <$> js) s)).
Proof.
  induction js as [|x js IH]; intros l1 s fuel Hs Hi Hoth Hnd Hlive Hf;
    (destruct fuel as [|f]; [lia|]); simpl.
  - destruct Hs as [Hok _]. pose proof (row_ring Σ HΣ _ _ _ i Hok Hi) as Hring.
    rewrite Hoth in Hring. destruct (seg_last_hd _ _ _ _ _ _ Hring) as [-> _]. simpl.
    by rewrite decide_True.
  - pose proof Hs as [Hok Hal].
    pose proof (row_ring Σ HΣ _ _ _ i Hok Hi) as Hring.
    rewrite Hoth in Hring. destruct (seg_last_hd _ _ _ _ _ _ Hring) as [-> _]. simpl.
    assert (Hx : x ∈ others Σ i) by (rewrite Hoth; set_solver).
    rewrite decide_False by (intros ->; by apply (others_not_self Σ HΣ i)).
    rewrite (so_hd _ _ _ _ Hok x) by (by eapply others_nodes).
    rewrite fmap_cons in Hnd. apply list.NoDup_cons in Hnd as [Hxh Hnd].
    assert (Hxl : l_hd Σ x ∈ live Σ (m_V s)) by (apply Hlive; set_solver).
    destruct (cover_ok Σ HΣ _ _ _ (l_hd Σ x) f Hok Hal Hxl) as (-> & ? & ? & _);
      [simpl in Hf; lia|].
    simpl.
    specialize (IH (l1 ++ [x]) (cov1 Σ s (l_hd Σ x)) f).
    rewrite last_snoc_ptr in IH. apply IH; try done.
    + by rewrite <- app_assoc.
    + intros h Hh. apply live_elem. simpl.
      assert (h ∈ live Σ (m_V s)) as [? ?]%live_elem by (apply Hlive; set_solver).
      split; [done|]. rewrite not_elem_of_cons. split; [|done]. intros ->. done.
    + simpl in Hf. lia.
Qed.

Lemma uncover_others_run i s0 l1 : ∀ l2 fuel,
  mstate_ok Σ s0 → i ∈ nodes Σ →
  others Σ i = l1 ++ l2 →
  NoDup (l_hd Σ <$> l1) →
  (∀ h, h ∈ l_hd Σ <$> l1 → h ∈ live Σ (m_V s0)) →
  (length l1 + 2 * length (nodes Σ) < fuel)%nat →
  uncover_other_columns_from fuel i (hd i l2) (m_H (covs Σ (l_hd Σ <$> l1) s0))
  = Some (m_H s0).
Proof.
  induction l1 as [|x l1 IH] using rev_ind; intros l2 fuel Hs Hi Hoth Hnd Hlive Hf;
    (destruct fuel as [|f]; [lia|]); simpl.
  - destruct Hs as [Hok _]. pose proof (row_ring Σ HΣ _ _ _ i Hok Hi) as Hring.
    rewrite Hoth in Hring. destruct (seg_last_hd _ _ _ _ _ _ Hring) as [_ ->]. simpl.
    by rewrite decide_True.
  - rewrite fmap_app in Hnd, Hlive |- *. rewrite covs_app.
    change (l_hd Σ <$> [x]) with [l_hd Σ x] in *.
    change (covs Σ [l_hd Σ x] (covs Σ (l_hd Σ <$> l1) s0))
      with (cov1 Σ (covs Σ (l_hd Σ <$> l1) s0) (l_hd Σ x)).
    apply list.NoDup_app in Hnd as (Hnd1 & Hdisj & _).
    set (s1 := covs Σ (l_hd Σ <$> l1) s0).
    assert (Hs1 : mstate_ok Σ s1).
    { apply covs_ok; [done..|]. intros h Hh. apply Hlive. set_solver. }
    assert (Hxl : l_hd Σ x ∈ live Σ (m_V s1)).
    { apply live_elem. unfold s1. rewrite covs_V.
      assert (l_hd Σ x ∈ live Σ (m_V s0)) as [? ?]%live_elem by (apply Hlive; set_solver).
      split; [done|]. rewrite not_elem_of_app, elem_of_reverse. split; [|done].
      intros ?. eapply Hdisj; [done|set_solver]. }
    pose proof Hs1 as [Hok1 Hal1].
    rewrite length_app in Hf. simpl in Hf.
    destruct (cover_ok Σ HΣ _ _ _ (l_hd Σ x) f Hok1 Hal1 Hxl) as (_ & Hok2 & _ & Hun);
      [lia|].
    pose proof (row_ring Σ HΣ _ _ _ i Hok2 Hi) as Hring.
    rewrite Hoth in Hring. destruct (seg_last_hd _ _ _ _ _ _ Hring) as [_ Hl].
    simpl (m_H (cov1 _ _ _)). rewrite Hl, last_snoc_ptr.
    assert (Hx : x ∈ others Σ i) by (rewrite Hoth; set_solver).
    rewrite decide_False by (intros ->; by apply (others_not_self Σ HΣ i)).
    rewrite (so_hd _ _ _ _ Hok2 x) by (by eapply others_nodes).
    rewrite Hun. simpl.
    apply (IH (x :: l2)); try done.
    + by rewrite Hoth, <- app_assoc.
    + intros h Hh. apply Hlive. set_solver.
    + lia.
Qed.

(** The state after [cover_other_columns(i)]. *)
Definition cov_row (s : mstate) (i : ptr) : mstate := covs Σ (l_hd Σ <$> others Σ i) s.

Lemma cover_other_columns_ok s i fuel :
  mstate_ok Σ s → i ∈ nodes Σ →
  NoDup (l_hd Σ <$> others Σ i) →
  (∀ h, h ∈ l_hd Σ <$> others Σ i → h ∈ live Σ (m_V s)) →
  (3 * length (nodes Σ) < fuel)%nat →
  cover_other_columns fuel i (m_H s) = Some (m_H (cov_row s i)) ∧
  mstate_ok Σ (cov_row s i) ∧
  uncover_other_columns fuel i (m_H (cov_row s i)) = Some (m_H s).
Proof.
  intros Hs Hi Hnd Hlive Hf.
  pose proof (others_length Σ HΣ i) as Hlen.
  split_and!.
  - apply (cover_others_run i (others Σ i) [] s fuel); try done. lia.
  - by apply covs_ok.
  - pose proof (uncover_others_run i s (others Σ i) [] fuel) as Hun.
    simpl in Hun. apply Hun; try done.
    + by rewrite app_nil_r.
    + lia.
Qed.

(** The columns of the rows of a column that has just been covered. *)
Lemma others_live_cov1 s h i :
  mstate_ok Σ s → h ∈ live Σ (m_V s) → i ∈ colL Σ (m_R s) h →
  NoDup (l_hd Σ <$> others Σ i) ∧
  ∀ c, c ∈ l_hd Σ <$> others Σ i → c ∈ live Σ (m_V (cov1 Σ s h)).
Proof.
  intros Hs Hh Hi. apply colL_elem in Hi as (Hi & Hih & HiR).
  apply live_elem in Hh as [Hh HhV].
  destruct (others_live s i Hs Hi) as [Hnd Hlive]; [by rewrite Hih|done|].
  split; [done|]. intros c Hc. destruct (Hlive c Hc) as [[? ?]%live_elem Hne].
  apply live_elem. simpl. split; [done|]. rewrite not_elem_of_cons. split; [congruence|done].
Qed.
End cover_others.

(** * The search *)

(** The columns of the row of node [i]. *)
Definition row_cols (Σ : layout) (i : ptr) : list ptr := l_hd Σ <$> (i :: others Σ i).

(** The rows [path] cover the live columns of [V], each exactly once. *)
Definition path_ok (Σ : layout) (V : list ptr) (path : list ptr) : Prop :=
  Forall (λ i, i ∈ nodes Σ) path ∧ mjoin (row_cols Σ <$> path) ≡ₚ live Σ V.

(** [solution[k ..]] holds the rows [path]. *)
Definition recorded (sol : list dlx_srow) (k : nat) (path : list ptr) : Prop :=
  ∀ t i, path !! t = Some i → row_node <$> (sol !! (k + t)%nat) = Some i.

Section search.
Context (Σ : layout) (HΣ : layout_ok Σ).
Context (Hcols : Z.of_nat (length (l_cols Σ)) < 2 ^ 64).

Lemma hnode_min_count_from_run H l2 : ∀ l1 V min fuel,
  ring (rt H) (lf H) Root (live Σ V) →
  live Σ V = l1 ++ l2 → (length l2 < fuel)%nat →
  ∃ m, hnode_min_count_from fuel Root (List.last l1 Root) min H = Some m ∧
       (m = min ∨ m ∈ l2).
Proof.
  induction l2 as [|x l2 IH]; intros l1 V min fuel Hring Hl Hf;
    (destruct fuel as [|f]; [simpl in Hf; lia|]); simpl.
  - rewrite Hl in Hring. destruct (seg_last_hd _ _ _ _ _ _ Hring) as [-> _]. simpl.
    eauto.
  - pose proof Hring as Hring'.
    rewrite Hl in Hring. destruct (seg_last_hd _ _ _ _ _ _ Hring) as [-> _]. simpl.
    assert (x ≠ Root).
    { intros ->. apply (root_not_col Σ HΣ).
      assert (Root ∈ live Σ V) as [? _]%live_elem by (rewrite Hl; set_solver). done. }
    rewrite decide_False by done.
    assert (Hl' : live Σ V = (l1 ++ [x]) ++ l2) by (by rewrite <- app_assoc).
    simpl in Hf.
    destruct (decide (min = Null)).
    + destruct (IH (l1 ++ [x]) V x f Hring' Hl') as (m & Hm & Hor); [lia|].
      rewrite last_snoc_ptr in Hm. exists m. split; [done|]. set_solver.
    + destruct (bool_decide (cnt H x < cnt H min)).
      * destruct (IH (l1 ++ [x]) V x f Hring' Hl') as (m & Hm & Hor); [lia|].
        rewrite last_snoc_ptr in Hm. exists m. split; [done|]. set_solver.
      * destruct (IH (l1 ++ [x]) V min f Hring' Hl') as (m & Hm & Hor); [lia|].
        rewrite last_snoc_ptr in Hm. exists m. split; [done|]. set_solver.
Qed.

Lemma hnode_min_count_ok s fuel :
  mstate_ok Σ s → live Σ (m_V s) ≠ [] →
  (length (live Σ (m_V s)) < fuel)%nat →
  ∃ h, hnode_min_count fuel Root (m_H s) = Some h ∧ h ∈ live Σ (m_V s).
Proof.
  intros [Hok _] Hne Hf. pose proof (so_hdrs _ _ _ _ Hok) as Hring.
  destruct (live Σ (m_V s)) as [|x l] eqn:Hl; [done|].
  destruct fuel as [|f]; [simpl in Hf; lia|].
  unfold hnode_min_count. simpl.
  destruct Hring as (Hx & _ & _). rewrite Hx.
  assert (x ≠ Root).
  { intros ->. apply (root_not_col Σ HΣ).
    assert (Root ∈ live Σ (m_V s)) as [? _]%live_elem by (rewrite Hl; set_solver). done. }
  rewrite decide_False by done.
  pose proof (so_hdrs _ _ _ _ Hok) as Hring.
  destruct (hnode_min_count_from_run (m_H s) l [x] (m_V s) x f Hring) as (m & Hm & Hor);
    [done|simpl in Hf; lia|].
  exists m. split; [done|]. set_solver.
Qed.

Lemma live_nil_iff s :
  mstate_ok Σ s → (rt (m_H s) Root = Root ↔ live Σ (m_V s) = []).
Proof.
  intros [Hok _]. pose proof (so_hdrs _ _ _ _ Hok) as Hring.
  destruct (live Σ (m_V s)) as [|x l] eqn:Hl.
  - destruct Hring as [? _]. done.
  - destruct Hring as (Hx & _ & _). split; [|done]. rewrite Hx. intros ->.
    exfalso. apply (root_not_col Σ HΣ).
    assert (Root ∈ live Σ (m_V s)) as [? _]%live_elem by (rewrite Hl; set_solver). done.
Qed.

(** Covering the columns [X] removes exactly [X] from the live columns. *)
Lemma live_split V X X' :
  NoDup X → (∀ x, x ∈ X → x ∈ live Σ V) → (∀ x, x ∈ X' ↔ x ∈ X) →
  X ++ live Σ (X' ++ V) ≡ₚ live Σ V.
Proof.
  intros Hnd HX HX'. apply NoDup_Permutation.
  - apply list.NoDup_app. split_and!; [done| |apply (live_nodup Σ HΣ)].
    intros x Hx [_ Hx']%live_elem. apply Hx'. rewrite elem_of_app, HX'. auto.
  - apply (live_nodup Σ HΣ).
  - intros x. rewrite elem_of_app, !live_elem, not_elem_of_app, HX'. split.
    + intros [Hx|?]; [|tauto]. by apply live_elem, HX.
    + intros [? ?]. destruct (decide (x ∈ X)); tauto.
Qed.

Lemma live_length_cons V h :
  h ∈ live Σ V → (length (live Σ (h :: V)) < length (live Σ V))%nat.
Proof.
  intros Hh. rewrite live_cons. apply (length_filter_lt _ _ h); [done|]. by intros ?.
Qed.

Lemma live_length_app V X : (length (live Σ (X ++ V)) ≤ length (live Σ V))%nat.
Proof.
  induction X as [|x X IH]; [done|]. simpl. rewrite live_cons.
  etrans; [apply length_filter|done].
Qed.

(** What a call at depth [kn] returns, with [s] the matrix at the call. *)
Definition search_post (s : mstate) (kn : nat) (st : sstate) (r : Z * sstate) : Prop :=
  mem r.2 = m_H s ∧ length (sol r.2) = length (sol st) ∧
  (r.1 = 0 ∨ ∃ path, r.1 = Z.of_nat (kn + length path) ∧
                     recorded (sol r.2) kn path ∧ path_ok Σ (m_V s) path).

(** What the row loop at depth [kn] holds, with [s1] the matrix after
    the cover of the chosen column, whose linked nodes are [L]. *)
Definition loop_inv (s1 : mstate) (L : list ptr) (kn : nat) (n : Z) (sl : list dlx_srow) : Prop :=
  n = 0 ∨ ∃ i path, i ∈ L ∧ n = Z.of_nat (kn + 1 + length path) ∧
                    row_node <$> (sl !! kn) = Some i ∧
                    recorded sl (kn + 1) path ∧
                    path_ok Σ (m_V (cov_row Σ s1 i)) path.

Lemma store_row_node_Some kn i sl :
  (kn < length sl)%nat →
  ∃ sl', store_row_node (Z.of_nat kn) i sl = Some sl' ∧ length sl' = length sl ∧
         row_node <$> (sl' !! kn) = Some i ∧
         ∀ t, t ≠ kn → sl' !! t = sl !! t.
Proof.
  intros Hk. unfold store_row_node. rewrite Nat2Z.id.
  rewrite bool_decide_true by done. eexists. split; [done|].
  rewrite length_insert. split; [done|]. split.
  - by rewrite list_lookup_insert_eq.
  - intros t Ht. by rewrite list_lookup_insert_ne.
Qed.

Lemma store_choice_Some kn c z sl :
  (kn < length sl)%nat →
  ∃ sl', store_choice (Z.of_nat kn) c z sl = Some sl' ∧ length sl' = length sl.
Proof.
  intros Hk. unfold store_choice. rewrite Nat2Z.id.
  rewrite bool_decide_true by done. eexists. split; [done|].
  by rewrite length_insert.
Qed.

Lemma search_rows_ok f s col kn len0 :
  mstate_ok Σ s → col ∈ live Σ (m_V s) →
  (kn + length (live Σ (m_V s)) ≤ length (l_cols Σ))%nat →
  (length (l_cols Σ) ≤ len0)%nat →
  (length (live Σ (m_V s)) + 3 * length (nodes Σ) + 1 ≤ f)%nat →
  (∀ s' kn' st', mstate_ok Σ s' → mem st' = m_H s' →
     (kn' + length (live Σ (m_V s')) ≤ length (l_cols Σ))%nat →
     (length (l_cols Σ) ≤ length (sol st'))%nat →
     (length (live Σ (m_V s')) + 3 * length (nodes Σ) + 2 ≤ f)%nat →
     ∃ r, dlx_exact_cover f Root (Z.of_nat kn') st' = Some r ∧ search_post s' kn' st' r) →
  let s1 := cov1 Σ s col in
  let L := colL Σ (m_R s) col in
  ∀ L2 L1 g n sl p,
    L = L1 ++ L2 → length sl = len0 → (length L2 < g)%nat →
    loop_inv s1 L kn n sl →
    ∃ r, search_rows (dlx_exact_cover f Root) g f col (List.last L1 col)
           (Z.of_nat kn) n (SState sl p (m_H s1)) = Some r ∧
         mem r.2 = m_H s1 ∧ length (sol r.2) = len0 ∧
         loop_inv s1 L kn r.1 (sol r.2).
Proof.
  intros Hs Hcol Hkn Hlen Hf IH s1 L.
  pose proof Hs as [Hok Hal].
  assert (Hcolc : col ∈ l_cols Σ) by (by apply live_elem in Hcol as [? _]).
  destruct (cover_ok Σ HΣ _ _ _ col (S (2 * length (nodes Σ))) Hok Hal Hcol)
    as (_ & Hok1 & Hal1 & _); [lia|].
  assert (Hs1 : mstate_ok Σ s1) by (by split).
  destruct (cover_facts Σ HΣ _ _ col Hal Hcol) as [_ HT].
  assert (HL1 : colL Σ (m_R s1) col = L).
  { unfold s1. simpl. apply colL_irrelevant. intros x Hx.
    rewrite elem_of_reverse in Hx. by destruct (HT x Hx) as (_ & _ & ? & _). }
  pose proof (live_length_cons _ _ Hcol) as Hlt.
  assert (HV1 : m_V s1 = col :: m_V s) by done.
  assert (Hoth : ∀ i, i ∈ L → i ∈ nodes Σ ∧ NoDup (l_hd Σ <$> others Σ i) ∧
                 ∀ c, c ∈ l_hd Σ <$> others Σ i → c ∈ live Σ (m_V s1)).
  { intros i HiL. destruct (others_live_cov1 Σ HΣ s col i Hs Hcol HiL) as [? ?].
    split_and!; try done. by apply colL_elem in HiL as (? & _). }
  pose proof (so_cols _ _ _ _ (proj1 Hs1) col Hcolc) as Hring. rewrite HL1 in Hring.
  clear Hok1 Hal1 HT HL1. clearbody s1 L.
  induction L2 as [|i L2 IHL]; intros L1 g n sl p HL Hsl Hg Hinv;
    (destruct g as [|g]; [simpl in Hg; lia|]); simpl.
  - rewrite HL in Hring.
    destruct (seg_last_hd _ _ _ _ _ _ Hring) as [-> _]. simpl.
    rewrite decide_True by done. eexists. split; [done|]. simpl. done.
  - pose proof Hring as Hring'. rewrite HL in Hring'.
    destruct (seg_last_hd _ _ _ _ _ _ Hring') as [-> _]. simpl.
    assert (HiL : i ∈ L) by (rewrite HL; set_solver).
    destruct (Hoth i HiL) as (Hi & Hnd & Hlive).
    rewrite decide_False by (intros ->; by apply (col_not_node Σ HΣ col)).
    destruct (cover_other_columns_ok Σ HΣ s1 i f Hs1 Hi Hnd Hlive) as (Hcov & Hs2 & Hunc);
      [lia|].
    rewrite Hcov. simpl.
    assert (Hlive2 : (length (live Σ (m_V (cov_row Σ s1 i))) ≤ length (live Σ (col :: m_V s)))%nat).
    { unfold cov_row. rewrite covs_V, HV1. apply live_length_app. }
    assert (Hwrap : wrap (Z.of_nat kn + 1) = Z.of_nat (kn + 1)).
    { rewrite wrap_small; lia. }
    rewrite Hwrap.
    destruct (IH (cov_row Σ s1 i) (kn + 1)%nat (SState sl p (m_H (cov_row Σ s1 i))))
      as ([n' st'] & Hrec & Hmem' & Hlen' & Hpost); simpl; try done; try lia.
    rewrite Hrec. simpl in *. rewrite Hmem', Hunc. simpl.
    assert (Hkl : (kn < length (sol st'))%nat) by lia.
    assert (∃ sl2, (if bool_decide (n' > 0) then store_row_node (Z.of_nat kn) i (sol st')
                    else Some (sol st')) = Some sl2 ∧
                   length sl2 = len0 ∧ loop_inv s1 L kn n' sl2) as (sl2 & -> & Hlen2 & Hinv2).
    { destruct Hpost as [->|(path & -> & Hrecd & Hpath)].
      - rewrite bool_decide_false by lia. eexists. split; [done|].
        split; [lia|]. by left.
      - rewrite bool_decide_true by lia.
        destruct (store_row_node_Some kn i (sol st') Hkl) as (sl2 & -> & ? & Hk & Hother).
        eexists. split; [done|]. split; [lia|]. right. exists i, path.
        split_and!; try done.
        intros t j Ht. rewrite Hother by lia. by apply Hrecd. }
    simpl.
    destruct (bool_decide (pnsol st' = 0)).
    + eexists. split; [done|]. simpl. done.
    + specialize (IHL (L1 ++ [i]) g n' sl2 (pnsol st')).
      rewrite last_snoc_ptr in IHL. apply IHL; try done.
      * by rewrite <- app_assoc.
      * simpl in Hg. lia.
Qed.

Lemma recorded_cons sl kn i path :
  row_node <$> (sl !! kn) = Some i → recorded sl (kn + 1) path →
  recorded sl kn (i :: path).
Proof.
  intros Hi Hp [|t] j Ht; simpl in *.
  - simplify_eq. by rewrite Nat.add_0_r.
  - replace (kn + S t)%nat with (kn + 1 + t)%nat by lia. by apply Hp.
Qed.

Lemma path_ok_cons s col i path :
  mstate_ok Σ s → col ∈ live Σ (m_V s) → i ∈ colL Σ (m_R s) col →
  path_ok Σ (m_V (cov_row Σ (cov1 Σ s col) i)) path →
  path_ok Σ (m_V s) (i :: path).
Proof.
  intros Hs Hcol HiL [Hall Hperm].
  pose proof HiL as (Hi & Hih & HiR)%colL_elem.
  pose proof Hcol as [Hcolc HcolV]%live_elem.
  destruct (others_live Σ HΣ s i Hs Hi) as [Hnd Hlive]; [by rewrite Hih|done|].
  split; [by constructor|].
  rewrite fmap_cons. simpl. rewrite Hperm.
  unfold cov_row. rewrite covs_V. simpl.
  replace (reverse (l_hd Σ <$> others Σ i) ++ col :: m_V s)
    with ((reverse (l_hd Σ <$> others Σ i) ++ [col]) ++ m_V s)
    by (by rewrite <- app_assoc).
  unfold row_cols. rewrite Hih.
  apply (live_split (m_V s) (col :: (l_hd Σ <$> others Σ i))).
  - apply list.NoDup_cons. split; [|done].
    intros Hin. destruct (Hlive col Hin) as [_ Hne]. by rewrite Hih in Hne.
  - intros x [->|Hx]%elem_of_cons; [done|]. by apply Hlive.
  - intros x. rewrite elem_of_app, elem_of_reverse, list_elem_of_singleton, elem_of_cons.
    tauto.
Qed.

(** Total correctness of the search at any depth: it returns, the
    matrix is as it was, and a non-zero result comes with the rows of an
    exact cover of the live columns in [solution[kn ..]]. *)
Lemma search_ok : ∀ fuel s kn st,
  mstate_ok Σ s → mem st = m_H s →
  (kn + length (live Σ (m_V s)) ≤ length (l_cols Σ))%nat →
  (length (l_cols Σ) ≤ length (sol st))%nat →
  (length (live Σ (m_V s)) + 3 * length (nodes Σ) + 2 ≤ fuel)%nat →
  ∃ r, dlx_exact_cover fuel Root (Z.of_nat kn) st = Some r ∧ search_post s kn st r.
Proof.
  induction fuel as [|f IH]; intros s kn st Hs Hmem Hkn Hlen Hf; [lia|].
  simpl. rewrite Hmem.
  destruct (decide (rt (m_H s) Root = Root)) as [Hleaf|Hnonleaf].
  - apply (live_nil_iff s Hs) in Hleaf.
    eexists. split; [done|]. split; [done|]. split; [done|].
    right. exists []. split_and!.
    + simpl. lia.
    + intros t i Ht. done.
    + split; [constructor|]. by rewrite Hleaf.
  - assert (Hne : live Σ (m_V s) ≠ []) by (by rewrite <- (live_nil_iff s Hs)).
    destruct (hnode_min_count_ok s f Hs Hne) as (col & -> & Hcol); [lia|]. simpl.
    pose proof Hs as [Hok Hal].
    destruct (cover_ok Σ HΣ _ _ _ col f Hok Hal Hcol) as (-> & Hok1 & Hal1 & Hunc); [lia|].
    simpl.
    assert (Hpos : (0 < length (live Σ (m_V s)))%nat).
    { destruct (live Σ (m_V s)); [done|simpl; lia]. }
    destruct (store_choice_Some kn
                (cid (rm_all (trace Σ (colL Σ (m_R s) col)) (remove_lr col (m_H s))) col)
                (cnt (rm_all (trace Σ (colL Σ (m_R s) col)) (remove_lr col (m_H s))) col)
                (sol st)) as (sl1 & -> & Hlen1); [lia|].
    simpl.
    pose proof (colL_length Σ (m_R s) col) as HLlen.
    destruct (search_rows_ok f s col kn (length (sol st)) Hs Hcol Hkn Hlen) with
      (L2 := colL Σ (m_R s) col) (L1 := @nil ptr) (g := f) (n := 0) (sl := sl1) (p := pnsol st)
      as ([n st2] & Hloop & Hmem2 & Hlen2 & Hinv); try done; try lia.
    { by left. }
    simpl in Hloop. rewrite Hloop. simpl in *. rewrite Hmem2, Hunc. simpl.
    eexists. split; [done|]. split; [done|]. split; [done|]. simpl.
    destruct Hinv as [->|(i & path & HiL & -> & Hk & Hrecd & Hpath)]; [by left|].
    right. exists (i :: path). split_and!.
    + simpl. lia.
    + by apply recorded_cons.
    + by eapply path_ok_cons.
Qed.
End search.

(** * Building a matrix *)

(** The layout of the matrix that [build ncols rows] makes: headers
    [Hd 0 .. Hd (ncols - 1)], and the nodes of the rows one after the
    other in [Nd 0, Nd 1, ...]. *)
Fixpoint lay_rows (off : nat) (rows : list (list nat)) : list (list ptr) :=
  match rows with
  | [] => []
  | cs :: rest => (Nd <$> seq off (length cs)) :: lay_rows (off + length cs) rest
  end.

Definition lay_hd (flat : list nat) (p : ptr) : ptr :=
  match p with
  | Nd k => Hd (flat !!! k)
  | _ => Null
  end.

Definition lay (ncols : nat) (rows : list (list nat)) : layout :=
  Layout (Hd <$> seq 0 ncols) (lay_rows 0 rows) (lay_hd (mjoin rows)).

(** An exact-cover instance: every row names distinct columns below
    [ncols], and the sizes fit a [size_t]. *)
Record inst_ok (ncols : nat) (rows : list (list nat)) : Prop := {
  io_nodup : ∀ cs, cs ∈ rows → NoDup cs;
  io_bound : ∀ cs c, cs ∈ rows → c ∈ cs → (c < ncols)%nat;
  io_size : Z.of_nat (length (mjoin rows)) + 1 < 2 ^ 64;
  io_cols : Z.of_nat ncols < 2 ^ 64
}.

Lemma wr_alloc p c (H : heap) : is_Some (wr p c H !! p).
Proof. unfold wr. rewrite lookup_insert_eq. eauto. Qed.

(** A store to a cell that was just written as a whole. *)
Lemma set_left_wr p v c H : set_left p v (wr p c H) = wr p (with_left v c) H.
Proof. unfold set_left. rewrite rd_wr, decide_True by done. apply wr_wr. Qed.
Lemma set_right_wr p v c H : set_right p v (wr p c H) = wr p (with_right v c) H.
Proof. unfold set_right. rewrite rd_wr, decide_True by done. apply wr_wr. Qed.
Lemma set_up_wr p v c H : set_up p v (wr p c H) = wr p (with_up v c) H.
Proof. unfold set_up. rewrite rd_wr, decide_True by done. apply wr_wr. Qed.
Lemma set_down_wr p v c H : set_down p v (wr p c H) = wr p (with_down v c) H.
Proof. unfold set_down. rewrite rd_wr, decide_True by done. apply wr_wr. Qed.
Lemma set_header_wr p v c H : set_header p v (wr p c H) = wr p (with_header v c) H.
Proof. unfold set_header. rewrite rd_wr, decide_True by done. apply wr_wr. Qed.
Lemma set_count_wr p z c H : set_count p z (wr p c H) = wr p (with_count z c) H.
Proof. unfold set_count. rewrite rd_wr, decide_True by done. apply wr_wr. Qed.
Lemma set_row_id_wr p v c H : set_row_id p v (wr p c H) = wr p (with_row_id v c) H.
Proof. unfold set_row_id. rewrite rd_wr, decide_True by done. apply wr_wr. Qed.

Section init_fields.
Context (H : heap) (hi l r row q : ptr).

Lemma lf_init_header : lf (init_header hi l r H) q = if decide (q = hi) then l else lf H q.
Proof. unfold init_header. by heap_rw. Qed.
Lemma rt_init_header : rt (init_header hi l r H) q = if decide (q = hi) then r else rt H q.
Proof. unfold init_header. by heap_rw. Qed.
Lemma upp_init_header : upp (init_header hi l r H) q = if decide (q = hi) then hi else upp H q.
Proof. unfold init_header. by heap_rw. Qed.
Lemma dn_init_header : dn (init_header hi l r H) q = if decide (q = hi) then hi else dn H q.
Proof. unfold init_header. by heap_rw. Qed.
Lemma hdr_init_header : hdr (init_header hi l r H) q = if decide (q = hi) then hi else hdr H q.
Proof. unfold init_header. by heap_rw. Qed.
Lemma cnt_init_header : cnt (init_header hi l r H) q = if decide (q = hi) then 1 else cnt H q.
Proof. unfold init_header. by heap_rw. Qed.
Lemma rid_init_header : rid (init_header hi l r H) q = rid H q.
Proof. unfold init_header. by heap_rw. Qed.
Lemma cid_init_header : cid (init_header hi l r H) q = cid H q.
Proof. unfold init_header. by heap_rw. Qed.

Lemma lf_init_root : lf (init_root hi l r H) q = if decide (q = hi) then l else lf H q.
Proof. unfold init_root. by heap_rw. Qed.
Lemma rt_init_root : rt (init_root hi l r H) q = if decide (q = hi) then r else rt H q.
Proof. unfold init_root. by heap_rw. Qed.
Lemma upp_init_root : upp (init_root hi l r H) q = if decide (q = hi) then Null else upp H q.
Proof. unfold init_root. by heap_rw. Qed.
Lemma dn_init_root : dn (init_root hi l r H) q = if decide (q = hi) then Null else dn H q.
Proof. unfold init_root. by heap_rw. Qed.
Lemma hdr_init_root : hdr (init_root hi l r H) q = if decide (q = hi) then Null else hdr H q.
Proof. unfold init_root. by heap_rw. Qed.
Lemma cnt_init_root : cnt (init_root hi l r H) q = if decide (q = hi) then 1 else cnt H q.
Proof. unfold init_root. by heap_rw. Qed.

Lemma lf_init_node : lf (init_node hi l r row H) q = if decide (q = hi) then l else lf H q.
Proof. unfold init_node. by heap_rw. Qed.
Lemma rt_init_node : rt (init_node hi l r row H) q = if decide (q = hi) then r else rt H q.
Proof. unfold init_node. by heap_rw. Qed.
Lemma rid_init_node : rid (init_node hi l r row H) q = if decide (q = hi) then row else rid H q.
Proof. unfold init_node. by heap_rw. Qed.
Lemma upp_init_node : upp (init_node hi l r row H) q = upp H q.
Proof. unfold init_node. by heap_rw. Qed.
Lemma dn_init_node : dn (init_node hi l r row H) q = dn H q.
Proof. unfold init_node. by heap_rw. Qed.
Lemma hdr_init_node : hdr (init_node hi l r row H) q = hdr H q.
Proof. unfold init_node. by heap_rw. Qed.
Lemma cnt_init_node : cnt (init_node hi l r row H) q = cnt H q.
Proof. unfold init_node. by heap_rw. Qed.

Lemma init_header_alloc : is_Some (H !! q) ∨ q = hi → is_Some (init_header hi l r H !! q).
Proof.
  intros Hq. unfold init_header, set_count, set_header, set_down, set_up, set_right, set_left.
  destruct Hq as [Hq | ->]; [by repeat apply wr_is_Some|by apply wr_alloc].
Qed.
Lemma init_root_alloc : is_Some (H !! q) ∨ q = hi → is_Some (init_root hi l r H !! q).
Proof.
  intros Hq. unfold init_root, set_count, set_header, set_down, set_up, set_right, set_left.
  destruct Hq as [Hq | ->]; [by repeat apply wr_is_Some|by apply wr_alloc].
Qed.
Lemma init_node_alloc : is_Some (H !! q) ∨ q = hi → is_Some (init_node hi l r row H !! q).
Proof.
  intros Hq. unfold init_node, set_row_id, set_right, set_left.
  destruct Hq as [Hq | ->]; [by repeat apply wr_is_Some|by apply wr_alloc].
Qed.
End init_fields.

Section append_fields.
Context (H : heap) (x c q : ptr) (Hxc : x ≠ c).

Lemma lf_append : lf (append_node_to_column x c H) q = lf H q.
Proof. unfold append_node_to_column, incr_count, insert_ud. by heap_rw. Qed.
Lemma rt_append : rt (append_node_to_column x c H) q = rt H q.
Proof. unfold append_node_to_column, incr_count, insert_ud. by heap_rw. Qed.
Lemma rid_append : rid (append_node_to_column x c H) q = rid H q.
Proof. unfold append_node_to_column, incr_count, insert_ud. by heap_rw. Qed.
Lemma hdr_append :
  hdr (append_node_to_column x c H) q = if decide (q = x) then c else hdr H q.
Proof. unfold append_node_to_column, incr_count, insert_ud. by heap_rw. Qed.
Lemma cnt_append :
  cnt (append_node_to_column x c H) q = if decide (q = c) then wrap (cnt H c + 1) else cnt H q.
Proof. unfold append_node_to_column, incr_count, insert_ud. by heap_rw. Qed.
Lemma upp_append :
  upp (append_node_to_column x c H) q =
  if decide (q = c) then x else if decide (q = x) then upp H c else upp H q.
Proof.
  unfold append_node_to_column, incr_count, insert_ud. heap_rw.
  rewrite (decide_True (P := x = x)) by done. done.
Qed.
Lemma dn_append :
  upp H c ≠ x →
  dn (append_node_to_column x c H) q =
  if decide (q = upp H c) then x else if decide (q = x) then c else dn H q.
Proof.
  intros Hne.
  unfold append_node_to_column, incr_count, insert_ud. heap_rw.
  rewrite (decide_True (P := x = x)) by done.
  rewrite (decide_False (P := x = c)) by done.
  rewrite (decide_True (P := x = x)) by done. done.
Qed.
Lemma append_alloc :
  is_Some (H !! q) ∨ q = x → is_Some (append_node_to_column x c H !! q).
Proof.
  intros Hq. unfold append_node_to_column, incr_count, insert_ud.
  unfold set_count, set_header, set_down, set_up. cbv zeta.
  destruct Hq as [Hq | ->]; [by repeat apply wr_is_Some|].
  do 5 apply wr_is_Some. by apply wr_alloc.
Qed.
End append_fields.

(** The stores of one initialisation, as one store of a whole cell. *)
Lemma init_header_eq hi l r H :
  init_header hi l r H = wr hi (Cell (rid H hi) l r hi hi hi 1 (cid H hi)) H.
Proof.
  unfold init_header. cbv zeta. unfold set_left at 1.
  by rewrite set_right_wr, set_up_wr, set_down_wr, set_header_wr, set_count_wr.
Qed.

Lemma init_root_eq hi l r H :
  init_root hi l r H = wr hi (Cell (rid H hi) l r Null Null Null 1 (cid H hi)) H.
Proof.
  unfold init_root. cbv zeta. unfold set_left at 1.
  by rewrite set_right_wr, set_up_wr, set_down_wr, set_header_wr, set_count_wr.
Qed.

Lemma init_node_eq ni l r row H :
  init_node ni l r row H =
  wr ni (Cell row l r (upp H ni) (dn H ni) (hdr H ni) (cnt H ni) (cid H ni)) H.
Proof.
  unfold init_node. cbv zeta. unfold set_left at 1.
  by rewrite set_right_wr, set_row_id_wr.
Qed.

(** A segment through consecutive cells [mk a, mk (a+1), ...], from
    what each of them holds. *)
Lemma seg_of_cells (mk : nat → ptr) (nx pv : ptr → ptr) len : ∀ a prev b,
  (∀ c, (a ≤ c < a + len)%nat →
        nx (mk c) = (if decide (c + 1 = a + len)%nat then b else mk (c + 1)%nat) ∧
        pv (mk c) = (if decide (c = a) then prev else mk (c - 1)%nat)) →
  nx prev = (if decide (len = 0)%nat then b else mk a) →
  pv b = (if decide (len = 0)%nat then prev else mk (a + len - 1)%nat) →
  seg nx pv prev (mk <$> seq a len) b.
Proof.
  induction len as [|len IH]; intros a prev b Hc Hp Hb; simpl.
  - rewrite decide_True in Hp, Hb by done. done.
  - rewrite decide_False in Hp, Hb by done.
    destruct (Hc a) as [Hna Hpa]; [lia|]. rewrite decide_True in Hpa by done.
    split_and!; try done. apply IH.
    + intros c Hcr. destruct (Hc c) as [Hn' Hp']; [lia|]. split.
      * rewrite Hn'. destruct (decide (c + 1 = a + S len)%nat);
          [by rewrite decide_True by lia|by rewrite decide_False by lia].
      * rewrite Hp'. rewrite decide_False by lia.
        destruct (decide (c = S a)) as [->|?]; [|done].
        f_equal. lia.
    + rewrite Hna. destruct (decide (len = 0)%nat) as [->|?].
      * rewrite decide_True by lia. done.
      * rewrite decide_False by lia. f_equal. lia.
    + rewrite Hb. destruct (decide (len = 0)%nat) as [->|?].
      * f_equal. lia.
      * f_equal. lia.
Qed.

(** The cell of header [c] of [n] after [dlx_make_header_row]. *)
Definition hcell (n c : nat) : cell :=
  Cell Null
       (if decide (c = 0)%nat then Root else Hd (c - 1))
       (if decide (c + 1 = n)%nat then Root else Hd (c + 1))
       (Hd c) (Hd c) (Hd c) 1 Null.

Definition rootcell (n : nat) : cell :=
  Cell Null
       (if decide (n = 0)%nat then Root else Hd (n - 1))
       (if decide (n = 0)%nat then Root else Hd 0)
       Null Null Null 1 Null.

Lemma lookup_wr p c (H : heap) q :
  wr p c H !! q = if decide (q = p) then Some c else H !! q.
Proof.
  unfold wr. destruct (decide (q = p)) as [->|?].
  - by rewrite lookup_insert_eq.
  - by rewrite lookup_insert_ne.
Qed.

Lemma rid_wr p c H q : rid (wr p c H) q = if decide (q = p) then row_id c else rid H q.
Proof. unfold rid. rewrite rd_wr. by case_decide. Qed.

Lemma cid_wr p c H q : cid (wr p c H) q = if decide (q = p) then id c else cid H q.
Proof. unfold cid. rewrite rd_wr. by case_decide. Qed.

Lemma rid_empty q : rid ∅ q = Null.
Proof. unfold rid, rd. by rewrite lookup_total_empty. Qed.

Lemma cid_empty q : cid ∅ q = Null.
Proof. unfold cid, rd. by rewrite lookup_total_empty. Qed.

(** Decides the comparisons that arithmetic or constructors settle. *)
Ltac dsimp :=
  repeat first
    [ rewrite decide_True by (first [done | lia | congruence])
    | rewrite decide_False by (first [done | lia | congruence]) ].

Lemma header_loop_lookup len : ∀ a H q,
  foldl (λ H i, init_header (Hd (0 + i)) (Hd (0 + i - 1)) (Hd (0 + i + 1)) H) H (seq a len) !! q
  = match q with
    | Hd c => if decide (a ≤ c < a + len)%nat
              then Some (Cell (rid H q) (Hd (c - 1)) (Hd (c + 1)) q q q 1 (cid H q))
              else H !! q
    | _ => H !! q
    end.
Proof.
  induction len as [|len IH]; intros a H q; simpl.
  - destruct q; try done. by dsimp.
  - rewrite IH. rewrite init_header_eq.
    destruct q as [| |c| |]; rewrite ?lookup_wr, ?rid_wr, ?cid_wr; try (by dsimp).
    destruct (decide (c = a)) as [->|Hne].
    + by dsimp.
    + dsimp. destruct (decide (S a ≤ c < S a + len)%nat); by dsimp.
Qed.

Lemma make_header_row_lookup n q :
  dlx_make_header_row Root 0 n ∅ !! q
  = match q with
    | Root => Some (rootcell n)
    | Hd c => if decide (c < n)%nat then Some (hcell n c) else None
    | _ => None
    end.
Proof.
  unfold dlx_make_header_row, hcell, rootcell.
  destruct n as [|[|n]].
  - rewrite bool_decide_true by lia. rewrite init_root_eq, lookup_wr, rid_empty, cid_empty.
    destruct q; by dsimp.
  - rewrite bool_decide_false by lia. rewrite bool_decide_true by lia.
    rewrite init_header_eq, init_root_eq, !lookup_wr, !rid_wr, !cid_wr, rid_empty, cid_empty.
    destruct q as [| |[|c]| |]; by dsimp.
  - rewrite !bool_decide_false by lia. cbv zeta.
    rewrite init_header_eq, lookup_wr.
    unfold rid at 1. unfold cid at 1. unfold rd. rewrite !lookup_total_alt.
    rewrite !header_loop_lookup.
    rewrite !init_header_eq, !init_root_eq, !lookup_wr, ?rid_wr, ?cid_wr, ?rid_empty, ?cid_empty.
    simpl.
    destruct q as [| |c| |]; try (by dsimp).
    repeat (case_decide; simplify_eq/=; try lia); try done;
      try (exfalso; match goal with Hne : Hd _ ≠ Hd _ |- _ => apply Hne; f_equal; lia end);
      repeat f_equal; try lia.
Qed.

(** Linking a new cell at the end of a ring. *)
Lemma ring_append nx pv nx' pv' h L x :
  NoDup (h :: L) → x ∉ h :: L →
  ring nx pv h L →
  (∀ q, nx' q = if decide (q = pv h) then x else if decide (q = x) then h else nx q) →
  (∀ q, pv' q = if decide (q = h) then x else if decide (q = x) then pv h else pv q) →
  ring nx' pv' h (L ++ [x]).
Proof.
  intros Hnd Hx Hring Hnx Hpv. unfold ring in *.
  assert (Hpvx : x ≠ pv h).
  { destruct (seg_last_hd _ _ _ L [] _ ltac:(by rewrite app_nil_r)) as [_ Hu].
    simpl in Hu. rewrite Hu. intros ->. apply Hx, last_elem_of. }
  apply list.NoDup_cons in Hnd as [Hh Hnd].
  apply not_elem_of_cons in Hx as [Hxh HxL].
  apply seg_app. split; [|simpl; rewrite Hnx, Hpv; by dsimp].
  destruct L as [|y L _] using rev_ind.
  - destruct Hring as [Hn Hp]. simpl. rewrite Hnx, Hpv, Hp. by dsimp.
  - apply seg_app in Hring as [Hs [Hn Hp]].
    apply list.NoDup_app in Hnd as (Hnd1 & Hd & _).
    apply seg_app. split.
    + eapply seg_ext; [| |exact Hs].
      * intros q Hq. rewrite Hnx, Hp.
        rewrite decide_False.
        2:{ intros ->. apply elem_of_cons in Hq as [->|Hq]; [set_solver|].
            eapply Hd; [done|set_solver]. }
        rewrite decide_False; [done|]. intros ->. set_solver.
      * intros q Hq. rewrite Hpv.
        rewrite decide_False by (intros ->; set_solver).
        rewrite decide_False; [done|]. intros ->. set_solver.
    + simpl. rewrite Hnx, Hpv, Hp. by dsimp.
Qed.

(** The header list and the columns of a matrix with all columns live
    and all nodes linked, for the data nodes [nds]. *)
Record cols_ok (cols nds : list ptr) (hd : ptr → ptr) (H : heap) : Prop := {
  co_hdrs : ring (rt H) (lf H) Root cols;
  co_cols : ∀ c, c ∈ cols → ring (dn H) (upp H) c (filter (λ x, hd x = c) nds);
  co_hd : ∀ x, x ∈ nds → hdr H x = hd x;
  co_cnt : ∀ c, c ∈ cols → cnt H c = 1 + Z.of_nat (length (filter (λ x, hd x = c) nds));
  co_dom : ∀ p, p ∈ Root :: cols ++ nds → is_Some (H !! p)
}.

Definition rows_ok (rs : list (list ptr)) (H : heap) : Prop :=
  ∀ row l1 i l2, row ∈ rs → row = l1 ++ i :: l2 → ring (rt H) (lf H) i (l2 ++ l1).

Lemma filter_all (l : list ptr) : filter (λ x, x ∉ @nil ptr) l = l.
Proof. apply filter_true_in. intros x _. apply not_elem_of_nil. Qed.

Lemma struct_ok_of_parts Σ H :
  cols_ok (l_cols Σ) (nodes Σ) (l_hd Σ) H → rows_ok (l_rows Σ) H →
  struct_ok Σ [] [] H.
Proof.
  intros [? ? ? ? ?] Hrows. split; try done.
  - unfold live. by rewrite filter_all.
  - intros c Hc. unfold colL, col0. rewrite filter_all. auto.
  - intros c Hc. unfold colL, col0. rewrite filter_all. auto.
Qed.

Lemma append_ok cols nds hd H x :
  NoDup (Root :: cols ++ nds) → x ∉ Root :: cols ++ nds → hd x ∈ cols →
  Z.of_nat (length nds) + 2 < 2 ^ 64 →
  cols_ok cols nds hd H →
  cols_ok cols (nds ++ [x]) hd (append_node_to_column x (hd x) H).
Proof.
  intros Hnd Hx Hc0 Hsize Hok.
  assert (Hxc : x ≠ hd x) by (intros Heq; apply Hx; rewrite Heq; set_solver).
  apply list.NoDup_cons in Hnd as [HR Hnd].
  apply list.NoDup_app in Hnd as (Hndc & Hdisj & Hndn).
  set (L c := filter (λ y, hd y = c) nds).
  assert (HLnd : ∀ c, c ∈ cols → NoDup (c :: L c)).
  { intros c Hc. apply list.NoDup_cons. split; [|by apply list.NoDup_filter].
    intros [_ Hin]%list_elem_of_filter. by eapply Hdisj. }
  assert (HxL : ∀ c, c ∈ cols → x ∉ c :: L c).
  { intros c Hc [->|[_ Hin]%list_elem_of_filter]%elem_of_cons; apply Hx; set_solver. }
  pose proof (co_cols _ _ _ _ Hok _ Hc0) as Hring0. fold (L (hd x)) in Hring0.
  assert (Hup : upp H (hd x) ∈ hd x :: L (hd x)).
  { destruct (seg_last_hd _ _ _ (L (hd x)) [] _ ltac:(by rewrite app_nil_r)) as [_ Hu].
    simpl in Hu. rewrite Hu. apply last_elem_of. }
  assert (Hupx : upp H (hd x) ≠ x) by (intros Heq; apply (HxL _ Hc0); by rewrite Heq in Hup).
  split.
  - eapply seg_ext_all; [..|apply (co_hdrs _ _ _ _ Hok)]; intros q.
    + by apply rt_append.
    + by apply lf_append.
  - intros c Hc. rewrite list.filter_app. fold (L c).
    destruct (decide (c = hd x)) as [->|Hne].
    + rewrite filter_cons_True by done. simpl.
      eapply ring_append; [by apply HLnd|by apply HxL|done|..]; intros q.
      * by apply dn_append.
      * by apply upp_append.
    + rewrite filter_cons_False by congruence. simpl. rewrite app_nil_r.
      assert (Hdis : ∀ q, q ∈ c :: L c → q ∉ hd x :: L (hd x)).
      { intros q Hq Hq'.
        apply elem_of_cons in Hq as [->|[Hq Hqn]%list_elem_of_filter];
          apply elem_of_cons in Hq' as [Heq|[Hq' Hqn']%list_elem_of_filter]; try congruence.
        - by eapply Hdisj.
        - apply (Hdisj (hd x)); [done|]. by rewrite <- Heq. }
      eapply seg_ext; [| |apply (co_cols _ _ _ _ Hok _ Hc)]; intros q Hq.
      * rewrite dn_append by done.
        rewrite decide_False by (intros ->; by eapply Hdis).
        rewrite decide_False; [done|]. intros ->. by eapply HxL.
      * assert (Hq' : q ∈ c :: L c).
        { apply elem_of_app in Hq as [?| ->%list_elem_of_singleton]; set_solver. }
        rewrite upp_append by done.
        rewrite decide_False by (intros ->; eapply Hdis; [done|set_solver]).
        rewrite decide_False; [done|]. intros ->. by eapply HxL.
  - intros y Hy. rewrite hdr_append by done.
    apply elem_of_app in Hy as [Hy| ->%list_elem_of_singleton]; [|by dsimp].
    rewrite decide_False by (intros ->; apply Hx; set_solver).
    by apply (co_hd _ _ _ _ Hok).
  - intros c Hc. rewrite cnt_append by done. rewrite list.filter_app, length_app. fold (L c).
    pose proof (length_filter (λ y, hd y = c) nds) as Hlen. fold (L c) in Hlen.
    destruct (decide (c = hd x)) as [->|Hne].
    + rewrite filter_cons_True by done. simpl.
      rewrite (co_cnt _ _ _ _ Hok _ Hc0). fold (L (hd x)).
      rewrite wrap_small by lia. lia.
    + rewrite filter_cons_False by congruence. simpl.
      rewrite (co_cnt _ _ _ _ Hok _ Hc). fold (L c). lia.
  - intros p Hp. apply append_alloc.
    rewrite app_assoc in Hp.
    apply elem_of_cons in Hp as [->|Hp]; [left; apply (co_dom _ _ _ _ Hok); set_solver|].
    apply elem_of_app in Hp as [Hp| ->%list_elem_of_singleton]; [|by right].
    left. apply (co_dom _ _ _ _ Hok). set_solver.
Qed.

Section wr_fields.
Context (p : ptr) (c : cell) (H : heap) (q : ptr).
Lemma lf_wr : lf (wr p c H) q = if decide (q = p) then left c else lf H q.
Proof. unfold lf. rewrite rd_wr. by case_decide. Qed.
Lemma rt_wr : rt (wr p c H) q = if decide (q = p) then right c else rt H q.
Proof. unfold rt. rewrite rd_wr. by case_decide. Qed.
Lemma upp_wr : upp (wr p c H) q = if decide (q = p) then up c else upp H q.
Proof. unfold upp. rewrite rd_wr. by case_decide. Qed.
Lemma dn_wr : dn (wr p c H) q = if decide (q = p) then down c else dn H q.
Proof. unfold dn. rewrite rd_wr. by case_decide. Qed.
Lemma hdr_wr : hdr (wr p c H) q = if decide (q = p) then header c else hdr H q.
Proof. unfold hdr. rewrite rd_wr. by case_decide. Qed.
Lemma cnt_wr : cnt (wr p c H) q = if decide (q = p) then node_count c else cnt H q.
Proof. unfold cnt. rewrite rd_wr. by case_decide. Qed.
End wr_fields.

(** The cell of the node at index [k] of a row of [n] nodes that starts at [nb]. *)
Definition ncell (nb n k : nat) (row : ptr) (old : cell) : cell :=
  Cell row
       (Nd (if decide (k = nb) then nb + n - 1 else k - 1))
       (Nd (if decide (k + 1 = nb + n)%nat then nb else k + 1))
       (up old) (down old) (header old) (node_count old) (id old).

Lemma row_loop_lookup nb row len : ∀ a H q,
  foldl (λ H i, init_node (Nd (nb + i)) (Nd (nb + i - 1)) (Nd (nb + i + 1)) row H) H (seq a len) !! q
  = match q with
    | Nd k => if decide (nb + a ≤ k < nb + a + len)%nat
              then Some (Cell row (Nd (k - 1)) (Nd (k + 1))
                              (upp H q) (dn H q) (hdr H q) (cnt H q) (cid H q))
              else H !! q
    | _ => H !! q
    end.
Proof.
  induction len as [|len IH]; intros a H q; simpl.
  - destruct q; try done. by dsimp.
  - rewrite IH. rewrite init_node_eq.
    destruct q as [| | |k|]; rewrite ?lookup_wr, ?upp_wr, ?dn_wr, ?hdr_wr, ?cnt_wr, ?cid_wr;
      try (by dsimp).
    destruct (decide (k = nb + a)%nat) as [->|Hne].
    + by dsimp.
    + dsimp. destruct (decide (nb + S a ≤ k < nb + S a + len)%nat); by dsimp.
Qed.

Lemma make_row_lookup nb row n H q :
  dlx_make_row nb row n H !! q
  = match q with
    | Nd k => if decide (nb ≤ k < nb + n)%nat
              then Some (ncell nb n k row (rd H q))
              else H !! q
    | _ => H !! q
    end.
Proof.
  unfold dlx_make_row, ncell.
  destruct n as [|[|n]].
  - rewrite bool_decide_true by lia. destruct q; try done. by dsimp.
  - rewrite bool_decide_false by lia. rewrite bool_decide_true by lia.
    rewrite init_node_eq, lookup_wr.
    destruct q as [| | |k|]; try (by dsimp).
    repeat (case_decide; simplify_eq/=; try lia); try done;
      try (exfalso; match goal with Hne : Nd _ ≠ Nd _ |- _ => apply Hne; f_equal; lia end);
      repeat f_equal; try lia.
  - rewrite !bool_decide_false by lia. cbv zeta.
    rewrite init_node_eq, lookup_wr.
    unfold upp at 1, dn at 1, hdr at 1, cnt at 1, cid at 1, rd. rewrite !lookup_total_alt.
    rewrite !row_loop_lookup.
    rewrite !init_node_eq, !lookup_wr, ?upp_wr, ?dn_wr, ?hdr_wr, ?cnt_wr, ?cid_wr.
    destruct q as [| | |k|]; try (by dsimp).
    unfold upp, dn, hdr, cnt, cid, rd. rewrite !lookup_total_alt.
    repeat (case_decide; simplify_eq/=; try lia); try done;
      try (exfalso; match goal with Hne : Nd _ ≠ Nd _ |- _ => apply Hne; f_equal; lia end);
      repeat f_equal; try lia.
Qed.

Lemma rd_lookup (H H' : heap) q : H' !! q = H !! q → rd H' q = rd H q.
Proof. intros Heq. unfold rd. by rewrite !lookup_total_alt, Heq. Qed.

Lemma cols_ok_frame cols nds hd H H' :
  (∀ q, q ∈ Root :: cols ++ nds → H' !! q = H !! q) →
  cols_ok cols nds hd H → cols_ok cols nds hd H'.
Proof.
  intros Hfr [Hh Hc Hhd Hcnt Hdom].
  assert (Hrd : ∀ q, q ∈ Root :: cols ++ nds → rd H' q = rd H q)
    by (intros q Hq; by apply rd_lookup, Hfr).
  split.
  - eapply seg_ext; [| |exact Hh]; intros q Hq; unfold rt, lf; rewrite Hrd; try done.
    + set_solver.
    + apply elem_of_app in Hq as [?| ->%list_elem_of_singleton]; set_solver.
  - intros c Hcc.
    assert (∀ q, q ∈ c :: filter (λ x, hd x = c) nds → q ∈ Root :: cols ++ nds).
    { intros q [->|[_ ?]%list_elem_of_filter]%elem_of_cons; set_solver. }
    eapply seg_ext; [| |exact (Hc c Hcc)]; intros q Hq; unfold dn, upp; rewrite Hrd; try done.
    + auto.
    + apply elem_of_app in Hq as [?| ->%list_elem_of_singleton]; set_solver.
  - intros x Hx. unfold hdr. rewrite Hrd by set_solver. by apply Hhd.
  - intros c Hcc. unfold cnt. rewrite Hrd by set_solver. by apply Hcnt.
  - intros p Hp. rewrite Hfr by done. by apply Hdom.
Qed.

Lemma rows_ok_frame rs H H' :
  (∀ q, q ∈ mjoin rs → H' !! q = H !! q) → rows_ok rs H → rows_ok rs H'.
Proof.
  intros Hfr Hrows row l1 i l2 Hrow Heq.
  assert (Hrd : ∀ q, q ∈ row → rd H' q = rd H q).
  { intros q Hq. apply rd_lookup, Hfr. apply list_elem_of_join. eauto. }
  eapply seg_ext; [| |exact (Hrows row l1 i l2 Hrow Heq)]; intros q Hq;
    unfold rt, lf; rewrite Hrd; try done; subst row.
  - set_solver.
  - apply elem_of_app in Hq as [?| ->%list_elem_of_singleton]; set_solver.
Qed.

Lemma rows_ok_ext rs H H' :
  (∀ q, rt H' q = rt H q) → (∀ q, lf H' q = lf H q) → rows_ok rs H → rows_ok rs H'.
Proof.
  intros Hr Hl Hrows row l1 i l2 Hrow Heq.
  eapply seg_ext_all; [..|exact (Hrows row l1 i l2 Hrow Heq)]; done.
Qed.

Lemma rows_ok_app rs1 rs2 H : rows_ok rs1 H → rows_ok rs2 H → rows_ok (rs1 ++ rs2) H.
Proof.
  intros H1 H2 row l1 i l2 [Hrow|Hrow]%elem_of_app Heq; [by eapply H1|by eapply H2].
Qed.

Lemma rows_ok_of_ring x0 rest H :
  ring (rt H) (lf H) x0 rest → rows_ok [x0 :: rest] H.
Proof.
  intros Hring row l1 i l2 ->%list_elem_of_singleton Heq.
  destruct l1 as [|y l1]; simpl in Heq; simplify_eq.
  - by rewrite app_nil_r.
  - by apply ring_rotate.
Qed.

Lemma rows_ok_nil H : rows_ok [[]] H.
Proof.
  intros row l1 i l2 ->%list_elem_of_singleton Heq. by destruct l1.
Qed.

Lemma rt_of_lookup (H : heap) q c : H !! q = Some c → rt H q = right c.
Proof. intros Hq. unfold rt, rd. by rewrite lookup_total_alt, Hq. Qed.
Lemma lf_of_lookup (H : heap) q c : H !! q = Some c → lf H q = left c.
Proof. intros Hq. unfold lf, rd. by rewrite lookup_total_alt, Hq. Qed.
Lemma rid_of_lookup (H : heap) q c : H !! q = Some c → rid H q = row_id c.
Proof. intros Hq. unfold rid, rd. by rewrite lookup_total_alt, Hq. Qed.

Lemma make_row_ring nb row n H :
  rows_ok [Nd <$> seq nb n] (dlx_make_row nb row n H).
Proof.
  destruct n as [|n]; [apply rows_ok_nil|].
  change (seq nb (S n)) with (nb :: seq (S nb) n). rewrite fmap_cons.
  apply rows_ok_of_ring. unfold ring.
  assert (Hlk : ∀ k, (nb ≤ k < nb + S n)%nat →
            dlx_make_row nb row (S n) H !! Nd k = Some (ncell nb (S n) k row (rd H (Nd k)))).
  { intros k Hk. rewrite make_row_lookup. by rewrite decide_True by lia. }
  apply seg_of_cells.
  - intros c Hc. rewrite (rt_of_lookup _ _ _ (Hlk c ltac:(lia))).
    rewrite (lf_of_lookup _ _ _ (Hlk c ltac:(lia))). unfold ncell. simpl. split.
    + destruct (decide (c + 1 = nb + S n)%nat); [by rewrite decide_True by lia|].
      by rewrite decide_False by lia.
    + rewrite decide_False by lia.
      destruct (decide (c = S nb)) as [->|?]; [f_equal; lia|done].
  - rewrite (rt_of_lookup _ _ _ (Hlk nb ltac:(lia))). unfold ncell. simpl.
    destruct (decide (n = 0)%nat) as [->|?]; [by rewrite decide_True by lia|].
    rewrite decide_False by lia. f_equal. lia.
  - rewrite (lf_of_lookup _ _ _ (Hlk nb ltac:(lia))). unfold ncell. simpl.
    rewrite decide_True by done.
    destruct (decide (n = 0)%nat) as [->|?]; f_equal; lia.
Qed.

#[global] Instance Hd_inj : Inj (=) (=) Hd.
Proof. by intros ?? [=]. Qed.
#[global] Instance Nd_inj : Inj (=) (=) Nd.
Proof. by intros ?? [=]. Qed.

Lemma NoDup_cells a b :
  NoDup (Root :: (Hd <$> seq 0 a) ++ (Nd <$> seq 0 b)).
Proof.
  apply list.NoDup_cons. split.
  - intros [Hin|Hin]%elem_of_app; apply list_elem_of_fmap in Hin as (? & ? & _); done.
  - apply list.NoDup_app. split_and!.
    + apply (NoDup_fmap_2 Hd), NoDup_seq.
    + intros x (? & -> & _)%list_elem_of_fmap (? & ? & _)%list_elem_of_fmap. done.
    + apply (NoDup_fmap_2 Nd), NoDup_seq.
Qed.

Section build.
Context (ncols : nat) (flat : list nat).
Context (Hflat : ∀ c, c ∈ flat → (c < ncols)%nat).

Let cols := Hd <$> seq 0 ncols.
Let hd := lay_hd flat.

Lemma add_row_fold_frames nb (hs : list ptr) l : ∀ H,
  let H' := foldl (λ H i, append_node_to_column (Nd (nb + i)) (hs !!! i) H) H l in
  (∀ q, rt H' q = rt H q) ∧ (∀ q, lf H' q = lf H q) ∧ (∀ q, rid H' q = rid H q).
Proof.
  induction l as [|t l IH]; intros H; simpl; [done|].
  destruct (IH (append_node_to_column (Nd (nb + t)) (hs !!! t) H)) as (Hr & Hl & Hi).
  split_and!; intros q.
  - rewrite Hr. apply rt_append.
  - rewrite Hl. apply lf_append.
  - rewrite Hi. apply rid_append.
Qed.

Lemma add_row_cols off cs H t :
  cols_ok cols (Nd <$> seq 0 off) hd H →
  (∀ u, (u < length cs)%nat → flat !!! (off + u)%nat = cs !!! u) →
  (∀ u, (u < length cs)%nat → (off + u < length flat)%nat) →
  Z.of_nat (off + length cs) + 1 < 2 ^ 64 →
  (t ≤ length cs)%nat →
  cols_ok cols (Nd <$> seq 0 (off + t)) hd
    (foldl (λ H i, append_node_to_column (Nd (off + i))
                     (((λ c, Hd (0 + c)) <$> cs) !!! i) H) H (seq 0 t)).
Proof.
  intros Hok Hfl Hlen Hsize. induction t as [|t IH]; intros Ht.
  - simpl. by rewrite Nat.add_0_r.
  - rewrite seq_S, foldl_app. simpl.
    replace (off + S t)%nat with (S (off + t)) by lia.
    rewrite seq_S, fmap_app. simpl.
    assert (Hhd : ((Hd <$> cs) !!! t) = hd (Nd (off + t))).
    { unfold hd, lay_hd. rewrite Hfl by lia.
      rewrite (list_lookup_total_fmap Hd cs t) by lia. done. }
    change (λ c : nat, Hd c) with Hd.
    rewrite Hhd. apply append_ok.
    + apply NoDup_cells.
    + intros [?|[Hin|Hin]%elem_of_app]%elem_of_cons; [done|..];
        apply list_elem_of_fmap in Hin as (k & Hk & Hin); [done|].
      simplify_eq. apply elem_of_seq in Hin. lia.
    + unfold hd, lay_hd, cols. apply list_elem_of_fmap_2, elem_of_seq.
      split; [lia|]. simpl. apply Hflat. apply list_elem_of_lookup_total_2. apply Hlen. lia.
    + rewrite length_fmap, length_seq. lia.
    + apply IH. lia.
Qed.

Lemma build_row_ok i off cs rs H :
  cols_ok cols (Nd <$> seq 0 off) hd H → rows_ok rs H →
  mjoin rs = Nd <$> seq 0 off →
  (∀ u, (u < length cs)%nat → flat !!! (off + u)%nat = cs !!! u) →
  (∀ u, (u < length cs)%nat → (off + u < length flat)%nat) →
  Z.of_nat (off + length cs) + 1 < 2 ^ 64 →
  let H' := build_row 0 i off cs H in
  cols_ok cols (Nd <$> seq 0 (off + length cs)) hd H' ∧
  rows_ok (rs ++ [Nd <$> seq off (length cs)]) H' ∧
  mjoin (rs ++ [Nd <$> seq off (length cs)]) = Nd <$> seq 0 (off + length cs) ∧
  (∀ k, rid H' (Nd k) = if decide (off ≤ k < off + length cs)%nat
                        then RowOff i else rid H (Nd k)).
Proof.
  intros Hok Hrows Hjoin Hfl Hlen Hsize H'. unfold H', build_row, dlx_add_row.
  set (H1 := dlx_make_row off (RowOff i) (length cs) H).
  assert (Hfr : ∀ q, q ∈ Root :: cols ++ (Nd <$> seq 0 off) → H1 !! q = H !! q).
  { intros q Hq. unfold H1. rewrite make_row_lookup.
    destruct q as [| | |k|]; try done.
    rewrite decide_False; [done|]. intros ?.
    apply elem_of_cons in Hq as [?|[Hin|Hin]%elem_of_app]; [done|..];
      apply list_elem_of_fmap in Hin as (k' & Hk & Hin); [done|].
    simplify_eq. apply elem_of_seq in Hin. lia. }
  destruct (add_row_fold_frames off ((λ c, Hd (0 + c)) <$> cs) (seq 0 (length cs)) H1)
    as (Hr & Hl & Hi).
  split_and!.
  - apply add_row_cols; try done. by apply (cols_ok_frame _ _ _ H).
  - eapply rows_ok_ext; [exact Hr|exact Hl|].
    apply rows_ok_app.
    + eapply rows_ok_frame; [|exact Hrows]. intros q Hq. apply Hfr.
      rewrite Hjoin in Hq. set_solver.
    + apply make_row_ring.
  - rewrite join_app, Hjoin. simpl. rewrite app_nil_r.
    by rewrite seq_app, fmap_app.
  - intros k. rewrite Hi. unfold H1.
    destruct (decide (off ≤ k < off + length cs)%nat).
    + erewrite rid_of_lookup; [|rewrite make_row_lookup; by rewrite decide_True by lia].
      done.
    + unfold rid. f_equal. apply rd_lookup. rewrite make_row_lookup.
      by rewrite decide_False by lia.
Qed.
End build.

(** Every node of row [r] carries the row id [RowOff r]. *)
Definition rids_ok (lrs : list (list ptr)) (H : heap) : Prop :=
  ∀ r row x, lrs !! r = Some row → x ∈ row → rid H x = RowOff r.

Lemma upp_of_lookup (H : heap) q c : H !! q = Some c → upp H q = up c.
Proof. intros Hq. unfold upp, rd. by rewrite lookup_total_alt, Hq. Qed.
Lemma dn_of_lookup (H : heap) q c : H !! q = Some c → dn H q = down c.
Proof. intros Hq. unfold dn, rd. by rewrite lookup_total_alt, Hq. Qed.
Lemma cnt_of_lookup (H : heap) q c : H !! q = Some c → cnt H q = node_count c.
Proof. intros Hq. unfold cnt, rd. by rewrite lookup_total_alt, Hq. Qed.

Lemma make_header_row_ok ncols hd :
  cols_ok (Hd <$> seq 0 ncols) [] hd (dlx_make_header_row Root 0 ncols ∅).
Proof.
  set (H := dlx_make_header_row Root 0 ncols ∅).
  assert (HR : H !! Root = Some (rootcell ncols)) by (unfold H; by rewrite make_header_row_lookup).
  assert (Hc : ∀ c, (c < ncols)%nat → H !! Hd c = Some (hcell ncols c)).
  { intros c Hc. unfold H. rewrite make_header_row_lookup. by rewrite decide_True by lia. }
  clearbody H. split.
  - apply seg_of_cells.
    + intros c Hcr. rewrite (rt_of_lookup _ _ _ (Hc c ltac:(lia))).
      rewrite (lf_of_lookup _ _ _ (Hc c ltac:(lia))). unfold hcell. simpl. done.
    + rewrite (rt_of_lookup _ _ _ HR). done.
    + rewrite (lf_of_lookup _ _ _ HR). simpl.
      destruct (decide (ncols = 0)%nat); [done|]. try done; f_equal; lia.
  - intros c (k & -> & Hk%elem_of_seq)%list_elem_of_fmap. unfold ring. simpl.
    rewrite (dn_of_lookup _ _ _ (Hc k ltac:(lia))), (upp_of_lookup _ _ _ (Hc k ltac:(lia))).
    done.
  - intros x Hx. by apply elem_of_nil in Hx.
  - intros c (k & -> & Hk%elem_of_seq)%list_elem_of_fmap. simpl.
    by rewrite (cnt_of_lookup _ _ _ (Hc k ltac:(lia))).
  - intros p Hp. rewrite app_nil_r in Hp.
    apply elem_of_cons in Hp as [->|(k & -> & Hk%elem_of_seq)%list_elem_of_fmap].
    + by rewrite HR.
    + rewrite Hc by lia. done.
Qed.

Section build_rows.
Context (ncols : nat) (flat : list nat).
Context (Hflat : ∀ c, c ∈ flat → (c < ncols)%nat).
Context (Hsize : Z.of_nat (length flat) + 1 < 2 ^ 64).

Lemma build_rows_ok rest : ∀ lrs off pre H,
  flat = pre ++ mjoin rest → length pre = off →
  cols_ok (Hd <$> seq 0 ncols) (Nd <$> seq 0 off) (lay_hd flat) H →
  rows_ok lrs H → mjoin lrs = Nd <$> seq 0 off → rids_ok lrs H →
  let H' := build_rows (length lrs) off rest H in
  cols_ok (Hd <$> seq 0 ncols) (Nd <$> seq 0 (length flat)) (lay_hd flat) H' ∧
  rows_ok (lrs ++ lay_rows off rest) H' ∧
  mjoin (lrs ++ lay_rows off rest) = Nd <$> seq 0 (length flat) ∧
  rids_ok (lrs ++ lay_rows off rest) H'.
Proof.
  induction rest as [|cs rest IH]; intros lrs off pre H Hfl Hpre Hok Hrows Hjoin Hrid; simpl.
  - simpl in Hfl. rewrite app_nil_r in *. subst. done.
  - simpl in Hfl.
    assert (Hlen : length flat = (off + length cs + length (mjoin rest))%nat).
    { rewrite Hfl, !length_app. lia. }
    destruct (build_row_ok ncols flat Hflat (length lrs) off cs lrs H Hok Hrows Hjoin)
      as (Hok' & Hrows' & Hjoin' & Hrid').
    { intros u Hu. rewrite Hfl.
      rewrite lookup_total_app_r by lia. rewrite lookup_total_app_l by lia.
      f_equal. lia. }
    { intros u Hu. lia. }
    { lia. }
    specialize (IH (lrs ++ [Nd <$> seq off (length cs)]) (off + length cs)%nat (pre ++ cs)
                  (build_row 0 (length lrs) off cs H)).
    rewrite (length_app lrs) in IH. simpl in IH.
    replace (length lrs + 1)%nat with (S (length lrs)) in IH by lia.
    rewrite <- !app_assoc in IH. simpl in IH.
    apply IH; try done.
    + rewrite length_app. lia.
    + intros r row x Hr Hx. apply lookup_app_Some in Hr as [Hr'|[Hge Hr']].
      * pose proof (Hrid r row x Hr' Hx) as Hold.
        assert (x ∈ Nd <$> seq 0 off) as (k & -> & Hk%elem_of_seq)%list_elem_of_fmap.
        { rewrite <- Hjoin. apply list_elem_of_join. exists row.
          split; [done|]. by eapply list_elem_of_lookup_2. }
        rewrite Hrid'. rewrite decide_False by lia. done.
      * destruct (r - length lrs)%nat as [|?] eqn:Hr0; simpl in Hr'; [|done].
        simplify_eq. apply list_elem_of_fmap in Hx as (k & -> & Hk%elem_of_seq).
        rewrite Hrid'. rewrite decide_True by lia. f_equal. lia.
Qed.
End build_rows.

Lemma lay_rows_join rows : ∀ off,
  mjoin (lay_rows off rows) = Nd <$> seq off (length (mjoin rows)).
Proof.
  induction rows as [|cs rows IH]; intros off; simpl; [done|].
  by rewrite IH, length_app, seq_app, fmap_app.
Qed.

(** The columns of the nodes of each row are the columns the instance names. *)
Lemma lay_rows_hd rows : ∀ pre post r cs,
  rows !! r = Some cs →
  ∃ row, lay_rows (length pre) rows !! r = Some row ∧
         lay_hd (pre ++ mjoin rows ++ post) <$> row = Hd <$> cs.
Proof.
  induction rows as [|cs0 rows IH]; intros pre post r cs Hr; [done|].
  destruct r as [|r]; simpl in *.
  - simplify_eq. eexists. split; [done|].
    apply list_eq. intros t. rewrite !list_lookup_fmap.
    destruct (decide (t < length cs)%nat) as [Ht|Ht].
    + rewrite lookup_seq_lt by done. simpl.
      rewrite lookup_total_app_r by lia. rewrite <- app_assoc, lookup_total_app_l by lia.
      replace (length pre + t - length pre)%nat with t by lia.
      destruct (lookup_lt_is_Some_2 cs t Ht) as [c Hc].
      rewrite Hc. simpl. f_equal. f_equal. by apply list_lookup_total_correct.
    + rewrite lookup_seq_ge by lia. rewrite lookup_ge_None_2 by lia. done.
  - destruct (IH (pre ++ cs0) post r cs Hr) as (row & Hrow & Hhd).
    rewrite length_app in Hrow. exists row. split; [done|].
    rewrite <- Hhd. by rewrite <- !app_assoc.
Qed.

Lemma lay_rows_length rows : ∀ off, length (lay_rows off rows) = length rows.
Proof. induction rows as [|cs rows IH]; intros off; simpl; [done|]. by rewrite IH. Qed.

Lemma lay_ok ncols rows : inst_ok ncols rows → layout_ok (lay ncols rows).
Proof.
  intros [Hnd Hb Hsz Hcs]. split; unfold lay, nodes; simpl.
  - rewrite lay_rows_join. apply NoDup_cells.
  - intros x Hx. rewrite lay_rows_join in Hx.
    apply list_elem_of_fmap in Hx as (k & -> & Hk%elem_of_seq). simpl.
    apply list_elem_of_fmap_2, elem_of_seq. split; [lia|]. simpl.
    assert (mjoin rows !!! k ∈ mjoin rows) as (cs & Hc & Hcs')%list_elem_of_join
      by (apply list_elem_of_lookup_total_2; lia).
    by eapply Hb.
  - intros row Hrow. apply list_elem_of_lookup in Hrow as (r & Hr).
    assert (is_Some (rows !! r)) as [cs Hcsr].
    { apply lookup_lt_is_Some. rewrite <- (lay_rows_length rows 0).
      by eapply lookup_lt_Some. }
    destruct (lay_rows_hd rows [] [] r cs Hcsr) as (row' & Hrow' & Hhd).
    simpl in *. rewrite app_nil_r in Hhd. simplify_eq. rewrite Hhd.
    apply (NoDup_fmap_2 Hd). apply Hnd. by eapply list_elem_of_lookup_2.
  - rewrite lay_rows_join, length_fmap, length_seq. done.
Qed.

(** A built matrix is well formed, and its nodes carry their row ids. *)
Theorem build_ok ncols rows :
  inst_ok ncols rows →
  mstate_ok (lay ncols rows) (MState [] [] (build ncols rows)) ∧
  rids_ok (lay_rows 0 rows) (build ncols rows).
Proof.
  intros Hinst. pose proof Hinst as [Hnd Hb Hsz Hcs].
  destruct (build_rows_ok ncols (mjoin rows)) with
    (rest := rows) (lrs := @nil (list ptr)) (off := 0%nat) (pre := @nil nat)
    (H := dlx_make_header_row Root 0 ncols ∅) as (Hok & Hrows & Hjoin & Hrid); try done.
  - intros c (cs & Hc & Hcs')%list_elem_of_join. by eapply Hb.
  - apply make_header_row_ok.
  - intros row l1 i l2 Hrow. by apply elem_of_nil in Hrow.
  - simpl in *. split; [unfold mstate_ok; simpl; split|done].
    + apply struct_ok_of_parts; [|done]. unfold lay, nodes. simpl.
      by rewrite lay_rows_join.
    + intros row Hrow _ j Hj. split; apply not_elem_of_nil.
Qed.

(** * The engine: claims *)

(** A checker for [inst_ok], for concrete instances. *)
Definition inst_okb (ncols : nat) (rows : list (list nat)) : bool :=
  forallb (λ cs, bool_decide (NoDup cs) && forallb (λ c, bool_decide (c < ncols)%nat) cs) rows
  && bool_decide (Z.of_nat (length (mjoin rows)) + 1 < 2 ^ 64)
  && bool_decide (Z.of_nat ncols < 2 ^ 64).

Lemma inst_okb_ok ncols rows : inst_okb ncols rows = true → inst_ok ncols rows.
Proof.
  unfold inst_okb. rewrite !andb_true_iff, !bool_decide_eq_true, forallb_forall.
  intros [[Hrows ?] ?]. split; try done.
  - intros cs Hcs. apply list_elem_of_In in Hcs. apply Hrows in Hcs.
    apply andb_true_iff in Hcs as [Hnd _]. by apply bool_decide_eq_true in Hnd.
  - intros cs c Hcs Hc. apply list_elem_of_In in Hcs. apply Hrows in Hcs.
    apply andb_true_iff in Hcs as [_ Hb]. rewrite forallb_forall in Hb.
    apply list_elem_of_In in Hc. apply Hb in Hc. by apply bool_decide_eq_true in Hc.
Qed.

(** Knuth's example: six rows over seven columns. *)
Definition knuth : list (list nat) :=
  [[2; 4; 5]; [0; 3; 6]; [1; 2; 5]; [0; 3]; [1; 6]; [3; 4; 6]]%nat.

(** The matrix built from an instance, then some columns covered one
    after the other. *)
Definition covered_state (ncols : nat) (rows : list (list nat)) (hs : list ptr) : mstate :=
  covs (lay ncols rows) hs (MState [] [] (build ncols rows)).

Lemma covered_state_ok ncols rows hs :
  inst_ok ncols rows → NoDup hs → (∀ h, h ∈ hs → h ∈ Hd <$> seq 0 ncols) →
  mstate_ok (lay ncols rows) (covered_state ncols rows hs).
Proof.
  intros Hinst Hnd Hhs. apply covs_ok; [by apply lay_ok|by apply build_ok|done|].
  intros h Hh. apply live_elem. simpl. split; [by apply Hhs|apply not_elem_of_nil].
Qed.

(** C4. For every live column header [h] of a valid matrix state,
    [uncover h] run right after [cover h] gives back the very memory
    [cover h] started from: every link and every counter is as before. *)
Theorem cover_uncover_inverse Σ s h fuel :
  layout_ok Σ → mstate_ok Σ s → h ∈ live Σ (m_V s) →
  (2 * length (nodes Σ) < fuel)%nat →
  ∃ H1, cover fuel h (m_H s) = Some H1 ∧ uncover fuel h H1 = Some (m_H s).
Proof.
  intros HΣ [Hok Hal] Hh Hf.
  destruct (cover_ok Σ HΣ _ _ _ h fuel Hok Hal Hh Hf) as (Hc & _ & _ & Hu).
  eauto.
Qed.

Lemma cover_uncover_inverse_witness :
  ∃ H1, cover 40 (Hd 3) (m_H (covered_state 7 knuth [Hd 0])) = Some H1 ∧
        uncover 40 (Hd 3) H1 = Some (m_H (covered_state 7 knuth [Hd 0])).
Proof.
  apply (cover_uncover_inverse (lay 7 knuth) (covered_state 7 knuth [Hd 0]) (Hd 3) 40).
  - apply lay_ok, inst_okb_ok. vm_compute. reflexivity.
  - apply covered_state_ok.
    + apply inst_okb_ok. vm_compute. reflexivity.
    + apply NoDup_singleton.
    + intros h Hh. apply list_elem_of_singleton in Hh. subst h.
      apply (list_elem_of_fmap_2 Hd (seq 0 7) 0%nat). vm_compute.
      apply list_elem_of_here.
  - apply live_elem. split.
    + apply (list_elem_of_fmap_2 Hd (seq 0 7) 3%nat). vm_compute.
      do 3 apply list_elem_of_further. apply list_elem_of_here.
    + unfold covered_state. rewrite covs_V. vm_compute.
      intros Hin. apply list_elem_of_singleton in Hin. discriminate.
  - vm_compute. lia.
Defined.

(** ** Frame of [cover]: the covered column itself *)

Section rd_frames.
Context (H : heap) (p q v : ptr) (z : Z) (Hne : q ≠ p).
Lemma rd_set_left : rd (set_left p v H) q = rd H q.
Proof. unfold set_left. rewrite rd_wr. by rewrite decide_False. Qed.
Lemma rd_set_right : rd (set_right p v H) q = rd H q.
Proof. unfold set_right. rewrite rd_wr. by rewrite decide_False. Qed.
Lemma rd_set_up : rd (set_up p v H) q = rd H q.
Proof. unfold set_up. rewrite rd_wr. by rewrite decide_False. Qed.
Lemma rd_set_down : rd (set_down p v H) q = rd H q.
Proof. unfold set_down. rewrite rd_wr. by rewrite decide_False. Qed.
Lemma rd_set_count : rd (set_count p z H) q = rd H q.
Proof. unfold set_count. rewrite rd_wr. by rewrite decide_False. Qed.
End rd_frames.

Lemma rd_rm_step H j q :
  q ≠ upp H j → q ≠ dn H j → q ≠ hdr H j → rd (rm_step j H) q = rd H q.
Proof.
  intros Hu Hd Hh. unfold rm_step, decr_count, remove_ud. cbv zeta.
  rewrite rd_set_count, rd_set_up, rd_set_down; try done.
  - rewrite dn_set_down. by case_decide.
  - by rewrite hdr_set_up, hdr_set_down.
Qed.

Lemma rd_remove_lr H h q :
  q ≠ lf H h → q ≠ rt H h → rd (remove_lr h H) q = rd H q.
Proof.
  intros Hl Hr. unfold remove_lr. cbv zeta.
  rewrite rd_set_left, rd_set_right; try done.
  rewrite rt_set_right. by case_decide.
Qed.

(** The cells from [h] downwards, until [h] is met again. *)
Fixpoint walk_down (fuel : nat) (h i : ptr) (H : heap) : option (list ptr) :=
  match fuel with
  | O => None
  | S f => let i' := dn H i in
           if decide (i' = h) then Some [] else (i' ::.) <$> walk_down f h i' H
  end.

Lemma walk_down_seg H h L : ∀ i fuel,
  seg (dn H) (upp H) i L h → h ∉ L → (length L < fuel)%nat →
  walk_down fuel h i H = Some L.
Proof.
  induction L as [|x L IH]; intros i fuel Hseg Hh Hf;
    (destruct fuel as [|f]; [simpl in Hf; lia|]); simpl in *.
  - destruct Hseg as [-> _]. by rewrite decide_True.
  - destruct Hseg as (-> & _ & Hseg). rewrite decide_False by set_solver.
    rewrite (IH x f); [done|done|set_solver|lia].
Qed.

Section cover_frame.
Context (Σ : layout) (HΣ : layout_ok Σ).

Lemma rm_all_frame h js : ∀ V R H,
  struct_ok Σ V R H → h ∈ l_cols Σ → NoDup js →
  (∀ j, j ∈ js → j ∈ nodes Σ ∧ j ∉ R ∧ l_hd Σ j ≠ h) →
  ∀ q, q ∈ h :: colL Σ R h → rd (rm_all js H) q = rd H q.
Proof.
  induction js as [|j js IH]; intros V R H Hok Hh Hnd Hjs q Hq; [done|].
  apply list.NoDup_cons in Hnd as [Hj Hnd]. simpl.
  destruct (Hjs j) as (Hjn & HjR & Hjh); [set_solver|].
  pose proof (lo_hd _ HΣ j Hjn) as Hc0.
  destruct (linked_node Σ HΣ V R H j Hok Hjn HjR) as (_ & _ & Hu & Hd & _ & _).
  rewrite (IH V (j :: R)).
  - apply rd_rm_step.
    + intros ->. by eapply (col_disjoint Σ HΣ R R h (l_hd Σ j)).
    + intros ->. by eapply (col_disjoint Σ HΣ R R h (l_hd Σ j)).
    + rewrite (so_hd _ _ _ _ Hok j Hjn). intros ->.
      eapply (col_disjoint Σ HΣ R R h (l_hd Σ j)); [done..|set_solver].
  - by apply rm_step_ok.
  - done.
  - done.
  - intros j' Hj'. destruct (Hjs j') as (? & ? & ?); [set_solver|].
    split_and!; try done. rewrite not_elem_of_cons. split; [|done]. intros ->. done.
  - change (j :: R) with ([j] ++ R). rewrite (colL_irrelevant Σ); [done|].
    intros x ->%list_elem_of_singleton. done.
Qed.
End cover_frame.

(** C10. [cover h] on a live column header [h] of a valid matrix state
    leaves the cell of [h] as it was (links, header and [node_count]), and
    the cells of the data nodes of its column too: the walk [h.down,
    h.down.down, ...] meets the same nodes before and after, and each of them
    is still linked in the column. *)
Theorem cover_keeps_own_column Σ s h fuel :
  layout_ok Σ → mstate_ok Σ s → h ∈ live Σ (m_V s) →
  (2 * length (nodes Σ) < fuel)%nat →
  ∃ H1 L, cover fuel h (m_H s) = Some H1 ∧
          walk_down fuel h h (m_H s) = Some L ∧
          walk_down fuel h h H1 = Some L ∧
          rd H1 h = rd (m_H s) h ∧
          cnt H1 h = cnt (m_H s) h ∧
          ∀ i, i ∈ L → rd H1 i = rd (m_H s) i ∧ is_removed_ud i H1 = false.
Proof.
  intros HΣ [Hok Hal] Hh Hf.
  destruct (cover_ok Σ HΣ _ _ _ h fuel Hok Hal Hh Hf) as (Hc & Hok1 & _ & _).
  destruct (cover_facts Σ HΣ _ _ h Hal Hh) as [Hnd HT].
  pose proof Hh as [Hhc HhV]%live_elem.
  set (L := colL Σ (m_R s) h). set (T := trace Σ L) in *.
  set (H1 := rm_all T (remove_lr h (m_H s))) in *.
  pose proof (remove_lr_ok Σ HΣ _ _ _ h Hok Hh) as Hok0.
  pose proof (colL_length Σ (m_R s) h) as HLlen. fold L in HLlen.
  assert (Hfr : ∀ q, q ∈ h :: L → rd H1 q = rd (m_H s) q).
  { intros q Hq. unfold H1.
    rewrite (rm_all_frame Σ HΣ h T (h :: m_V s) (m_R s)); try done.
    - pose proof (so_hdrs _ _ _ _ Hok) as Hring.
      apply list_elem_of_split in Hh as (l1 & l2 & Hsplit). rewrite Hsplit in Hring.
      pose proof (ring_nodup_live Σ HΣ (m_V s)) as Hndl. rewrite Hsplit in Hndl.
      destruct (ring_member _ _ _ _ _ _ Hndl Hring) as (_ & _ & Hp & Hn & Hpne & Hnne).
      assert (Hlive : ∀ x, x ∈ Root :: l1 ++ h :: l2 → x ≠ h → x ≠ q).
      { intros x Hx Hxh ->. apply elem_of_cons in Hq as [->|Hq]; [done|].
        apply colL_elem in Hq as (Hqn & _).
        rewrite <- Hsplit in Hx. by apply (live_not_node Σ HΣ (m_V s) q q). }
      apply rd_remove_lr; apply not_eq_sym, Hlive; try done.
      + set_solver.
      + apply elem_of_app in Hn as [?| ->%list_elem_of_singleton]; set_solver.
    - intros j Hj. destruct (HT j Hj) as (? & ? & ? & ?). done. }
  assert (HL1 : colL Σ (reverse T ++ m_R s) h = L).
  { apply (colL_irrelevant Σ). intros x Hx. rewrite elem_of_reverse in Hx.
    by destruct (HT x Hx) as (_ & _ & ? & _). }
  pose proof (so_cols _ _ _ _ Hok h Hhc) as Hring. fold L in Hring.
  pose proof (so_cols _ _ _ _ Hok1 h Hhc) as Hring1. fold L T in Hring1.
  rewrite HL1 in Hring1. fold H1 in Hring1.
  assert (HhL : h ∉ L).
  { intros (? & _)%colL_elem. by apply (col_not_node Σ HΣ h). }
  exists H1, L. split_and!.
  - done.
  - apply walk_down_seg; [done|done|lia].
  - apply walk_down_seg; [done|done|lia].
  - apply Hfr. set_solver.
  - unfold cnt. rewrite Hfr; [done|set_solver].
  - intros i Hi. split; [apply Hfr; set_solver|].
    apply list_elem_of_split in Hi as (l1 & l2 & Hsplit). rewrite Hsplit in Hring1.
    pose proof (ring_nodup_col Σ HΣ (m_R s) h Hhc) as Hndc. fold L in Hndc.
    rewrite Hsplit in Hndc.
    destruct (ring_member _ _ _ _ _ _ Hndc Hring1) as (Hlink & _).
    unfold is_removed_ud. by rewrite Hlink, bool_decide_true.
Qed.

Lemma cover_keeps_own_column_witness :
  ∃ H1 L, cover 40 (Hd 3) (m_H (covered_state 7 knuth [Hd 0])) = Some H1 ∧
          walk_down 40 (Hd 3) (Hd 3) (m_H (covered_state 7 knuth [Hd 0])) = Some L ∧
          walk_down 40 (Hd 3) (Hd 3) H1 = Some L ∧
          rd H1 (Hd 3) = rd (m_H (covered_state 7 knuth [Hd 0])) (Hd 3) ∧
          cnt H1 (Hd 3) = cnt (m_H (covered_state 7 knuth [Hd 0])) (Hd 3) ∧
          ∀ i, i ∈ L → rd H1 i = rd (m_H (covered_state 7 knuth [Hd 0])) i ∧
                       is_removed_ud i H1 = false.
Proof.
  apply (cover_keeps_own_column (lay 7 knuth) (covered_state 7 knuth [Hd 0]) (Hd 3) 40).
  - apply lay_ok, inst_okb_ok. reflexivity.
  - apply covered_state_ok.
    + apply inst_okb_ok. reflexivity.
    + apply NoDup_singleton.
    + intros h ->%list_elem_of_singleton. vm_compute. set_solver.
  - vm_compute. set_solver.
  - vm_compute. lia.
Defined.

(** * The solutions of [dlx_exact_cover] *)

(** The loader gives row [i] the id [row_off + i]; the callers take the
    row index back from it. *)
Definition row_index (p : ptr) : nat :=
  match p with
  | RowOff i => i
  | _ => 0%nat
  end.

(** The row indices of [solution[0 .. s-1]]. *)
Definition solution_rows (H : heap) (sl : list dlx_srow) (s : Z) : list nat :=
  (λ e, row_index (dlx_row_id (row_node e) H)) <$> take (Z.to_nat s) sl.

Lemma recorded_take sl path :
  recorded sl 0 path → row_node <$> take (length path) sl = path.
Proof.
  intros Hrec. apply list_eq. intros t. rewrite list_lookup_fmap.
  destruct (decide (t < length path)%nat) as [Ht|Ht].
  - rewrite lookup_take_lt by done.
    destruct (lookup_lt_is_Some_2 path t Ht) as [i Hi].
    rewrite Hi. by apply (Hrec t i).
  - rewrite lookup_take_ge by lia. by rewrite lookup_ge_None_2 by lia.
Qed.

Section decode.
Context (ncols : nat) (rows : list (list nat)) (Hinst : inst_ok ncols rows).
Context (H : heap) (Hrid : rids_ok (lay_rows 0 rows) H).

Lemma row_cols_decode i :
  i ∈ nodes (lay ncols rows) →
  ∃ ri cs, rows !! ri = Some cs ∧ dlx_row_id i H = RowOff ri ∧
           row_cols (lay ncols rows) i ≡ₚ Hd <$> cs.
Proof.
  intros Hi. pose proof (lay_ok ncols rows Hinst) as HΣ.
  destruct (node_row _ i Hi) as (row & l1 & l2 & Hrow & Heq).
  pose proof Hrow as Hrow'. apply list_elem_of_lookup in Hrow' as (ri & Hri).
  simpl in Hri.
  assert (is_Some (rows !! ri)) as [cs Hcs].
  { apply lookup_lt_is_Some. rewrite <- (lay_rows_length rows 0).
    by eapply lookup_lt_Some. }
  destruct (lay_rows_hd rows [] [] ri cs Hcs) as (row' & Hrow'' & Hhd).
  simpl in Hrow'', Hhd. rewrite app_nil_r in Hhd. simplify_eq.
  exists ri, cs. split_and!; [done| |].
  - unfold dlx_row_id.
    assert (Hin : i ∈ l1 ++ i :: l2) by set_solver.
    rewrite decide_False.
    + by apply (Hrid ri _ i Hri).
    + intros ->. apply (row_sub_nodes _ _ _ Hrow) in Hin.
      unfold nodes in Hin. simpl in Hin. rewrite lay_rows_join in Hin.
      by apply list_elem_of_fmap in Hin as (? & ? & _).
  - unfold row_cols. rewrite (others_spec _ HΣ _ l1 i l2 Hrow eq_refl).
    change (l_hd (lay ncols rows)) with (lay_hd (mjoin rows)). rewrite <- Hhd.
    apply fmap_Permutation. rewrite (Permutation_app_comm l1). done.
Qed.

Lemma path_decode path :
  Forall (λ i, i ∈ nodes (lay ncols rows)) path →
  let idx := (λ i, row_index (dlx_row_id i H)) <$> path in
  Forall (λ r, (r < length rows)%nat) idx ∧
  mjoin (row_cols (lay ncols rows) <$> path) ≡ₚ Hd <$> mjoin ((rows !!!.) <$> idx).
Proof.
  induction 1 as [|i path Hi _ [IH1 IH2]]; cbv zeta in *; [done|].
  destruct (row_cols_decode i Hi) as (ri & cs & Hcs & Hid & Hperm).
  rewrite !fmap_cons, Hid. cbn [row_index]. split.
  - constructor; [by eapply lookup_lt_Some|done].
  - change (mjoin (?x :: ?l)) with (x ++ mjoin l). rewrite fmap_app. rewrite (list_lookup_total_correct _ _ _ Hcs).
    by rewrite Hperm, IH2.
Qed.
End decode.

Lemma live_nil Σ : live Σ [] = l_cols Σ.
Proof. unfold live. apply filter_all. Qed.

(** C1. A top-level [dlx_exact_cover] on the matrix built from an instance
    with [ncols] columns returns (the fuel is enough for the whole search);
    when the size [n] it returns is positive, the rows recorded in
    [solution[0 .. n-1]], taken back from the [row_id] of each [row_node],
    are rows of the instance whose column lists, one after the other, are a
    rearrangement of [0, ..., ncols - 1]: they are pairwise disjoint and
    their union is all the columns.  This holds for every initial value of
    [*pnsol]. *)
Theorem exact_cover_solution ncols rows sol0 M fuel :
  inst_ok ncols rows → (ncols ≤ length sol0)%nat →
  (ncols + 3 * length (mjoin rows) + 2 ≤ fuel)%nat →
  ∃ n st, dlx_exact_cover fuel Root 0 (SState sol0 M (build ncols rows)) = Some (n, st) ∧
          (0 < n →
           let idx := solution_rows (mem st) (sol st) n in
           length idx = Z.to_nat n ∧
           Forall (λ r, (r < length rows)%nat) idx ∧
           mjoin ((rows !!!.) <$> idx) ≡ₚ seq 0 ncols).
Proof.
  intros Hinst Hsol Hf.
  pose proof (lay_ok ncols rows Hinst) as HΣ.
  destruct (build_ok ncols rows Hinst) as [Hok Hrid].
  set (Σ := lay ncols rows) in *. set (H0 := build ncols rows) in *.
  assert (Hlc : length (l_cols Σ) = ncols).
  { unfold Σ. simpl. by rewrite length_fmap, length_seq. }
  assert (Hln : length (nodes Σ) = length (mjoin rows)).
  { unfold Σ, nodes. simpl. by rewrite lay_rows_join, length_fmap, length_seq. }
  destruct (search_ok Σ HΣ (eq_ind_r (λ n, Z.of_nat n < 2 ^ 64) (io_cols _ _ Hinst) Hlc)
              fuel (MState [] [] H0) 0 (SState sol0 M H0))
    as ([n st] & Hrun & Hmem & Hlen & Hres); cbn [m_V m_H mem sol]; try done.
  - rewrite live_nil. lia.
  - lia.
  - rewrite live_nil. lia.
  - exists n, st. split; [done|]. intros Hn. cbn [m_V m_H mem sol fst snd] in *.
    destruct Hres as [->|(path & -> & Hrec & Hnodes & Hperm)]; [lia|].
    rewrite live_nil in Hperm.
    unfold solution_rows. rewrite Nat2Z.id. simpl.
    pose proof (recorded_take _ _ Hrec) as Htake.
    destruct (path_decode ncols rows Hinst H0 Hrid path Hnodes) as [Hidx Hdec].
    rewrite Hmem.
    assert (Heq : (λ e, row_index (dlx_row_id (row_node e) H0)) <$> take (length path) (sol st)
                  = (λ i, row_index (dlx_row_id i H0)) <$> path).
    { rewrite <- Htake at 2. by rewrite <- list_fmap_compose. }
    rewrite Heq. split_and!.
    + by rewrite length_fmap.
    + done.
    + fold Σ in Hdec. rewrite Hdec in Hperm. unfold Σ in Hperm. cbn [l_cols lay] in Hperm.
      apply NoDup_Permutation.
      * apply (NoDup_fmap_1 Hd). rewrite Hperm. apply NoDup_fmap_2; [apply _|apply NoDup_seq].
      * apply NoDup_seq.
      * intros c. rewrite <- (list_elem_of_fmap_inj Hd), Hperm, (list_elem_of_fmap_inj Hd). done.
Qed.

(** A [solution] array of [n] entries, not yet written. *)
Definition blank (n : nat) : list dlx_srow := replicate n (Srow Null Null 0).

Lemma exact_cover_solution_witness :
  ∃ n st, dlx_exact_cover 57 Root 0 (SState (blank 7) 1 (build 7 knuth)) = Some (n, st) ∧
          (0 < n →
           let idx := solution_rows (mem st) (sol st) n in
           length idx = Z.to_nat n ∧
           Forall (λ r, (r < length knuth)%nat) idx ∧
           mjoin ((knuth !!!.) <$> idx) ≡ₚ seq 0 7).
Proof.
  apply (exact_cover_solution 7 knuth (blank 7) 1 57).
  - apply inst_okb_ok. reflexivity.
  - vm_compute. lia.
  - vm_compute. lia.
Defined.

(** ** Preselection *)



(** C2. On the matrix of one column and one row, [dlx_force_row] on the
    node of the row returns 0 and takes the column out of the header list;
    [dlx_unselect_row] on the same node then returns -1, since the node is
    still linked in its column, and leaves the matrix as [dlx_force_row]
    left it: the header list is not what it was before the pair. *)
Theorem force_then_unselect_not_restored :
  ∃ H1 H2, dlx_force_row 10 (Nd 0) (build 1 [[0%nat]]) = Some (0, H1) ∧
           dlx_unselect_row 10 (Nd 0) H1 = Some (-1, H2) ∧
           H2 = H1 ∧
           rt (build 1 [[0%nat]]) Root = Hd 0 ∧
           rt H2 Root = Root.
Proof.
  eexists _, _. split_and!.
  - vm_compute. reflexivity.
  - vm_compute. reflexivity.
  - reflexivity.
  - vm_compute. reflexivity.
  - vm_compute. reflexivity.
Qed.

(** C3. With fewer solutions than asked for the result need not be 0:
    on the matrix of one column and one row, [*pnsol = 2] gives the size 1
    of the only solution and leaves [*pnsol = 1]; on the matrix of the rows
    10, 01, 10, 01, which has four solutions, [*pnsol = 5] gives 2 and
    leaves [*pnsol = 1]. *)
Theorem exact_cover_fewer_than_asked :
  (∃ st, dlx_exact_cover 10 Root 0 (SState (blank 1) 2 (build 1 [[0%nat]])) = Some (1, st) ∧
         pnsol st = 1) ∧
  (∃ st, dlx_exact_cover 20 Root 0
           (SState (blank 2) 5 (build 2 [[0]; [1]; [0]; [1]]%nat)) = Some (2, st) ∧
         pnsol st = 1).
Proof. split; vm_compute; eexists; split; reflexivity. Qed.

(** C5. [node_count] is one more than the number of nodes linked in the
    column: [dlx_make_header_row] gives the header of an empty column the
    count 1, and in the matrix built from Knuth's example the first column,
    with two nodes, has the count 3. *)
Theorem header_count_is_one_more :
  cnt (dlx_make_header_row Root 0 1 ∅) (Hd 0) = 1 ∧
  walk_down 5 (Hd 0) (Hd 0) (dlx_make_header_row Root 0 1 ∅) = Some [] ∧
  cnt (build 7 knuth) (Hd 0) = 3 ∧
  walk_down 50 (Hd 0) (Hd 0) (build 7 knuth) = Some [Nd 3; Nd 9].
Proof. split_and!; vm_compute; reflexivity. Qed.

(** ** More on the engine *)

(** A top-level [dlx_exact_cover] on a valid matrix state returns, and
    the memory it leaves is the memory it was given, whatever [*pnsol] is. *)
Theorem exact_cover_restores Σ s sol0 M fuel :
  layout_ok Σ → Z.of_nat (length (l_cols Σ)) < 2 ^ 64 → mstate_ok Σ s →
  (length (l_cols Σ) ≤ length sol0)%nat →
  (length (l_cols Σ) + 3 * length (nodes Σ) + 2 ≤ fuel)%nat →
  ∃ n st, dlx_exact_cover fuel Root 0 (SState sol0 M (m_H s)) = Some (n, st) ∧
          mem st = m_H s.
Proof.
  intros HΣ Hcols Hs Hsol Hf.
  pose proof (live_length_app Σ [] (m_V s)) as Hlive.
  rewrite app_nil_r, live_nil in Hlive.
  destruct (search_ok Σ HΣ Hcols fuel s 0 (SState sol0 M (m_H s)))
    as ([n st] & Hrun & Hmem & _); cbn [mem sol]; try done; try lia.
  exists n, st. done.
Qed.

Lemma exact_cover_restores_witness :
  ∃ n st, dlx_exact_cover 57 Root 0
            (SState (blank 7) 3 (m_H (covered_state 7 knuth [Hd 0]))) = Some (n, st) ∧
          mem st = m_H (covered_state 7 knuth [Hd 0]).
Proof.
  apply (exact_cover_restores (lay 7 knuth) (covered_state 7 knuth [Hd 0]) (blank 7) 3 57).
  - apply lay_ok, inst_okb_ok. reflexivity.
  - vm_compute. reflexivity.
  - apply covered_state_ok.
    + apply inst_okb_ok. reflexivity.
    + apply NoDup_singleton.
    + intros h ->%list_elem_of_singleton. vm_compute. set_solver.
  - vm_compute. lia.
  - vm_compute. lia.
Defined.

(** In a valid matrix state the [node_count] of every column header is
    one more than the number of nodes met by walking down from the header. *)
Theorem node_count_one_more Σ s c fuel :
  layout_ok Σ → mstate_ok Σ s → c ∈ l_cols Σ → (length (nodes Σ) < fuel)%nat →
  ∃ L, walk_down fuel c c (m_H s) = Some L ∧
       cnt (m_H s) c = 1 + Z.of_nat (length L).
Proof.
  intros HΣ [Hok _] Hc Hf. exists (colL Σ (m_R s) c). split.
  - apply walk_down_seg.
    + apply (so_cols _ _ _ _ Hok c Hc).
    + intros (? & _)%colL_elem. by apply (col_not_node Σ HΣ c).
    + pose proof (colL_length Σ (m_R s) c). lia.
  - apply (so_cnt _ _ _ _ Hok c Hc).
Qed.

Lemma node_count_one_more_witness :
  ∃ L, walk_down 17 (Hd 3) (Hd 3) (m_H (covered_state 7 knuth [Hd 0])) = Some L ∧
       cnt (m_H (covered_state 7 knuth [Hd 0])) (Hd 3) = 1 + Z.of_nat (length L).
Proof.
  apply (node_count_one_more (lay 7 knuth) (covered_state 7 knuth [Hd 0]) (Hd 3) 17).
  - apply lay_ok, inst_okb_ok. reflexivity.
  - apply covered_state_ok.
    + apply inst_okb_ok. reflexivity.
    + apply NoDup_singleton.
    + intros h ->%list_elem_of_singleton. vm_compute. set_solver.
  - vm_compute. set_solver.
  - vm_compute. lia.
Defined.

(** On a matrix without columns [dlx_exact_cover] counts one solution of
    size 0: it returns 0 and takes one off [*pnsol]. *)
Theorem exact_cover_empty_matrix sl M fuel :
  dlx_exact_cover (S fuel) Root 0 (SState sl M (build 0 [])) =
  Some (0, SState sl (wrap (M - 1)) (build 0 [])).
Proof. reflexivity. Qed.

(** * The loader *)

(** ** The allocator

    Each call of [malloc], [calloc] or [realloc] takes the next of
    [answers] ([true]: the memory is given); when the list is used up every
    call succeeds.  [blocks] counts the blocks given and not yet freed. *)
Record world : Type := World {
  answers : list bool;
  blocks : Z
}.

(** [malloc] and [calloc] *)
Definition alloc (w : world) : bool * world :=
  match answers w with
  | [] => (true, World [] (blocks w + 1))
  | true :: o => (true, World o (blocks w + 1))
  | false :: o => (false, World o (blocks w))
  end.

(** [realloc] of a block to a size that is not 0: the block stays one
    block, also when the call fails. *)
Definition realloc (w : world) : bool * world :=
  match answers w with
  | [] => (true, w)
  | b :: o => (b, World o (blocks w))
  end.

Definition free (w : world) : world := World (answers w) (blocks w - 1).

(** A block of [cap] bytes holding [size_t] cells of 8 bytes. *)
Record buffer : Type := Buffer {
  cap : Z;
  cells : list Z
}.

Definition ncells (n : Z) : nat := Z.to_nat (n / 8).

(** The block after [realloc] to [n] bytes: the cells that fit are kept. *)
Definition resize (n : Z) (b : buffer) : buffer :=
  Buffer n (take (ncells n) (cells b ++ replicate (ncells n) 0)).

(** [free] of a pointer that may be [NULL]. *)
Definition free_data (d : option buffer) (w : world) : world :=
  match d with
  | Some _ => free w
  | None => w
  end.

(** The cells behind a pointer that may be [NULL]. *)
Definition buf_list (d : option buffer) : list Z :=
  match d with
  | Some b => cells b
  | None => []
  end.

(** ** The dynamic array *)

Record size_t_darray : Type := Darray {
  sz_max : Z;
  sz_cur : Z;
  i_next : Z;
  data : option buffer
}.

Definition size_t_darray_create (sz_initial : Z) (w : world) : option size_t_darray * world :=
  let '(ok1, w1) := alloc w in
  if negb ok1 then (None, w1)
  else
    let '(ok2, w2) := if bool_decide (sz_initial * 8 ≤ SIZE_MAX) then alloc w1 else (false, w1) in
    if negb ok2 then (None, free w2)
    else (Some (Darray sz_initial 0 0
                  (Some (Buffer (sz_initial * 8) (replicate (Z.to_nat sz_initial) 0)))), w2).

Definition size_t_darray_destroy (array : size_t_darray) (w : world) : world := free w.

Definition size_t_darray_grow (array : size_t_darray) (w : world) : Z * size_t_darray * world :=
  let new_size := sz_max array / 2 in
  let new_size := if bool_decide (new_size = 0) then new_size + 1 else new_size in
  let new_size := if bool_decide (new_size > SIZE_MAX - sz_max array)
                  then SIZE_MAX else new_size + sz_max array in
  if bool_decide (new_size ≤ sz_cur array) then (-1, array, w)
  else
    let '(ok, w1) := match data array with Some _ => realloc w | None => alloc w end in
    if negb ok then (-1, array, w1)
    else
      let new_ptr := match data array with
                     | Some b => resize new_size b
                     | None => Buffer new_size (replicate (ncells new_size) 0)
                     end in
      (0, Darray new_size (sz_cur array) (i_next array) (Some new_ptr), w1).

(** The store [data[i] = val]; outside the block the C code has no
    defined behaviour, rendered as [None]. *)
Definition store (i val : Z) (d : option buffer) : option buffer :=
  match d with
  | Some b => if bool_decide (0 ≤ i ∧ 8 * (i + 1) ≤ cap b)
              then Some (Buffer (cap b) (<[Z.to_nat i := val]> (cells b)))
              else None
  | None => None
  end.

Definition size_t_darray_append (array : size_t_darray) (val : Z) (w : world)
    : option (Z * size_t_darray * world) :=
  let '(r, a1, w1) := if bool_decide (sz_cur array > wrap (sz_max array - 8))
                      then size_t_darray_grow array w else (0, array, w) in
  if bool_decide (r ≠ 0) then Some (-1, a1, w1)
  else
    b ← store (i_next a1) val (data a1);
    Some (0, Darray (sz_max a1) (wrap (sz_cur a1 + 8)) (wrap (i_next a1 + 1)) (Some b), w1).

(** [realloc] to 0 bytes frees the block and gives [NULL], as glibc does. *)
Definition size_t_darray_trim (array : size_t_darray) (w : world) : Z * size_t_darray * world :=
  if bool_decide (sz_cur array = 0)
  then (0, Darray 0 (sz_cur array) (i_next array) None, free_data (data array) w)
  else
    let '(ok, w1) := match data array with Some _ => realloc w | None => alloc w end in
    if negb ok then (-1, array, w1)
    else
      let new_ptr := match data array with
                     | Some b => resize (sz_cur array) b
                     | None => Buffer (sz_cur array) (replicate (ncells (sz_cur array)) 0)
                     end in
      (0, Darray (sz_cur array) (sz_cur array) (i_next array) (Some new_ptr), w1).

Definition size_t_darray_export (array : size_t_darray) : option buffer * Z :=
  (data array, i_next array).

Definition size_t_darray_size (array : size_t_darray) : Z := i_next array.

(** ** The reader *)

Record binary_csr_matrix : Type := Csr {
  row_ptr_size : Z;
  col_ind : option buffer;
  row_ptr : option buffer
}.

Definition nl : ascii := "010"%char.

(** What [read_bcsr] does once [getc] has given [EOF]; [ferr] is what
    [ferror] says then. *)
Definition at_eof (ferr : bool) (ci rp : size_t_darray) (max_cols col : Z) (fl_newline : bool)
    (w : world) : option (Z * size_t_darray * size_t_darray * Z * world) :=
  if ferr then Some (-3, ci, rp, max_cols, w)
  else if negb fl_newline then
    '(_, rp1, w1) ← size_t_darray_append rp (size_t_darray_size ci) w;
    Some (0, ci, rp1, if bool_decide (max_cols < col) then col else max_cols, w1)
  else Some (0, ci, rp, max_cols, w).

(** The character loop of [read_bcsr], with what follows it at [EOF];
    the results of the appends are not looked at. *)
Fixpoint read_loop (stream : list ascii) (ferr : bool) (ci rp : size_t_darray)
    (max_cols col : Z) (fl_newline : bool) (w : world)
    : option (Z * size_t_darray * size_t_darray * Z * world) :=
  match stream with
  | [] => at_eof ferr ci rp max_cols col fl_newline w
  | c :: rest =>
      if Ascii.eqb c "1" then
        '(_, ci1, w1) ← size_t_darray_append ci col w;
        read_loop rest ferr ci1 rp max_cols (wrap (col + 1)) false w1
      else if Ascii.eqb c "0" then
        read_loop rest ferr ci rp max_cols (wrap (col + 1)) false w
      else if Ascii.eqb c nl then
        '(_, rp1, w1) ← size_t_darray_append rp (size_t_darray_size ci) w;
        read_loop rest ferr ci rp1 (if bool_decide (max_cols < col) then col else max_cols)
                  0 true w1
      else Some (-2, ci, rp, max_cols, w)
  end.

(** [read_bcsr]: [csr0] and [n0] are what [*csr] and [*n] hold at the
    call; the result is the value returned, [*csr], [*n] and the allocator. *)
Definition read_bcsr (csr0 : binary_csr_matrix) (n0 : Z) (stream : list ascii) (ferr : bool)
    (w : world) : option (Z * binary_csr_matrix * Z * world) :=
  match size_t_darray_create 512 w with
  | (None, w1) => Some (-1, csr0, n0, w1)
  | (Some ci, w1) =>
      match size_t_darray_create 256 w1 with
      | (None, w2) => Some (-1, csr0, n0, w2)
      | (Some rp, w2) =>
          '(_, rp, w3) ← size_t_darray_append rp 0 w2;
          '(ret, ci, rp, max_cols, w4) ← read_loop stream ferr ci rp 0 0 true w3;
          let '(ret, ci, rp, w5) :=
            if bool_decide (ret = 0) then
              let '(t1, ci1, w5) := size_t_darray_trim ci w4 in
              if bool_decide (t1 ≠ 0) then (-1, ci1, rp, w5)
              else
                let '(t2, rp1, w6) := size_t_darray_trim rp w5 in
                if bool_decide (t2 ≠ 0) then (-1, ci1, rp1, w6) else (0, ci1, rp1, w6)
            else (ret, ci, rp, w4) in
          let '(csr, n, w6) :=
            if bool_decide (ret = 0) then
              (Csr (size_t_darray_export rp).2 (size_t_darray_export ci).1
                   (size_t_darray_export rp).1, max_cols, w5)
            else
              (Csr 0 None None, n0,
               free_data (size_t_darray_export rp).1
                 (free_data (size_t_darray_export ci).1 w5)) in
          Some (ret, csr, n,
                size_t_darray_destroy rp (size_t_darray_destroy ci w6))
      end
  end.

(** * The loader: what it computes *)

(** ** The dynamic array holds what was appended *)

(** The array holds the values [xs], in a block that has room for
    [sz_max] bytes at least. *)
Record da_ok (a : size_t_darray) (xs : list Z) : Prop := {
  da_data : ∃ b, data a = Some b ∧ sz_max a ≤ cap b ∧
                 length (cells b) = ncells (cap b) ∧
                 take (length xs) (cells b) = xs;
  da_next : i_next a = Z.of_nat (length xs);
  da_cur : sz_cur a = 8 * i_next a;
  da_min : 16 ≤ sz_max a;
  da_max : sz_max a ≤ SIZE_MAX;
  da_le : sz_cur a ≤ sz_max a
}.

Lemma wrap_id z : 0 ≤ z < 2 ^ 64 → wrap z = z.
Proof. intros. unfold wrap. by apply Z.mod_small. Qed.

Lemma ncells_le n m : 0 ≤ n → 8 * n ≤ m → (Z.to_nat n ≤ ncells m)%nat.
Proof.
  intros Hn Hm. unfold ncells. apply Z2Nat.inj_le; [lia| |].
  - apply Z.div_pos; lia.
  - apply Z.div_le_lower_bound; lia.
Qed.

Lemma take_insert_snoc (l : list Z) n v :
  (n < length l)%nat → take (S n) (<[n := v]> l) = take n l ++ [v].
Proof.
  revert n. induction l as [|x l IH]; intros [|n] Hn; simpl in *; try lia; [done|].
  f_equal. apply IH. lia.
Qed.

Lemma create_ok sz w a w' :
  size_t_darray_create sz w = (Some a, w') → 16 ≤ sz → da_ok a [].
Proof.
  unfold size_t_darray_create. intros Hc Hsz.
  destruct (alloc w) as [ok1 w1]. destruct ok1; cbn [negb] in Hc; [|done].
  destruct (bool_decide (sz * 8 ≤ SIZE_MAX)) eqn:Hb.
  - apply bool_decide_eq_true in Hb.
    destruct (alloc w1) as [ok2 w2]. destruct ok2; cbn [negb] in Hc; [|done].
    simplify_eq. split; cbn; try lia.
    eexists. split; [done|]. cbn. split_and!; [lia| |done].
    rewrite length_replicate. unfold ncells. f_equal.
    rewrite Z.div_mul by done. done.
  - cbn [negb] in Hc. done.
Qed.

(** An append to an array made with room for 16 values or more, of at
    most 2^59 values: it stores the value inside the block, or it fails and
    the array is as it was. *)
Lemma darray_append_ok a xs v w :
  da_ok a xs → Z.of_nat (length xs) < 2 ^ 59 →
  ∃ r a' w', size_t_darray_append a v w = Some (r, a', w') ∧
             ((r = 0 ∧ da_ok a' (xs ++ [v]) ∧ (answers w = [] → w' = w)) ∨
              (r = -1 ∧ a' = a ∧ answers w ≠ [])).
Proof.
  intros [(b & Hb & Hcap & Hlen & Htake) Hnext Hcur Hmin Hmax Hle] Hxs.
  unfold size_t_darray_append.
  rewrite wrap_id by (unfold SIZE_MAX in Hmax; lia).
  assert (Hstore : ∀ b' sm, data a = Some b → sm ≤ cap b' → sz_cur a + 8 ≤ sm → sm ≤ SIZE_MAX →
            length (cells b') = ncells (cap b') →
            take (length xs) (cells b') = xs →
            16 ≤ sm →
            ∃ b2, store (i_next a) v (Some b') = Some b2 ∧
                  da_ok (Darray sm (wrap (sz_cur a + 8)) (wrap (i_next a + 1)) (Some b2))
                        (xs ++ [v])).
  { intros b' sm _ Hc Hs Hm Hl Ht Hmn. unfold store.
    rewrite bool_decide_true by lia.
    eexists. split; [done|].
    rewrite !wrap_id by (unfold SIZE_MAX in *; lia).
    assert (Hn : (length xs < length (cells b'))%nat).
    { rewrite Hl. rewrite <- (Nat2Z.id (length xs)) at 1.
      apply (Nat.lt_le_trans _ (Z.to_nat (Z.of_nat (length xs) + 1))); [lia|].
      apply ncells_le; lia. }
    split; cbn; try lia.
    - eexists. split; [done|]. cbn. split_and!; [lia|by rewrite length_insert|].
      rewrite length_app, Hnext, Nat2Z.id. cbn. rewrite Nat.add_1_r.
      rewrite take_insert_snoc by done. by rewrite Ht.
    - rewrite length_app. cbn. lia. }
  destruct (bool_decide (sz_cur a > sz_max a - 8)) eqn:Hg.
  - apply bool_decide_eq_true in Hg. unfold size_t_darray_grow.
    assert (Hhalf : 8 ≤ sz_max a / 2) by (apply Z.div_le_lower_bound; lia).
    assert (Hhalf' : sz_max a / 2 ≤ sz_max a) by (apply Z.div_le_upper_bound; lia).
    rewrite (bool_decide_false (sz_max a / 2 = 0)) by lia.
    rewrite (bool_decide_false (sz_max a / 2 > SIZE_MAX - sz_max a))
      by (unfold SIZE_MAX; lia).
    rewrite (bool_decide_false (sz_max a / 2 + sz_max a ≤ sz_cur a)) by lia.
    rewrite Hb. unfold realloc. destruct (answers w) as [|[] o] eqn:Ho; cbn [negb].
    + rewrite bool_decide_false by (intros ?; done). cbn [i_next data sz_cur sz_max].
      destruct (Hstore (resize (sz_max a / 2 + sz_max a) b) (sz_max a / 2 + sz_max a))
        as (b2 & -> & Hok); try done; cbn; try lia.
      * unfold SIZE_MAX; lia.
      * rewrite length_take, length_app, length_replicate. lia.
      * rewrite take_take, take_app_le.
        -- rewrite Nat.min_l; [done|]. rewrite <- (Nat2Z.id (length xs)).
           apply ncells_le; lia.
        -- rewrite Nat.min_l.
           ++ rewrite Hlen. rewrite <- (Nat2Z.id (length xs)). apply ncells_le; lia.
           ++ rewrite <- (Nat2Z.id (length xs)). apply ncells_le; lia.
      * cbn. eexists _, _, _. split; [done|]. left. done.
    + rewrite bool_decide_false by (intros ?; done). cbn [i_next data sz_cur sz_max].
      destruct (Hstore (resize (sz_max a / 2 + sz_max a) b) (sz_max a / 2 + sz_max a))
        as (b2 & -> & Hok); try done; cbn; try lia.
      * unfold SIZE_MAX; lia.
      * rewrite length_take, length_app, length_replicate. lia.
      * rewrite take_take, take_app_le.
        -- rewrite Nat.min_l; [done|]. rewrite <- (Nat2Z.id (length xs)).
           apply ncells_le; lia.
        -- rewrite Nat.min_l.
           ++ rewrite Hlen. rewrite <- (Nat2Z.id (length xs)). apply ncells_le; lia.
           ++ rewrite <- (Nat2Z.id (length xs)). apply ncells_le; lia.
      * cbn. eexists _, _, _. split; [done|]. left. split_and!; [done|done|]. intros ?. done.
    + rewrite bool_decide_true by (intros ?; done).
      eexists _, _, _. split; [done|]. right. done.
  - apply bool_decide_eq_false in Hg.
    rewrite bool_decide_false by (intros ?; done).
    destruct (Hstore b (sz_max a)) as (b2 & Hst & Hok); try done; try lia.
    rewrite Hb. rewrite Hst. cbn.
    eexists _, _, _. split; [done|]. left. done.
Qed.

(** ** The rows of a stream *)

(** The rows of a stream, [cur] being the characters of the row at hand:
    a newline ends a row; at the end of the stream the characters after the
    last newline, when there are some, are a last row. *)
Fixpoint rows_acc (cur : list ascii) (s : list ascii) : list (list ascii) :=
  match s with
  | [] => if bool_decide (cur = []) then [] else [cur]
  | c :: rest => if Ascii.eqb c nl then cur :: rows_acc [] rest
                 else rows_acc (cur ++ [c]) rest
  end.

Definition stream_rows (s : list ascii) : list (list ascii) := rows_acc [] s.

(** The columns of the ones of a row whose first character is in column [k]. *)
Fixpoint ones_from (k : nat) (row : list ascii) : list Z :=
  match row with
  | [] => []
  | c :: rest => if Ascii.eqb c "1" then Z.of_nat k :: ones_from (S k) rest
                 else ones_from (S k) rest
  end.

Definition ones_of (row : list ascii) : list Z := ones_from 0 row.

(** The row pointers after the first: the number of entries up to the end
    of each row, [base] being the number before the rows. *)
Fixpoint ptrs (base : nat) (rows : list (list ascii)) : list Z :=
  match rows with
  | [] => []
  | row :: rest => let e := (base + length (ones_of row))%nat in
                   Z.of_nat e :: ptrs e rest
  end.

(** The width of the widest row. *)
Definition max_width (rows : list (list ascii)) : nat :=
  foldr (λ row m, Nat.max (length row) m) 0%nat rows.

Definition well_formed (s : list ascii) : Prop :=
  Forall (λ c, c = "0"%char ∨ c = "1"%char ∨ c = nl) s.

Lemma rows_acc_no_nl row : ∀ cur rest,
  nl ∉ row → rows_acc cur (row ++ nl :: rest) = (cur ++ row) :: rows_acc [] rest.
Proof.
  induction row as [|c row IH]; intros cur rest Hnl; simpl.
  - rewrite ?Ascii.eqb_refl. by rewrite app_nil_r.
  - destruct (Ascii.eqb_spec c nl) as [->|Hc]; [set_solver|].
    rewrite IH by set_solver. by rewrite <- app_assoc.
Qed.

Lemma rows_acc_tail row : ∀ cur,
  nl ∉ row → rows_acc cur row = if bool_decide (cur ++ row = []) then [] else [cur ++ row].
Proof.
  induction row as [|c row IH]; intros cur Hnl; simpl.
  - by rewrite app_nil_r.
  - destruct (Ascii.eqb_spec c nl) as [->|Hc]; [set_solver|].
    rewrite IH by set_solver. by rewrite <- app_assoc.
Qed.

(** The three equations that fix [stream_rows]: the empty stream has no
    row; a newline ends the row before it; characters after the last
    newline are a row of their own. *)
Lemma stream_rows_nil : stream_rows [] = [].
Proof. done. Qed.

Lemma stream_rows_newline row rest :
  nl ∉ row → stream_rows (row ++ nl :: rest) = row :: stream_rows rest.
Proof. intros. unfold stream_rows. by rewrite rows_acc_no_nl. Qed.

Lemma stream_rows_last row :
  nl ∉ row → row ≠ [] → stream_rows row = [row].
Proof.
  intros Hnl Hne. unfold stream_rows. rewrite rows_acc_tail by done.
  by rewrite bool_decide_false.
Qed.

Lemma ones_from_snoc row : ∀ k c,
  ones_from k (row ++ [c]) =
  ones_from k row ++ (if Ascii.eqb c "1" then [Z.of_nat (k + length row)] else []).
Proof.
  induction row as [|x row IH]; intros k c; simpl.
  - rewrite Nat.add_0_r. by destruct (Ascii.eqb c "1").
  - rewrite IH. replace (S k + length row)%nat with (k + S (length row))%nat by lia.
    by destruct (Ascii.eqb x "1").
Qed.

Lemma ones_from_length row : ∀ k, (length (ones_from k row) ≤ length row)%nat.
Proof.
  induction row as [|x row IH]; intros k; simpl; [done|].
  specialize (IH (S k)). destruct (Ascii.eqb x "1"); simpl; lia.
Qed.

(** ** The character loop *)

Ltac eqb_eval :=
  repeat match goal with
         | |- context [Ascii.eqb ?a ?b] =>
             let v := eval vm_compute in (Ascii.eqb a b) in
             change (Ascii.eqb a b) with v
         end;
  cbv iota.

Lemma max_cols_step (m c : nat) :
  (if bool_decide (Z.of_nat m < Z.of_nat c) then Z.of_nat c else Z.of_nat m)
  = Z.of_nat (Nat.max m c).
Proof. case_bool_decide; f_equal; lia. Qed.

Lemma append_all_ok a xs v w :
  da_ok a xs → Z.of_nat (length xs) < 2 ^ 59 → answers w = [] →
  ∃ r a', size_t_darray_append a v w = Some (r, a', w) ∧ da_ok a' (xs ++ [v]).
Proof.
  intros Ha Hxs Hw.
  destruct (darray_append_ok a xs v w Ha Hxs) as (r & a' & w' & Happ & [(-> & Hok & Hw')|(_ & _ & ?)]);
    [|done].
  rewrite (Hw' Hw) in Happ. eauto.
Qed.

Lemma read_loop_ok stream : ∀ cur X ps m ci rp w,
  well_formed stream → answers w = [] →
  da_ok ci (X ++ ones_of cur) → da_ok rp ps →
  Z.of_nat (length X + length cur + length stream) < 2 ^ 58 →
  Z.of_nat (length ps + length stream) + 1 < 2 ^ 59 →
  ∃ ci' rp',
    read_loop stream false ci rp (Z.of_nat m) (Z.of_nat (length cur))
              (bool_decide (cur = [])) w
    = Some (0, ci', rp', Z.of_nat (Nat.max m (max_width (rows_acc cur stream))), w) ∧
    da_ok ci' (X ++ mjoin (ones_of <$> rows_acc cur stream)) ∧
    da_ok rp' (ps ++ ptrs (length X) (rows_acc cur stream)).
Proof.
  induction stream as [|c rest IH]; intros cur X ps m ci rp w Hwf Hw Hci Hrp HbX Hbp.
  - cbn [read_loop rows_acc]. unfold at_eof.
    pose proof (ones_from_length cur 0) as Hones. fold (ones_of cur) in Hones.
    destruct (bool_decide_reflect (cur = [])) as [->|Hcur]; cbn [negb].
    + exists ci, rp. cbn. rewrite Nat.max_0_r, !app_nil_r in *. done.
    + destruct (append_all_ok rp ps (size_t_darray_size ci) w Hrp) as (r & rp' & -> & Hrp');
        [simpl in Hbp; lia|done|].
      cbn. rewrite max_cols_step. exists ci, rp'. split_and!.
      * do 3 f_equal. lia.
      * by rewrite app_nil_r.
      * unfold size_t_darray_size in Hrp'. rewrite (da_next _ _ Hci) in Hrp'.
        by rewrite length_app in Hrp'.
  - unfold well_formed in Hwf. apply list.Forall_cons in Hwf as [Hc Hwf].
    pose proof (ones_from_length cur 0) as Hones. fold (ones_of cur) in Hones.
    cbn [length] in HbX, Hbp.
    destruct Hc as [->|[->| ->]]; cbn [read_loop rows_acc]; eqb_eval.
    + (* '0' *)
      rewrite wrap_id by lia.
      destruct (IH (cur ++ ["0"%char]) X ps m ci rp w) as (ci' & rp' & Hrun & Hci' & Hrp');
        try done.
      * unfold ones_of. rewrite ones_from_snoc. cbn. by rewrite app_nil_r.
      * rewrite length_app. cbn. lia.
      * lia.
      * exists ci', rp'. split_and!; [|done..].
        rewrite <- Hrun. f_equal.
        -- rewrite length_app. cbn. lia.
        -- rewrite bool_decide_false; [done|]. by destruct cur.
    + (* '1' *)
      destruct (append_all_ok ci _ (Z.of_nat (length cur)) w Hci) as (r & ci1 & -> & Hci1);
        [rewrite length_app; lia|done|].
      cbn. rewrite wrap_id by lia.
      destruct (IH (cur ++ ["1"%char]) X ps m ci1 rp w) as (ci' & rp' & Hrun & Hci' & Hrp');
        try done.
      * unfold ones_of. rewrite ones_from_snoc. cbn. by rewrite <- app_assoc in Hci1.
      * rewrite length_app. cbn. lia.
      * lia.
      * exists ci', rp'. split_and!; [|done..].
        rewrite <- Hrun. f_equal.
        -- rewrite length_app. cbn. lia.
        -- rewrite bool_decide_false; [done|]. by destruct cur.
    + (* newline *)
      destruct (append_all_ok rp ps (size_t_darray_size ci) w Hrp) as (r & rp1 & -> & Hrp1);
        [lia|done|].
      cbn. rewrite max_cols_step.
      unfold size_t_darray_size in Hrp1. rewrite (da_next _ _ Hci) in Hrp1.
      destruct (IH [] (X ++ ones_of cur) (ps ++ [Z.of_nat (length (X ++ ones_of cur))])
                   (Nat.max m (length cur)) ci rp1 w)
        as (ci' & rp' & Hrun & Hci' & Hrp'); try done.
      * by rewrite app_nil_r.
      * rewrite length_app. cbn. lia.
      * rewrite length_app. cbn. lia.
      * exists ci', rp'. split_and!.
        -- change (Z.of_nat (length (@nil ascii))) with 0 in Hrun.
           rewrite bool_decide_true in Hrun by done.
           rewrite Hrun. do 3 f_equal. unfold max_width. lia.
        -- cbn. by rewrite app_assoc.
        -- cbn. rewrite <- app_assoc in Hrp'. cbn in Hrp'.
           by rewrite length_app in Hrp'.
Qed.

Lemma ptrs_length rows : ∀ base, length (ptrs base rows) = length rows.
Proof. induction rows as [|row rows IH]; intros base; simpl; [done|]. by rewrite IH. Qed.

Lemma create_all_ok sz bl :
  16 ≤ sz → sz * 8 ≤ SIZE_MAX →
  ∃ a, size_t_darray_create sz (World [] bl) = (Some a, World [] (bl + 1 + 1)) ∧ da_ok a [].
Proof.
  intros Hsz Hmax.
  assert (Hc : size_t_darray_create sz (World [] bl)
               = (Some (Darray sz 0 0 (Some (Buffer (sz * 8) (replicate (Z.to_nat sz) 0)))),
                  World [] (bl + 1 + 1))).
  { unfold size_t_darray_create, alloc. cbn [answers blocks negb].
    by rewrite bool_decide_true by done. }
  eexists. split; [exact Hc|]. by eapply create_ok.
Qed.

Lemma trim_all_ok a xs w :
  da_ok a xs → answers w = [] →
  ∃ a' w', size_t_darray_trim a w = (0, a', w') ∧ answers w' = [] ∧
           buf_list (data a') = xs ∧ i_next a' = Z.of_nat (length xs).
Proof.
  intros [(b & Hb & Hcap & Hlen & Htake) Hnext Hcur Hmin Hmax Hle] Hw.
  unfold size_t_darray_trim. case_bool_decide as Hz.
  - eexists _, _. split; [done|]. rewrite Hb. cbn. split_and!; [done| |done].
    destruct xs; [done|]. cbn in Hnext. lia.
  - rewrite Hb. unfold realloc. rewrite Hw. cbn [negb].
    eexists _, _. split; [done|]. cbn. split_and!; [done| |done].
    assert (Hn : ncells (sz_cur a) = length xs).
    { unfold ncells. rewrite Hcur, Hnext, Z.mul_comm, Z.div_mul by done. lia. }
    rewrite Hn, take_app_le; [done|].
    rewrite Hlen. rewrite <- (Nat2Z.id (length xs)). apply ncells_le; lia.
Qed.

(** C7. For a stream of the characters 0, 1 and newline, read without
    an I/O error and with memory at hand, [read_bcsr] returns 0 and gives
    the CSR form of the rows [stream_rows stream]: every newline ends a row;
    characters after the last newline make a last row, whose entries are
    kept and whose width counts; nothing is added when the stream ends with
    a newline or is empty.  The column count [*n] is the width of the widest
    of these rows. *)
Theorem read_bcsr_rows stream csr0 n0 bl :
  well_formed stream → Z.of_nat (length stream) < 2 ^ 57 →
  ∃ csr w', read_bcsr csr0 n0 stream false (World [] bl)
            = Some (0, csr, Z.of_nat (max_width (stream_rows stream)), w') ∧
            buf_list (col_ind csr) = mjoin (ones_of <$> stream_rows stream) ∧
            buf_list (row_ptr csr) = 0 :: ptrs 0 (stream_rows stream) ∧
            row_ptr_size csr = Z.of_nat (length (stream_rows stream)) + 1.
Proof.
  intros Hwf Hlen. unfold read_bcsr, stream_rows.
  destruct (create_all_ok 512 bl) as (ci & -> & Hci); [lia|unfold SIZE_MAX; lia|].
  destruct (create_all_ok 256 (bl + 1 + 1)) as (rp & -> & Hrp); [lia|unfold SIZE_MAX; lia|].
  set (w := World [] (bl + 1 + 1 + 1 + 1)).
  destruct (append_all_ok rp [] 0 w Hrp) as (r & rp1 & -> & Hrp1); [cbn; lia|done|].
  cbn [mbind option_bind app].
  destruct (read_loop_ok stream [] [] [0] 0%nat ci rp1 w Hwf) as (ci' & rp' & Hrun & Hci' & Hrp');
    try done; cbn [length]; try lia.
  rewrite bool_decide_true in Hrun by done.
  change (Z.of_nat (length (@nil ascii))) with 0 in Hrun.
  change (Z.of_nat 0) with 0 in Hrun. rewrite Hrun. cbn [mbind option_bind].
  rewrite bool_decide_true by done.
  destruct (trim_all_ok ci' _ w Hci') as (ci2 & w2 & -> & Hw2 & Hci2 & _); [done|].
  rewrite bool_decide_false by (intros ?; done).
  destruct (trim_all_ok rp' _ w2 Hrp' Hw2) as (rp2 & w3 & -> & Hw3 & Hrp2 & Hnext).
  rewrite bool_decide_false by (intros ?; done).
  rewrite bool_decide_true by done.
  eexists _, _. split; [done|]. cbn. split_and!; [done|done|].
  rewrite Hnext. cbn. rewrite ptrs_length. lia.
Qed.

Lemma read_bcsr_rows_witness :
  let stream := ["1"; "0"; nl; "0"; "1"]%char in
  ∃ csr w', read_bcsr (Csr 0 None None) 0 stream false (World [] 0)
            = Some (0, csr, Z.of_nat (max_width (stream_rows stream)), w') ∧
            buf_list (col_ind csr) = mjoin (ones_of <$> stream_rows stream) ∧
            buf_list (row_ptr csr) = 0 :: ptrs 0 (stream_rows stream) ∧
            row_ptr_size csr = Z.of_nat (length (stream_rows stream)) + 1.
Proof.
  apply (read_bcsr_rows ["1"; "0"; nl; "0"; "1"]%char (Csr 0 None None) 0 0).
  - unfold well_formed. repeat apply Forall_cons_2; try apply Forall_nil_2;
      first [by left | by right; left | by right; right].
  - vm_compute. reflexivity.
Defined.

(** * The loader: memory *)

(** C8. A stream of 65 ones, with the [realloc] of the first grow of the
    column indices failing: the append of the 65th index fails, and
    [read_bcsr] still returns 0, with 64 indices in a row said to be 65
    wide.  And when the [malloc] of the second array fails, [read_bcsr]
    returns -1 with the two blocks of the first array still allocated. *)
Theorem read_bcsr_failed_append_unreported :
  (∃ csr w', read_bcsr (Csr 0 None None) 0 (replicate 65 "1"%char) false
               (World [true; true; true; true; false] 0) = Some (0, csr, 65, w') ∧
             length (buf_list (col_ind csr)) = 64%nat ∧
             buf_list (row_ptr csr) = [0; 64]) ∧
  (∃ csr w', read_bcsr (Csr 0 None None) 0 (replicate 65 "1"%char) false
               (World [true; true; false] 0) = Some (-1, csr, 0, w') ∧
             blocks w' = 2).
Proof. split; vm_compute; eexists _, _; split_and!; reflexivity. Qed.


(** ** Arrays of 16 values or more *)

(** Appends one after the other, their results not looked at. *)
Fixpoint append_all (a : size_t_darray) (vs : list Z) (w : world)
    : option (size_t_darray * world) :=
  match vs with
  | [] => Some (a, w)
  | v :: rest => '(_, a1, w1) ← size_t_darray_append a v w; append_all a1 rest w1
  end.

Lemma append_all_run vs : ∀ a xs w,
  da_ok a xs → Z.of_nat (length xs + length vs) < 2 ^ 59 →
  ∃ a' w' ys, append_all a vs w = Some (a', w') ∧ da_ok a' (xs ++ ys) ∧
              sublist ys vs ∧ (answers w = [] → ys = vs).
Proof.
  induction vs as [|v vs IH]; intros a xs w Ha Hlen.
  - exists a, w, []. rewrite app_nil_r. done.
  - cbn [append_all].
    destruct (darray_append_ok a xs v w Ha) as (r & a1 & w1 & -> & Hcase); [lia|].
    cbn [mbind option_bind].
    destruct Hcase as [(-> & Ha1 & Hw)|(-> & -> & Hw)].
    + destruct (IH a1 (xs ++ [v]) w1 Ha1) as (a' & w' & ys & Hrun & Ha' & Hsub & Hall).
      { rewrite length_app. cbn [length] in *. lia. }
      exists a', w', (v :: ys). rewrite <- app_assoc in Ha'. split_and!; [done|done| |].
      * by apply sublist_skip.
      * intros Hnil. rewrite (Hw Hnil) in Hall. by rewrite Hall.
    + destruct (IH a xs w1 Ha) as (a' & w' & ys & Hrun & Ha' & Hsub & Hall).
      { cbn [length] in *. lia. }
      exists a', w', ys. split_and!; [done|done| |done].
      by apply sublist_cons.
Qed.

(** An array created for 16 values or more takes any appends, fewer than
    2^59, without a store outside its block: what it holds then are the
    appended values, without those whose append failed for want of memory. *)
Theorem darray_appends_in_bounds sz w0 a w vs :
  size_t_darray_create sz w0 = (Some a, w) → 16 ≤ sz →
  Z.of_nat (length vs) < 2 ^ 59 →
  ∃ a' w' ys, append_all a vs w = Some (a', w') ∧
              take (length ys) (buf_list (data a')) = ys ∧
              size_t_darray_size a' = Z.of_nat (length ys) ∧
              sublist ys vs ∧ (answers w = [] → ys = vs).
Proof.
  intros Hc Hsz Hlen. pose proof (create_ok sz w0 a w Hc Hsz) as Ha.
  destruct (append_all_run vs a [] w Ha) as (a' & w' & ys & Hrun & Ha' & Hsub & Hall);
    [cbn; lia|].
  exists a', w', ys. split_and!; try done.
  - destruct (da_data _ _ Ha') as (b & -> & _ & _ & Htake). done.
  - apply (da_next _ _ Ha').
Qed.

Lemma darray_appends_in_bounds_witness :
  ∃ a' w' ys, append_all (Darray 16 0 0 (Some (Buffer 128 (replicate 16 0))))
                [5; 6; 7] (World [] 2) = Some (a', w') ∧
              take (length ys) (buf_list (data a')) = ys ∧
              size_t_darray_size a' = Z.of_nat (length ys) ∧
              sublist ys [5; 6; 7] ∧ (answers (World [] 2) = [] → ys = [5; 6; 7]).
Proof.
  apply (darray_appends_in_bounds 16 (World [] 0)).
  - reflexivity.
  - lia.
  - vm_compute. reflexivity.
Defined.

(** * More on the engine: the header list *)

(** The cells from [i] rightwards, until [h] is met. *)
Fixpoint walk_right (fuel : nat) (h i : ptr) (H : heap) : option (list ptr) :=
  match fuel with
  | O => None
  | S f => let i' := rt H i in
           if decide (i' = h) then Some [] else (i' ::.) <$> walk_right f h i' H
  end.

Lemma walk_right_seg H h L : ∀ i fuel,
  seg (rt H) (lf H) i L h → h ∉ L → (length L < fuel)%nat →
  walk_right fuel h i H = Some L.
Proof.
  induction L as [|x L IH]; intros i fuel Hseg Hh Hf;
    (destruct fuel as [|f]; [simpl in Hf; lia|]); simpl in *.
  - destruct Hseg as [-> _]. by rewrite decide_True.
  - destruct Hseg as (-> & _ & Hseg). rewrite decide_False by set_solver.
    rewrite (IH x f); [done|done|set_solver|lia].
Qed.

(** [min] is the first of the headers [l] with the least count, or [NULL]
    when there is none. *)
Definition least_of (H : heap) (l : list ptr) (min : ptr) : Prop :=
  (l = [] ∧ min = Null) ∨
  (∃ a b, l = a ++ min :: b ∧
          (∀ x, x ∈ a → cnt H min < cnt H x) ∧
          (∀ x, x ∈ b → cnt H min ≤ cnt H x)).

Lemma hnode_min_count_from_least H L l2 : ∀ l1 min fuel,
  ring (rt H) (lf H) Root L → L = l1 ++ l2 → Root ∉ L → Null ∉ L →
  least_of H l1 min → (length l2 < fuel)%nat →
  ∃ m, hnode_min_count_from fuel Root (List.last l1 Root) min H = Some m ∧ least_of H L m.
Proof.
  induction l2 as [|x l2 IH]; intros l1 min fuel Hring HL HRoot HNull Hinv Hf;
    (destruct fuel as [|f]; [simpl in Hf; lia|]); simpl.
  - pose proof Hring as Hring'. rewrite HL in Hring'.
    destruct (seg_last_hd _ _ _ _ _ _ Hring') as [-> _]. simpl.
    exists min. split; [done|].
    by rewrite HL, app_nil_r.
  - pose proof Hring as Hring'. rewrite HL in Hring'.
    destruct (seg_last_hd _ _ _ _ _ _ Hring') as [-> _]. simpl.
    assert (Hx : x ∈ L) by (rewrite HL; set_solver).
    rewrite decide_False by (by intros ->).
    assert (HL' : L = (l1 ++ [x]) ++ l2) by (by rewrite <- app_assoc).
    simpl in Hf.
    assert (Hstep : ∀ m', least_of H (l1 ++ [x]) m' →
              ∃ m, hnode_min_count_from f Root x m' H = Some m ∧ least_of H L m).
    { intros m' Hm'.
      destruct (IH (l1 ++ [x]) m' f Hring HL' HRoot HNull Hm') as (m & Hm & ?); [lia|].
      rewrite last_snoc_ptr in Hm. eauto. }
    destruct Hinv as [[-> ->]|(a & b & -> & Ha & Hb)].
    + rewrite decide_True by done. apply Hstep.
      right. exists [], []. split; [done|]. split; intros ? []%elem_of_nil.
    + assert (min ≠ Null).
      { intros ->. apply HNull. rewrite HL. set_solver. }
      rewrite decide_False by done.
      case_bool_decide as Hlt.
      * apply Hstep. right. exists (a ++ min :: b), []. split; [done|]. split.
        -- intros y [Hy|[->|Hy]%elem_of_cons]%elem_of_app; [|done|].
           ++ specialize (Ha y Hy). lia.
           ++ specialize (Hb y Hy). lia.
        -- intros ? []%elem_of_nil.
      * apply Hstep. right. exists a, (b ++ [x]). split; [by rewrite <- app_assoc|].
        split; [done|].
        intros y [Hy| ->%list_elem_of_singleton]%elem_of_app; [by apply Hb|lia].
Qed.

(** [hnode_min_count] on a valid matrix state: of the headers met by
    walking right from the root it gives the first one with the least
    [node_count], and [NULL] when the header list is empty. *)
Theorem hnode_min_count_least Σ s fuel :
  layout_ok Σ → mstate_ok Σ s → Null ∉ l_cols Σ → (length (l_cols Σ) < fuel)%nat →
  ∃ L m, walk_right fuel Root Root (m_H s) = Some L ∧
         hnode_min_count fuel Root (m_H s) = Some m ∧
         (L = [] → m = Null) ∧
         (L ≠ [] → ∃ a b, L = a ++ m :: b ∧
                          (∀ x, x ∈ a → cnt (m_H s) m < cnt (m_H s) x) ∧
                          (∀ x, x ∈ b → cnt (m_H s) m ≤ cnt (m_H s) x)).
Proof.
  intros HΣ [Hok _] HNull Hf.
  pose proof (so_hdrs _ _ _ _ Hok) as Hring.
  assert (Hlen : (length (live Σ (m_V s)) ≤ length (l_cols Σ))%nat) by apply length_filter.
  assert (HR : Root ∉ live Σ (m_V s)).
  { intros [? _]%live_elem. by apply (root_not_col Σ HΣ). }
  assert (HN : Null ∉ live Σ (m_V s)) by (by intros [? _]%live_elem).
  destruct (hnode_min_count_from_least (m_H s) (live Σ (m_V s)) (live Σ (m_V s)) [] Null fuel)
    as (m & Hm & Hleast); try done; [by left|lia|].
  exists (live Σ (m_V s)), m. split_and!.
  - apply walk_right_seg; [done|done|lia].
  - done.
  - intros HL. destruct Hleast as [[_ ?]|(a & b & Hab & _)]; [done|].
    rewrite HL in Hab. by destruct a.
  - intros HL. destruct Hleast as [[? _]|?]; done.
Qed.

Lemma hnode_min_count_least_witness :
  let s := covered_state 7 knuth [Hd 0] in
  ∃ L m, walk_right 8 Root Root (m_H s) = Some L ∧
         hnode_min_count 8 Root (m_H s) = Some m ∧
         (L = [] → m = Null) ∧
         (L ≠ [] → ∃ a b, L = a ++ m :: b ∧
                          (∀ x, x ∈ a → cnt (m_H s) m < cnt (m_H s) x) ∧
                          (∀ x, x ∈ b → cnt (m_H s) m ≤ cnt (m_H s) x)).
Proof.
  apply (hnode_min_count_least (lay 7 knuth) (covered_state 7 knuth [Hd 0]) 8).
  - apply lay_ok, inst_okb_ok. reflexivity.
  - apply covered_state_ok.
    + apply inst_okb_ok. reflexivity.
    + apply NoDup_singleton.
    + intros h ->%list_elem_of_singleton. vm_compute. set_solver.
  - vm_compute. set_solver.
  - vm_compute. lia.
Defined.

(** * More on the engine: rows *)

Section rows.
Context (Σ : layout) (HΣ : layout_ok Σ).

Lemma others_hd_nodup i : i ∈ nodes Σ → NoDup (l_hd Σ <$> others Σ i).
Proof.
  intros Hi. destruct (node_row Σ i Hi) as (row & l1 & l2 & Hrow & Heq).
  pose proof (lo_row _ HΣ row Hrow) as Hnd.
  rewrite (others_spec Σ HΣ row l1 i l2) by done.
  rewrite Heq in Hnd.
  assert (Hp : l1 ++ i :: l2 ≡ₚ i :: l2 ++ l1).
  { rewrite (Permutation_app_comm l1). done. }
  rewrite Hp, fmap_cons in Hnd. by apply list.NoDup_cons in Hnd as [_ ?].
Qed.

Lemma cov1_R s h x :
  x ∈ m_R (cov1 Σ s h) ↔ x ∈ trace Σ (colL Σ (m_R s) h) ∨ x ∈ m_R s.
Proof. unfold cov1. simpl. by rewrite elem_of_app, elem_of_reverse. Qed.

(** Covering columns of other nodes of the row of [r], all of them
    unlinked already, leaves [r] linked. *)
Lemma covs_keeps_linked r hs : ∀ s,
  r ∈ nodes Σ → (∀ j, j ∈ others Σ r → j ∈ m_R s) → r ∉ m_R s →
  r ∉ m_R (covs Σ hs s).
Proof.
  induction hs as [|h hs IH]; intros s Hr Hoth HrR; [done|].
  simpl. apply IH; [done| |].
  - intros j Hj. apply cov1_R. right. by apply Hoth.
  - rewrite cov1_R. intros [Ht|?]; [|done].
    apply trace_elem in Ht as (i & Hi & Hri).
    apply colL_elem in Hi as (Hi & _ & HiR).
    apply HiR, Hoth. by apply (others_sym Σ HΣ i r).
Qed.
End rows.

(** [uncover_other_columns i] undoes [cover_other_columns i]: for a node
    [i] of a valid matrix state whose row has its other nodes in columns
    that are not covered, the second run right after the first gives back the
    memory the first started from. *)
Theorem cover_other_columns_inverse Σ s i fuel :
  layout_ok Σ → mstate_ok Σ s → i ∈ nodes Σ →
  (∀ j, j ∈ others Σ i → l_hd Σ j ∈ live Σ (m_V s)) →
  (3 * length (nodes Σ) < fuel)%nat →
  ∃ H1, cover_other_columns fuel i (m_H s) = Some H1 ∧
        uncover_other_columns fuel i H1 = Some (m_H s).
Proof.
  intros HΣ Hs Hi Hlive Hf.
  destruct (cover_other_columns_ok Σ HΣ s i fuel Hs Hi) as (Hc & _ & Hu); try done.
  - by apply others_hd_nodup.
  - intros h (j & -> & Hj)%list_elem_of_fmap. by apply Hlive.
  - eauto.
Qed.

Lemma cover_other_columns_inverse_witness :
  let s := covered_state 7 knuth [] in
  ∃ H1, cover_other_columns 49 (Nd 0) (m_H s) = Some H1 ∧
        uncover_other_columns 49 (Nd 0) H1 = Some (m_H s).
Proof.
  apply (cover_other_columns_inverse (lay 7 knuth) (covered_state 7 knuth []) (Nd 0) 49).
  - apply lay_ok, inst_okb_ok. reflexivity.
  - apply covered_state_ok.
    + apply inst_okb_ok. reflexivity.
    + apply NoDup_nil_2.
    + intros h Hh. by apply elem_of_nil in Hh.
  - vm_compute. set_solver.
  - vm_compute. intros j Hj.
    repeat (apply elem_of_cons in Hj as [->|Hj]; [vm_compute; set_solver|]).
    by apply elem_of_nil in Hj.
  - vm_compute. lia.
Defined.

(** * More on the engine: preselection *)

Section force.
Context (Σ : layout) (HΣ : layout_ok Σ).

(** What a successful [dlx_force_row r] does to a valid matrix state. *)
Lemma force_row_run s r fuel :
  mstate_ok Σ s → r ∈ nodes Σ → r ∉ m_R s → l_hd Σ r ∈ live Σ (m_V s) →
  (3 * length (nodes Σ) < fuel)%nat →
  let s1 := cov1 Σ s (l_hd Σ r) in
  let s2 := cov_row Σ s1 r in
  dlx_force_row fuel r (m_H s) = Some (0, m_H s2) ∧
  mstate_ok Σ s1 ∧ mstate_ok Σ s2 ∧ r ∉ m_R s2 ∧
  uncover_other_columns fuel r (m_H s2) = Some (m_H s1) ∧
  uncover fuel (l_hd Σ r) (m_H s1) = Some (m_H s).
Proof.
  intros Hs Hr HrR Hlive Hf s1 s2. pose proof Hs as [Hok Hal].
  destruct (linked_node Σ HΣ _ _ _ r Hok Hr HrR) as (Hlink & _).
  destruct (cover_ok Σ HΣ _ _ _ (l_hd Σ r) fuel Hok Hal Hlive) as (Hc & _ & _ & Hu); [lia|].
  pose proof (cov1_ok Σ HΣ s _ Hs Hlive) as Hs1.
  assert (Hrc : r ∈ colL Σ (m_R s) (l_hd Σ r)) by (by apply colL_elem).
  destruct (others_live_cov1 Σ HΣ s _ r Hs Hlive Hrc) as [Hnd Hothers].
  destruct (cover_other_columns_ok Σ HΣ _ r fuel Hs1 Hr Hnd Hothers Hf) as (Hco & Hs2 & Huo).
  destruct (cover_facts Σ HΣ _ _ _ Hal Hlive) as [_ HT].
  subst s1 s2. split_and!; try done.
  - unfold dlx_force_row, is_removed_ud. rewrite Hlink, bool_decide_true by done.
    cbn [negb]. rewrite (so_hd _ _ _ _ Hok r Hr), Hc. cbn [mbind option_bind].
    change (rm_all (trace Σ (colL Σ (m_R s) (l_hd Σ r))) (remove_lr (l_hd Σ r) (m_H s)))
      with (m_H (cov1 Σ s (l_hd Σ r))).
    by rewrite Hco.
  - apply (covs_keeps_linked Σ HΣ); [done| |].
    + intros j Hj. apply cov1_R. left. apply trace_elem. eauto.
    + rewrite cov1_R. intros [Ht|?]; [|done].
      by destruct (HT r Ht) as (_ & _ & ? & _).
Qed.
End force.

(** What [dlx_force_row r] does is undone by [uncover_other_columns r]
    followed by [uncover] of the header of [r], the two calls that
    [dlx_unselect_row] makes after its test. *)
Theorem force_row_undone Σ s r fuel :
  layout_ok Σ → mstate_ok Σ s → r ∈ nodes Σ → r ∉ m_R s →
  l_hd Σ r ∈ live Σ (m_V s) → (3 * length (nodes Σ) < fuel)%nat →
  ∃ H2 H1, dlx_force_row fuel r (m_H s) = Some (0, H2) ∧
           uncover_other_columns fuel r H2 = Some H1 ∧
           uncover fuel (hdr H1 r) H1 = Some (m_H s).
Proof.
  intros HΣ Hs Hr HrR Hlive Hf.
  destruct (force_row_run Σ HΣ s r fuel Hs Hr HrR Hlive Hf) as (Hrun & Hs1 & _ & _ & Huo & Hu).
  eexists _, _. split_and!; [exact Hrun|exact Huo|].
  by rewrite (so_hd _ _ _ _ (proj1 Hs1) r Hr).
Qed.

Lemma force_row_undone_witness :
  let s := covered_state 7 knuth [] in
  ∃ H2 H1, dlx_force_row 49 (Nd 0) (m_H s) = Some (0, H2) ∧
           uncover_other_columns 49 (Nd 0) H2 = Some H1 ∧
           uncover 49 (hdr H1 (Nd 0)) H1 = Some (m_H s).
Proof.
  apply (force_row_undone (lay 7 knuth) (covered_state 7 knuth []) (Nd 0) 49).
  - apply lay_ok, inst_okb_ok. reflexivity.
  - apply covered_state_ok.
    + apply inst_okb_ok. reflexivity.
    + apply NoDup_nil_2.
    + intros h Hh. by apply elem_of_nil in Hh.
  - vm_compute. set_solver.
  - vm_compute. set_solver.
  - vm_compute. set_solver.
  - vm_compute. lia.
Defined.

(** After a successful [dlx_force_row r] the node [r] is still linked in
    its column, so [dlx_unselect_row r] returns -1 and changes nothing: the
    column of [r] stays out of the header list. *)
Theorem unselect_after_force_refuses Σ s r fuel :
  layout_ok Σ → mstate_ok Σ s → r ∈ nodes Σ → r ∉ m_R s →
  l_hd Σ r ∈ live Σ (m_V s) → (3 * length (nodes Σ) < fuel)%nat →
  (length (l_cols Σ) < fuel)%nat →
  ∃ H2 L L2, dlx_force_row fuel r (m_H s) = Some (0, H2) ∧
             dlx_unselect_row fuel r H2 = Some (-1, H2) ∧
             walk_right fuel Root Root (m_H s) = Some L ∧
             walk_right fuel Root Root H2 = Some L2 ∧
             hdr (m_H s) r ∈ L ∧ hdr (m_H s) r ∉ L2.
Proof.
  intros HΣ Hs Hr HrR Hlive Hf Hfc.
  destruct (force_row_run Σ HΣ s r fuel Hs Hr HrR Hlive Hf)
    as (Hrun & _ & Hs2 & HrR2 & _ & _).
  set (s2 := cov_row Σ (cov1 Σ s (l_hd Σ r)) r) in *.
  destruct (linked_node Σ HΣ _ _ _ r (proj1 Hs2) Hr HrR2) as (Hlink & _).
  assert (Hwalk : ∀ s', mstate_ok Σ s' →
            walk_right fuel Root Root (m_H s') = Some (live Σ (m_V s'))).
  { intros s' [Hok' _]. apply walk_right_seg.
    - apply (so_hdrs _ _ _ _ Hok').
    - intros [? _]%live_elem. by apply (root_not_col Σ HΣ).
    - assert (length (live Σ (m_V s')) ≤ length (l_cols Σ))%nat by apply length_filter.
      lia. }
  exists (m_H s2), (live Σ (m_V s)), (live Σ (m_V s2)). split_and!.
  - done.
  - unfold dlx_unselect_row, is_removed_ud. by rewrite Hlink, bool_decide_true.
  - by apply Hwalk.
  - by apply Hwalk.
  - by rewrite (so_hd _ _ _ _ (proj1 Hs) r Hr).
  - rewrite (so_hd _ _ _ _ (proj1 Hs) r Hr). intros [_ Hin]%live_elem. apply Hin.
    unfold s2, cov_row. rewrite covs_V. simpl. set_solver.
Qed.

Lemma unselect_after_force_refuses_witness :
  let s := covered_state 7 knuth [] in
  ∃ H2 L L2, dlx_force_row 49 (Nd 0) (m_H s) = Some (0, H2) ∧
             dlx_unselect_row 49 (Nd 0) H2 = Some (-1, H2) ∧
             walk_right 49 Root Root (m_H s) = Some L ∧
             walk_right 49 Root Root H2 = Some L2 ∧
             hdr (m_H s) (Nd 0) ∈ L ∧ hdr (m_H s) (Nd 0) ∉ L2.
Proof.
  apply (unselect_after_force_refuses (lay 7 knuth) (covered_state 7 knuth []) (Nd 0) 49).
  - apply lay_ok, inst_okb_ok. reflexivity.
  - apply covered_state_ok.
    + apply inst_okb_ok. reflexivity.
    + apply NoDup_nil_2.
    + intros h Hh. by apply elem_of_nil in Hh.
  - vm_compute. set_solver.
  - vm_compute. set_solver.
  - vm_compute. set_solver.
  - vm_compute. lia.
  - vm_compute. lia.
Defined.

(** * More on the engine: the size of a solution *)

Lemma path_length Σ V path :
  path_ok Σ V path → (length path ≤ length (live Σ V))%nat.
Proof.
  intros [_ Hperm]. rewrite <- Hperm. clear Hperm.
  induction path as [|i path IH]; [done|].
  rewrite fmap_cons. change (mjoin (?x :: ?l)) with (x ++ mjoin l).
  rewrite length_app. unfold row_cols at 1. rewrite length_fmap. simpl. lia.
Qed.

(** On a valid matrix state a top-level [dlx_exact_cover] with a
    [solution] array of as many entries as there are columns never stores
    outside the array; the size it returns is at most the number of columns,
    and the array keeps its length. *)
Theorem exact_cover_size_bound Σ s sol0 M fuel :
  layout_ok Σ → Z.of_nat (length (l_cols Σ)) < 2 ^ 64 → mstate_ok Σ s →
  (length (l_cols Σ) ≤ length sol0)%nat →
  (length (l_cols Σ) + 3 * length (nodes Σ) + 2 ≤ fuel)%nat →
  ∃ n st, dlx_exact_cover fuel Root 0 (SState sol0 M (m_H s)) = Some (n, st) ∧
          0 ≤ n ≤ Z.of_nat (length (l_cols Σ)) ∧
          length (sol st) = length sol0.
Proof.
  intros HΣ Hcols Hs Hsol Hf.
  pose proof (live_length_app Σ [] (m_V s)) as Hlive.
  rewrite app_nil_r, live_nil in Hlive.
  destruct (search_ok Σ HΣ Hcols fuel s 0 (SState sol0 M (m_H s)))
    as ([n st] & Hrun & _ & Hlen & Hres); cbn [mem sol]; try done; try lia.
  exists n, st. split_and!; try done; cbn [fst snd] in *.
  - destruct Hres as [->|(path & -> & _)]; lia.
  - destruct Hres as [->|(path & -> & _ & Hpath)]; [lia|].
    apply path_length in Hpath. lia.
Qed.

Lemma exact_cover_size_bound_witness :
  ∃ n st, dlx_exact_cover 57 Root 0
            (SState (blank 7) 2 (m_H (covered_state 7 knuth [Hd 0]))) = Some (n, st) ∧
          0 ≤ n ≤ Z.of_nat (length (l_cols (lay 7 knuth))) ∧
          length (sol st) = length (blank 7).
Proof.
  apply (exact_cover_size_bound (lay 7 knuth) (covered_state 7 knuth [Hd 0]) (blank 7) 2 57).
  - apply lay_ok, inst_okb_ok. reflexivity.
  - vm_compute. reflexivity.
  - apply covered_state_ok.
    + apply inst_okb_ok. reflexivity.
    + apply NoDup_singleton.
    + intros h ->%list_elem_of_singleton. vm_compute. set_solver.
  - vm_compute. lia.
  - vm_compute. lia.
Defined.

(** * The search is complete *)

(** Some rows cover the live columns, each exactly once. *)
Definition cover_exists (Σ : layout) (V : list ptr) : Prop := ∃ path, path_ok Σ V path.

(** Every unlinked node is in a row that has a node in a covered column. *)
Definition just_ok (Σ : layout) (s : mstate) : Prop :=
  ∀ j, j ∈ m_R s → ∃ c, c ∈ row_cols Σ j ∧ c ∈ m_V s.

Section complete.
Context (Σ : layout) (HΣ : layout_ok Σ).
Context (Hcols : Z.of_nat (length (l_cols Σ)) < 2 ^ 64).

Lemma row_cols_perm row x :
  row ∈ l_rows Σ → x ∈ row → row_cols Σ x ≡ₚ l_hd Σ <$> row.
Proof.
  intros Hrow Hx. apply list_elem_of_split in Hx as (l1 & l2 & Heq).
  unfold row_cols. rewrite (others_spec Σ HΣ row l1 x l2 Hrow Heq), Heq.
  apply fmap_Permutation. rewrite (Permutation_app_comm l1). done.
Qed.

Lemma row_cols_others i j :
  i ∈ nodes Σ → j ∈ others Σ i → row_cols Σ j ≡ₚ row_cols Σ i.
Proof.
  intros Hi Hj. apply (others_elem Σ HΣ) in Hj as [_ (row & Hrow & Hir & Hjr)]; [|done].
  by rewrite (row_cols_perm row i), (row_cols_perm row j).
Qed.

Lemma just_cov1 s h :
  mstate_ok Σ s → h ∈ live Σ (m_V s) → just_ok Σ s → just_ok Σ (cov1 Σ s h).
Proof.
  intros Hs Hh Hj j HjR. apply (cov1_R Σ) in HjR as [Ht|HjR].
  - apply trace_elem in Ht as (i & Hi & Hji).
    apply colL_elem in Hi as (Hi & Hih & _).
    exists h. split; [|simpl; set_solver].
    rewrite (row_cols_others i j Hi Hji). unfold row_cols. rewrite fmap_cons, Hih.
    set_solver.
  - destruct (Hj j HjR) as (c & ? & ?). exists c. split; [done|]. simpl. set_solver.
Qed.

Lemma just_covs hs : ∀ s,
  mstate_ok Σ s → NoDup hs → (∀ h, h ∈ hs → h ∈ live Σ (m_V s)) → just_ok Σ s →
  just_ok Σ (covs Σ hs s).
Proof.
  induction hs as [|h hs IH]; intros s Hs Hnd Hhs Hj; [done|].
  apply list.NoDup_cons in Hnd as [Hh Hnd]. simpl. apply IH; [|done| |].
  - apply (cov1_ok Σ HΣ); [done|]. apply Hhs. set_solver.
  - intros h' Hh'. apply live_elem. simpl.
    assert (h' ∈ live Σ (m_V s)) as [? ?]%live_elem by (apply Hhs; set_solver).
    split; [done|]. rewrite not_elem_of_cons. split; [|done]. intros ->. done.
  - apply just_cov1; [done| |done]. apply Hhs. set_solver.
Qed.

(** An exact cover of the live columns has a row through the column
    [col]; its node in [col] is linked, and the other rows cover what is
    left when this row is taken. *)
Lemma cover_exists_branch s col :
  mstate_ok Σ s → just_ok Σ s → col ∈ live Σ (m_V s) → cover_exists Σ (m_V s) →
  ∃ i, i ∈ colL Σ (m_R s) col ∧ cover_exists Σ (m_V (cov_row Σ (cov1 Σ s col) i)).
Proof.
  intros Hs Hj Hcol [path [Hall Hperm]].
  assert (Hin : col ∈ mjoin (row_cols Σ <$> path)) by (by rewrite Hperm).
  apply list_elem_of_join in Hin as (cs & Hccs & Hcs).
  apply list_elem_of_fmap in Hcs as (p & -> & Hp).
  rewrite list.Forall_forall in Hall. pose proof (Hall p Hp) as Hpn.
  apply list_elem_of_fmap in Hccs as (i & Hih & Hi). subst col.
  assert (Hin' : i ∈ nodes Σ ∧ row_cols Σ i ≡ₚ row_cols Σ p).
  { apply elem_of_cons in Hi as [->|Hi]; [done|].
    split; [by eapply (others_nodes Σ HΣ)|by apply row_cols_others]. }
  destruct Hin' as [Hin Hrc].
  apply list_elem_of_split in Hp as (l1 & l2 & ->).
  assert (Hperm' : row_cols Σ i ++ mjoin (row_cols Σ <$> (l1 ++ l2)) ≡ₚ live Σ (m_V s)).
  { rewrite <- Hperm, Hrc, !fmap_app, fmap_cons, !join_app.
    change (mjoin (?x :: ?l)) with (x ++ mjoin l).
    rewrite !app_assoc. f_equiv. apply Permutation_app_comm. }
  assert (Hsub : ∀ c, c ∈ row_cols Σ i → c ∈ live Σ (m_V s)).
  { intros c Hc. rewrite <- Hperm'. set_solver. }
  assert (HiR : i ∉ m_R s).
  { intros HiR. destruct (Hj i HiR) as (c & Hc & HcV).
    apply Hsub in Hc. by apply live_elem in Hc as [_ ?]. }
  assert (HiL : i ∈ colL Σ (m_R s) (l_hd Σ i)) by (by apply colL_elem).
  exists i. split; [done|]. exists (l1 ++ l2). split.
  - apply list.Forall_forall. intros x Hx. apply Hall. set_solver.
  - pose proof Hcol as [Hcolc HcolV]%live_elem.
    destruct (others_live Σ HΣ s i Hs Hin) as [Hnd Hlive]; [done|done|].
    unfold cov_row. rewrite covs_V. simpl.
    replace (reverse (l_hd Σ <$> others Σ i) ++ l_hd Σ i :: m_V s)
      with ((reverse (l_hd Σ <$> others Σ i) ++ [l_hd Σ i]) ++ m_V s)
      by (by rewrite <- app_assoc).
    apply (Permutation_app_inv_l (row_cols Σ i)). rewrite Hperm'.
    unfold row_cols. rewrite fmap_cons. symmetry.
    apply (live_split Σ HΣ (m_V s) (l_hd Σ i :: (l_hd Σ <$> others Σ i))).
    + apply list.NoDup_cons. split; [|done].
      intros Hin2. by destruct (Hlive _ Hin2) as [_ Hne].
    + intros x [->|Hx]%elem_of_cons; [done|]. by apply Hlive.
    + intros x. rewrite elem_of_app, elem_of_reverse, list_elem_of_singleton, elem_of_cons.
      tauto.
Qed.
(** What a call at depth [kn] with [*pnsol = P] leaves in [*pnsol]:
    it never goes up; when it is unchanged the result is 0 and no exact
    cover exists; when it is 0 the result is the depth of a leaf. *)
Definition count_post (s : mstate) (kn : nat) (P : Z) (r : Z * sstate) : Prop :=
  0 ≤ pnsol r.2 ≤ P ∧
  (pnsol r.2 = P → r.1 = 0 ∧ ¬ cover_exists Σ (m_V s)) ∧
  (pnsol r.2 = 0 → Z.of_nat kn ≤ r.1 ∧ (live Σ (m_V s) ≠ [] → Z.of_nat kn < r.1)).

Lemma search_rows_full f s col kn len0 P :
  mstate_ok Σ s → just_ok Σ s → col ∈ live Σ (m_V s) →
  (kn + length (live Σ (m_V s)) ≤ length (l_cols Σ))%nat →
  (length (l_cols Σ) ≤ len0)%nat →
  (length (live Σ (m_V s)) + 3 * length (nodes Σ) + 1 ≤ f)%nat →
  P < 2 ^ 64 →
  (∀ s' kn' st', mstate_ok Σ s' → just_ok Σ s' → mem st' = m_H s' →
     (kn' + length (live Σ (m_V s')) ≤ length (l_cols Σ))%nat →
     (length (l_cols Σ) ≤ length (sol st'))%nat →
     (length (live Σ (m_V s')) + 3 * length (nodes Σ) + 2 ≤ f)%nat →
     1 ≤ pnsol st' < 2 ^ 64 →
     ∃ r, dlx_exact_cover f Root (Z.of_nat kn') st' = Some r ∧ search_post Σ s' kn' st' r ∧
          count_post s' kn' (pnsol st') r) →
  let s1 := cov1 Σ s col in
  let L := colL Σ (m_R s) col in
  ∀ L2 L1 g n sl p,
    L = L1 ++ L2 → length sl = len0 → (length L2 < g)%nat →
    loop_inv Σ s1 L kn n sl →
    1 ≤ p ≤ P →
    (p = P → n = 0 ∧ ∀ i, i ∈ L1 → ¬ cover_exists Σ (m_V (cov_row Σ s1 i))) →
    ∃ r, search_rows (dlx_exact_cover f Root) g f col (List.last L1 col)
           (Z.of_nat kn) n (SState sl p (m_H s1)) = Some r ∧
         mem r.2 = m_H s1 ∧ length (sol r.2) = len0 ∧
         loop_inv Σ s1 L kn r.1 (sol r.2) ∧
         0 ≤ pnsol r.2 ≤ P ∧
         (pnsol r.2 = P →
          r.1 = 0 ∧ ∀ i, i ∈ L → ¬ cover_exists Σ (m_V (cov_row Σ s1 i))) ∧
         (pnsol r.2 = 0 → Z.of_nat kn < r.1).
Proof.
  intros Hs Hjs Hcol Hkn Hlen Hf HP IH s1 L.
  pose proof Hs as [Hok Hal].
  assert (Hcolc : col ∈ l_cols Σ) by (by apply live_elem in Hcol as [? _]).
  destruct (cover_ok Σ HΣ _ _ _ col (S (2 * length (nodes Σ))) Hok Hal Hcol)
    as (_ & Hok1 & Hal1 & _); [lia|].
  assert (Hs1 : mstate_ok Σ s1) by (by split).
  assert (Hjs1 : just_ok Σ s1) by (by apply just_cov1).
  destruct (cover_facts Σ HΣ _ _ col Hal Hcol) as [_ HT].
  assert (HL1 : colL Σ (m_R s1) col = L).
  { unfold s1. simpl. apply colL_irrelevant. intros x Hx.
    rewrite elem_of_reverse in Hx. by destruct (HT x Hx) as (_ & _ & ? & _). }
  pose proof (live_length_cons Σ _ _ Hcol) as Hlt.
  assert (HV1 : m_V s1 = col :: m_V s) by done.
  assert (Hoth : ∀ i, i ∈ L → i ∈ nodes Σ ∧ NoDup (l_hd Σ <$> others Σ i) ∧
                 ∀ c, c ∈ l_hd Σ <$> others Σ i → c ∈ live Σ (m_V s1)).
  { intros i HiL. destruct (others_live_cov1 Σ HΣ s col i Hs Hcol HiL) as [? ?].
    split_and!; try done. by apply colL_elem in HiL as (? & _). }
  pose proof (so_cols _ _ _ _ (proj1 Hs1) col Hcolc) as Hring. rewrite HL1 in Hring.
  clear Hok1 Hal1 HT HL1. clearbody s1 L.
  induction L2 as [|i L2 IHL]; intros L1 g n sl p HL Hsl Hg Hinv Hp HpP;
    (destruct g as [|g]; [simpl in Hg; lia|]); simpl.
  - rewrite HL in Hring.
    destruct (seg_last_hd _ _ _ _ _ _ Hring) as [-> _]. simpl.
    rewrite decide_True by done. eexists. split; [done|]. simpl.
    split_and!; try done; try lia.
    intros ->. rewrite HL, app_nil_r. by apply HpP.
  - pose proof Hring as Hring'. rewrite HL in Hring'.
    destruct (seg_last_hd _ _ _ _ _ _ Hring') as [-> _]. simpl.
    assert (HiL : i ∈ L) by (rewrite HL; set_solver).
    destruct (Hoth i HiL) as (Hi & Hnd & Hlive).
    rewrite decide_False by (intros ->; by apply (col_not_node Σ HΣ col)).
    destruct (cover_other_columns_ok Σ HΣ s1 i f Hs1 Hi Hnd Hlive) as (Hcov & Hs2 & Hunc);
      [lia|].
    rewrite Hcov. simpl.
    assert (Hjs2 : just_ok Σ (cov_row Σ s1 i)) by (by apply just_covs).
    assert (Hlive2 : (length (live Σ (m_V (cov_row Σ s1 i))) ≤ length (live Σ (col :: m_V s)))%nat).
    { unfold cov_row. rewrite covs_V, HV1. apply live_length_app. }
    assert (Hwrap : wrap (Z.of_nat kn + 1) = Z.of_nat (kn + 1)).
    { rewrite wrap_small; lia. }
    rewrite Hwrap.
    destruct (IH (cov_row Σ s1 i) (kn + 1)%nat (SState sl p (m_H (cov_row Σ s1 i))))
      as ([n' st'] & Hrec & (Hmem' & Hlen' & Hpost) & (Hp1 & Hp2 & Hp3));
      simpl; try done; try lia.
    rewrite Hrec. simpl in *. rewrite Hmem', Hunc. simpl.
    assert (Hkl : (kn < length (sol st'))%nat) by lia.
    assert (∃ sl2, (if bool_decide (n' > 0) then store_row_node (Z.of_nat kn) i (sol st')
                    else Some (sol st')) = Some sl2 ∧
                   length sl2 = len0 ∧ loop_inv Σ s1 L kn n' sl2) as (sl2 & -> & Hlen2 & Hinv2).
    { destruct Hpost as [->|(path & -> & Hrecd & Hpath)].
      - rewrite bool_decide_false by lia. eexists. split; [done|].
        split; [lia|]. by left.
      - rewrite bool_decide_true by lia.
        destruct (store_row_node_Some kn i (sol st') Hkl) as (sl2 & -> & ? & Hk & Hother).
        eexists. split; [done|]. split; [lia|]. right. exists i, path.
        split_and!; try done.
        intros t j Ht. rewrite Hother by lia. by apply Hrecd. }
    simpl.
    destruct (bool_decide_reflect (pnsol st' = 0)) as [Hz|Hnz].
    + eexists. split; [done|]. simpl. split_and!; try done; try lia.
    + specialize (IHL (L1 ++ [i]) g n' sl2 (pnsol st')).
      rewrite last_snoc_ptr in IHL. apply IHL; try done.
      * by rewrite <- app_assoc.
      * simpl in Hg. lia.
      * lia.
      * intros HpP'. assert (p = P) by lia. assert (pnsol st' = p) by lia.
        destruct (HpP ltac:(done)) as [_ HL1no]. destruct (Hp2 ltac:(done)) as [-> Hno].
        split; [done|]. intros x [Hx| ->%list_elem_of_singleton]%elem_of_app; [by apply HL1no|done].
Qed.

(** The search at any depth, with the account of [*pnsol]. *)
Lemma search_full : ∀ fuel s kn st,
  mstate_ok Σ s → just_ok Σ s → mem st = m_H s →
  (kn + length (live Σ (m_V s)) ≤ length (l_cols Σ))%nat →
  (length (l_cols Σ) ≤ length (sol st))%nat →
  (length (live Σ (m_V s)) + 3 * length (nodes Σ) + 2 ≤ fuel)%nat →
  1 ≤ pnsol st < 2 ^ 64 →
  ∃ r, dlx_exact_cover fuel Root (Z.of_nat kn) st = Some r ∧ search_post Σ s kn st r ∧
       count_post s kn (pnsol st) r.
Proof.
  induction fuel as [|f IH]; intros s kn st Hs Hjs Hmem Hkn Hlen Hf HP; [lia|].
  simpl. rewrite Hmem.
  destruct (decide (rt (m_H s) Root = Root)) as [Hleaf|Hnonleaf].
  - apply (live_nil_iff Σ HΣ Hcols s Hs) in Hleaf.
    eexists. split; [done|]. split.
    + split; [done|]. split; [done|].
      right. exists []. split_and!.
      * simpl. lia.
      * intros t i Ht. done.
      * split; [constructor|]. by rewrite Hleaf.
    + unfold count_post. simpl. rewrite wrap_small by lia. split_and!; try lia.
      intros _. split; [lia|]. by intros ?.
  - assert (Hne : live Σ (m_V s) ≠ []) by (by rewrite <- (live_nil_iff Σ HΣ Hcols s Hs)).
    destruct (hnode_min_count_ok Σ HΣ Hcols s f Hs Hne) as (col & -> & Hcol); [lia|]. simpl.
    pose proof Hs as [Hok Hal].
    destruct (cover_ok Σ HΣ _ _ _ col f Hok Hal Hcol) as (-> & Hok1 & Hal1 & Hunc); [lia|].
    simpl.
    assert (Hpos : (0 < length (live Σ (m_V s)))%nat).
    { destruct (live Σ (m_V s)); [done|simpl; lia]. }
    destruct (store_choice_Some kn
                (cid (rm_all (trace Σ (colL Σ (m_R s) col)) (remove_lr col (m_H s))) col)
                (cnt (rm_all (trace Σ (colL Σ (m_R s) col)) (remove_lr col (m_H s))) col)
                (sol st)) as (sl1 & -> & Hlen1); [lia|].
    simpl.
    pose proof (colL_length Σ (m_R s) col) as HLlen.
    destruct (search_rows_full f s col kn (length (sol st)) (pnsol st) Hs Hjs Hcol Hkn Hlen)
      with (L2 := colL Σ (m_R s) col) (L1 := @nil ptr) (g := f) (n := 0) (sl := sl1)
           (p := pnsol st)
      as ([n st2] & Hloop & Hmem2 & Hlen2 & Hinv & Hc1 & Hc2 & Hc3); try done; try lia.
    { by left. }
    { intros _. split; [done|]. intros ? []%elem_of_nil. }
    simpl in Hloop. rewrite Hloop. simpl in *. rewrite Hmem2, Hunc. simpl.
    eexists. split; [done|]. split.
    + split; [done|]. split; [done|]. simpl.
      destruct Hinv as [->|(i & path & HiL & -> & Hk & Hrecd & Hpath)]; [by left|].
      right. exists (i :: path). split_and!.
      * simpl. lia.
      * by apply recorded_cons.
      * by eapply path_ok_cons.
    + unfold count_post. simpl. split_and!; try lia.
      intros HpP. destruct (Hc2 HpP) as [-> Hno]. split; [done|].
      intros Hex. destruct (cover_exists_branch s col Hs Hjs Hcol Hex) as (i & Hi & Hex').
      by apply (Hno i).
Qed.
End complete.

(** ** On a built matrix *)

(** Some rows of the instance have column lists that, one after the
    other, are a rearrangement of [0, ..., ncols - 1]. *)
Definition has_cover (ncols : nat) (rows : list (list nat)) : Prop :=
  ∃ idx, Forall (λ r, (r < length rows)%nat) idx ∧
         mjoin ((rows !!!.) <$> idx) ≡ₚ seq 0 ncols.

Section instance.
Context (ncols : nat) (rows : list (list nat)) (Hinst : inst_ok ncols rows).

Lemma row_node_for r cs :
  rows !! r = Some cs → cs ≠ [] →
  ∃ x, x ∈ nodes (lay ncols rows) ∧ row_cols (lay ncols rows) x ≡ₚ Hd <$> cs.
Proof.
  intros Hr Hne. pose proof (lay_ok ncols rows Hinst) as HΣ.
  destruct (lay_rows_hd rows [] [] r cs Hr) as (row & Hrow & Hhd).
  simpl in Hrow, Hhd. rewrite app_nil_r in Hhd.
  assert (Hin : row ∈ l_rows (lay ncols rows)) by (by eapply list_elem_of_lookup_2).
  destruct row as [|x row]; [by destruct cs|].
  exists x. split.
  - apply (row_sub_nodes _ (x :: row) x Hin). set_solver.
  - rewrite (row_cols_perm _ HΣ (x :: row) x Hin) by set_solver. by rewrite <- Hhd.
Qed.

Lemma has_cover_path idx :
  Forall (λ r, (r < length rows)%nat) idx →
  ∃ path, Forall (λ i, i ∈ nodes (lay ncols rows)) path ∧
          mjoin (row_cols (lay ncols rows) <$> path) ≡ₚ Hd <$> mjoin ((rows !!!.) <$> idx).
Proof.
  induction 1 as [|r idx Hr _ (path & Hall & Hperm)]; [by exists []|].
  destruct (lookup_lt_is_Some_2 rows r Hr) as [cs Hcs].
  rewrite fmap_cons. change (mjoin (?x :: ?l)) with (x ++ mjoin l).
  rewrite (list_lookup_total_correct _ _ _ Hcs), fmap_app.
  destruct cs as [|c cs].
  - exists path. done.
  - destruct (row_node_for r (c :: cs) Hcs) as (x & Hx & Hxc); [done|].
    exists (x :: path). split; [by constructor|].
    rewrite fmap_cons. change (mjoin (?x :: ?l)) with (x ++ mjoin l).
    by rewrite Hxc, Hperm.
Qed.

Lemma has_cover_exists : has_cover ncols rows → cover_exists (lay ncols rows) [].
Proof.
  intros (idx & Hidx & Hperm). destruct (has_cover_path idx Hidx) as (path & Hall & Hp).
  exists path. split; [done|]. rewrite Hp, Hperm, live_nil. done.
Qed.

Lemma path_has_cover H path :
  rids_ok (lay_rows 0 rows) H → path_ok (lay ncols rows) [] path → has_cover ncols rows.
Proof.
  intros Hrid [Hnodes Hperm].
  destruct (path_decode ncols rows Hinst H Hrid path Hnodes) as [Hidx Hdec].
  eexists. split; [exact Hidx|].
  rewrite Hdec, live_nil in Hperm. cbn [l_cols lay] in Hperm.
  apply NoDup_Permutation.
  - apply (NoDup_fmap_1 Hd). rewrite Hperm. apply NoDup_fmap_2; [apply _|apply NoDup_seq].
  - apply NoDup_seq.
  - intros c. rewrite <- (list_elem_of_fmap_inj Hd), Hperm, (list_elem_of_fmap_inj Hd). done.
Qed.
End instance.

(** With [*pnsol = 1], on the matrix built from an instance with at least
    one column, [dlx_exact_cover] returns 0 exactly when no choice of rows
    of the instance is an exact cover of the columns. *)
Theorem exact_cover_first_complete ncols rows sol0 fuel :
  inst_ok ncols rows → (0 < ncols)%nat → (ncols ≤ length sol0)%nat →
  (ncols + 3 * length (mjoin rows) + 2 ≤ fuel)%nat →
  ∃ n st, dlx_exact_cover fuel Root 0 (SState sol0 1 (build ncols rows)) = Some (n, st) ∧
          (n = 0 ↔ ¬ has_cover ncols rows).
Proof.
  intros Hinst Hpos Hsol Hf.
  pose proof (lay_ok ncols rows Hinst) as HΣ.
  destruct (build_ok ncols rows Hinst) as [Hok Hrid].
  set (Σ := lay ncols rows) in *. set (H0 := build ncols rows) in *.
  assert (Hlc : length (l_cols Σ) = ncols).
  { unfold Σ. simpl. by rewrite length_fmap, length_seq. }
  assert (Hln : length (nodes Σ) = length (mjoin rows)).
  { unfold Σ, nodes. simpl. by rewrite lay_rows_join, length_fmap, length_seq. }
  destruct (search_full Σ HΣ (eq_ind_r (λ n, Z.of_nat n < 2 ^ 64) (io_cols _ _ Hinst) Hlc)
              fuel (MState [] [] H0) 0 (SState sol0 1 H0))
    as ([n st] & Hrun & (Hmem & Hlen & Hres) & (Hc1 & Hc2 & Hc3));
    cbn [m_V m_H m_R mem sol pnsol]; try done.
  - intros j Hj. by apply elem_of_nil in Hj.
  - rewrite live_nil. lia.
  - lia.
  - rewrite live_nil. lia.
  - exists n, st. split; [done|]. cbn [m_V m_H mem sol pnsol fst snd] in *.
    assert (Hne : live Σ [] ≠ []).
    { rewrite live_nil. intros Hnil. rewrite Hnil in Hlc. simpl in Hlc. lia. }
    split.
    + intros ->. intros Hcov.
      destruct (decide (pnsol st = 0)) as [Hz|Hnz].
      * destruct (Hc3 Hz) as [_ Hlt]. specialize (Hlt Hne). lia.
      * destruct Hc2 as [_ Hno]; [lia|]. by apply Hno, has_cover_exists.
    + intros Hno. destruct Hres as [->|(path & -> & _ & Hpath)]; [done|].
      exfalso. apply Hno. by apply (path_has_cover ncols rows Hinst H0 path).
Qed.

Lemma exact_cover_first_complete_witness :
  ∃ n st, dlx_exact_cover 57 Root 0 (SState (blank 7) 1 (build 7 knuth)) = Some (n, st) ∧
          (n = 0 ↔ ¬ has_cover 7 knuth).
Proof.
  apply (exact_cover_first_complete 7 knuth (blank 7) 57).
  - apply inst_okb_ok. reflexivity.
  - lia.
  - vm_compute. lia.
  - vm_compute. lia.
Defined.

(** The counter [*pnsol], on the matrix built from an instance with at
    least one column and with [1 <= M] asked for: it never goes up nor
    below 0; when it comes back as 0 the size returned is positive; when it
    comes back unchanged the size returned is 0 and no choice of rows of the
    instance is an exact cover. *)
Theorem exact_cover_counter ncols rows sol0 M fuel :
  inst_ok ncols rows → (0 < ncols)%nat → (ncols ≤ length sol0)%nat →
  (ncols + 3 * length (mjoin rows) + 2 ≤ fuel)%nat → 1 ≤ M < 2 ^ 64 →
  ∃ n st, dlx_exact_cover fuel Root 0 (SState sol0 M (build ncols rows)) = Some (n, st) ∧
          0 ≤ pnsol st ≤ M ∧
          (pnsol st = 0 → 0 < n) ∧
          (pnsol st = M → n = 0 ∧ ¬ has_cover ncols rows).
Proof.
  intros Hinst Hpos Hsol Hf HM.
  pose proof (lay_ok ncols rows Hinst) as HΣ.
  destruct (build_ok ncols rows Hinst) as [Hok Hrid].
  set (Σ := lay ncols rows) in *. set (H0 := build ncols rows) in *.
  assert (Hlc : length (l_cols Σ) = ncols).
  { unfold Σ. simpl. by rewrite length_fmap, length_seq. }
  assert (Hln : length (nodes Σ) = length (mjoin rows)).
  { unfold Σ, nodes. simpl. by rewrite lay_rows_join, length_fmap, length_seq. }
  destruct (search_full Σ HΣ (eq_ind_r (λ n, Z.of_nat n < 2 ^ 64) (io_cols _ _ Hinst) Hlc)
              fuel (MState [] [] H0) 0 (SState sol0 M H0))
    as ([n st] & Hrun & _ & (Hc1 & Hc2 & Hc3));
    cbn [m_V m_H m_R mem sol pnsol]; try done.
  - intros j Hj. by apply elem_of_nil in Hj.
  - rewrite live_nil. lia.
  - lia.
  - rewrite live_nil. lia.
  - exists n, st. split; [done|]. cbn [m_V m_H mem sol pnsol fst snd] in *.
    assert (Hne : live Σ [] ≠ []).
    { rewrite live_nil. intros Hnil. rewrite Hnil in Hlc. simpl in Hlc. lia. }
    split_and!; try lia.
    + intros Hz. destruct (Hc3 Hz) as [_ Hlt]. specialize (Hlt Hne). lia.
    + intros HM'. destruct (Hc2 HM') as [-> Hno]. split; [done|].
      intros Hcov. by apply Hno, has_cover_exists.
Qed.

Lemma exact_cover_counter_witness :
  ∃ n st, dlx_exact_cover 57 Root 0 (SState (blank 7) 3 (build 7 knuth)) = Some (n, st) ∧
          0 ≤ pnsol st ≤ 3 ∧
          (pnsol st = 0 → 0 < n) ∧
          (pnsol st = 3 → n = 0 ∧ ¬ has_cover 7 knuth).
Proof.
  apply (exact_cover_counter 7 knuth (blank 7) 3 57).
  - apply inst_okb_ok. reflexivity.
  - lia.
  - vm_compute. lia.
  - vm_compute. lia.
  - lia.
Defined.

(** * The links of a built matrix *)

Lemma filter_fmap_ptr {A} (f : A → ptr) (P : ptr → Prop) `{!∀ x, Decision (P x)} (l : list A) :
  filter P (f <$> l) = f <$> filter (λ a, P (f a)) l.
Proof.
  induction l as [|a l IH]; [done|]. rewrite fmap_cons.
  destruct (decide (P (f a))) as [Ha|Ha].
  - rewrite !filter_cons_True by done. by rewrite fmap_cons, IH.
  - rewrite !filter_cons_False by done. done.
Qed.

Lemma lay_rows_lookup rows : ∀ off r cs,
  rows !! r = Some cs →
  lay_rows off rows !! r = Some (Nd <$> seq (off + length (mjoin (take r rows))) (length cs)).
Proof.
  induction rows as [|cs0 rows IH]; intros off r cs Hr; [done|].
  destruct r as [|r]; simpl in *.
  - simplify_eq. by rewrite Nat.add_0_r.
  - rewrite (IH _ r cs Hr). rewrite length_app. do 3 f_equal. lia.
Qed.

Lemma mjoin_lookup_row (rows : list (list nat)) r cs t :
  rows !! r = Some cs → (t < length cs)%nat →
  mjoin rows !!! (length (mjoin (take r rows)) + t)%nat = cs !!! t.
Proof.
  intros Hr Ht.
  assert (Heq : mjoin rows = mjoin (take r rows) ++ cs ++ mjoin (drop (S r) rows)).
  { change (cs ++ mjoin (drop (S r) rows)) with (mjoin (cs :: drop (S r) rows)).
    rewrite <- join_app. by rewrite take_drop_middle. }
  rewrite Heq at 1.
  rewrite lookup_total_app_r by lia.
  replace (length (mjoin (take r rows)) + t - length (mjoin (take r rows)))%nat with t by lia.
  by rewrite lookup_total_app_l.
Qed.

(** The matrix that [dlx_make_header_row], [dlx_make_row] and
    [dlx_add_row] build from an instance: the header list holds the columns
    in order; the list of column [c] holds the nodes of the rows that name
    [c], in the order of the rows; the nodes of a row are a circular list in
    the order of the row, each with the header of its column and the id of
    its row. *)
Theorem build_links ncols rows fuel :
  inst_ok ncols rows → (ncols + length (mjoin rows) < fuel)%nat →
  walk_right fuel Root Root (build ncols rows) = Some (Hd <$> seq 0 ncols) ∧
  (∀ c, (c < ncols)%nat →
     walk_down fuel (Hd c) (Hd c) (build ncols rows)
     = Some (Nd <$> filter (λ k, mjoin rows !!! k = c) (seq 0 (length (mjoin rows))))) ∧
  (∀ r cs t, rows !! r = Some cs → (t < length cs)%nat →
     let off := length (mjoin (take r rows)) in
     walk_right fuel (Nd (off + t)) (Nd (off + t)) (build ncols rows)
     = Some (Nd <$> (seq (off + t + 1) (length cs - t - 1) ++ seq off t)) ∧
     rid (build ncols rows) (Nd (off + t)) = RowOff r ∧
     hdr (build ncols rows) (Nd (off + t)) = Hd (cs !!! t)).
Proof.
  intros Hinst Hf. pose proof (lay_ok ncols rows Hinst) as HΣ.
  destruct (build_ok ncols rows Hinst) as [[Hok _] Hrid].
  set (Σ := lay ncols rows) in *. set (H := build ncols rows) in *.
  cbn [m_V m_R m_H] in Hok.
  assert (Hnodes : nodes Σ = Nd <$> seq 0 (length (mjoin rows))).
  { unfold Σ, nodes. simpl. by rewrite lay_rows_join. }
  split_and!.
  - apply walk_right_seg.
    + pose proof (so_hdrs _ _ _ _ Hok) as Hring. by rewrite live_nil in Hring.
    + intros (? & ? & _)%list_elem_of_fmap. done.
    + rewrite length_fmap, length_seq. lia.
  - intros c Hc.
    assert (Hcc : Hd c ∈ l_cols Σ).
    { unfold Σ. simpl. apply list_elem_of_fmap_2, elem_of_seq. lia. }
    pose proof (so_cols _ _ _ _ Hok _ Hcc) as Hring.
    assert (HL : colL Σ [] (Hd c)
                 = Nd <$> filter (λ k, mjoin rows !!! k = c) (seq 0 (length (mjoin rows)))).
    { unfold colL. rewrite filter_all. unfold col0. rewrite Hnodes, filter_fmap_ptr.
      f_equal. apply list_filter_iff. intros k. unfold Σ. simpl. split; [congruence|by intros ->]. }
    rewrite HL in Hring. apply walk_down_seg; [done| |].
    + intros (? & ? & _)%list_elem_of_fmap. done.
    + rewrite length_fmap. etrans; [|exact Hf].
      apply Nat.le_lt_trans with (length (seq 0 (length (mjoin rows)))); [apply length_filter|].
      rewrite length_seq. lia.
  - intros r cs t Hr Ht off.
    pose proof (lay_rows_lookup rows 0 r cs Hr) as Hrow. simpl in Hrow. fold off in Hrow.
    set (row := Nd <$> seq off (length cs)) in *.
    assert (Hin : row ∈ l_rows Σ) by (by eapply list_elem_of_lookup_2).
    assert (Hsplit : row = (Nd <$> seq off t) ++ Nd (off + t)
                           :: (Nd <$> seq (off + t + 1) (length cs - t - 1))).
    { unfold row. replace (length cs) with (t + S (length cs - t - 1))%nat at 1 by lia.
      rewrite seq_app, fmap_app. cbn [seq]. rewrite fmap_cons.
      by replace (S (off + t)) with (off + t + 1)%nat by lia. }
    assert (Hx : Nd (off + t) ∈ row) by (rewrite Hsplit; set_solver).
    split_and!.
    + pose proof (so_rows _ _ _ _ Hok row _ _ _ Hin Hsplit) as Hring.
      rewrite fmap_app. apply walk_right_seg; [done| |].
      * pose proof (row_nodup Σ HΣ row Hin) as Hnd. rewrite Hsplit in Hnd.
        apply list.NoDup_app in Hnd as (_ & Hd1 & Hnd2).
        apply list.NoDup_cons in Hnd2 as [Hd2 _].
        intros [?|?]%elem_of_app; [done|]. eapply Hd1; [done|set_solver].
      * rewrite length_app, !length_fmap, !length_seq.
        assert (length cs ≤ length (mjoin rows))%nat; [|lia].
        assert (Heq : mjoin rows = mjoin (take r rows) ++ cs ++ mjoin (drop (S r) rows)).
        { change (cs ++ mjoin (drop (S r) rows)) with (mjoin (cs :: drop (S r) rows)).
          rewrite <- join_app. by rewrite take_drop_middle. }
        rewrite Heq, !length_app. lia.
    + by apply (Hrid r row).
    + rewrite (so_hd _ _ _ _ Hok); [|by eapply (row_sub_nodes Σ)].
      unfold Σ. cbn [l_hd lay lay_hd]. unfold off. by rewrite (mjoin_lookup_row rows r cs t).
Qed.

Lemma build_links_witness :
  walk_right 24 Root Root (build 7 knuth) = Some (Hd <$> seq 0 7) ∧
  (∀ c, (c < 7)%nat →
     walk_down 24 (Hd c) (Hd c) (build 7 knuth)
     = Some (Nd <$> filter (λ k, mjoin knuth !!! k = c) (seq 0 (length (mjoin knuth))))) ∧
  (∀ r cs t, knuth !! r = Some cs → (t < length cs)%nat →
     let off := length (mjoin (take r knuth)) in
     walk_right 24 (Nd (off + t)) (Nd (off + t)) (build 7 knuth)
     = Some (Nd <$> (seq (off + t + 1) (length cs - t - 1) ++ seq off t)) ∧
     rid (build 7 knuth) (Nd (off + t)) = RowOff r ∧
     hdr (build 7 knuth) (Nd (off + t)) = Hd (cs !!! t)).
Proof.
  apply (build_links 7 knuth 24).
  - apply inst_okb_ok. reflexivity.
  - vm_compute. lia.
Defined.

(** * The reader with any allocator *)

(** 1 for a pointer to a block, 0 for [NULL]. *)
Definition nb (d : option buffer) : Z := if d is Some _ then 1 else 0.

Lemma realloc_blocks w : blocks (realloc w).2 = blocks w.
Proof. unfold realloc. by destruct (answers w). Qed.

Lemma append_blocks a xs v w r a' w' :
  da_ok a xs → size_t_darray_append a v w = Some (r, a', w') → blocks w' = blocks w.
Proof.
  intros [(b & Hb & _) _ _ _ _ _]. unfold size_t_darray_append, size_t_darray_grow.
  rewrite Hb. pose proof (realloc_blocks w) as Hre.
  destruct (realloc w) as [ok w1]. simpl in Hre.
  repeat case_bool_decide; destruct ok; cbn [negb];
    repeat case_bool_decide; try done;
    try (intros ?; simplify_eq; done);
    try (destruct (store _ _ _); cbn; intros ?; simplify_eq; done).
Qed.

Lemma trim_any a xs w :
  da_ok a xs →
  ∃ t a' w', size_t_darray_trim a w = (t, a', w') ∧
             ((t = 0 ∧ i_next a' = i_next a) ∨ (t = -1 ∧ a' = a)) ∧
             blocks w' = blocks w - 1 + nb (data a').
Proof.
  intros [(b & Hb & _) _ _ _ _ _]. unfold size_t_darray_trim. rewrite Hb.
  pose proof (realloc_blocks w) as Hre.
  destruct (realloc w) as [ok w1]. simpl in Hre.
  case_bool_decide.
  - eexists _, _, _. split; [done|]. cbn. split; [by left|lia].
  - destruct ok; cbn [negb]; eexists _, _, _; (split; [done|]); cbn.
    + split; [by left|lia].
    + rewrite Hb. cbn. split; [by right|lia].
Qed.

(** The character loop with any allocator: no store is outside the
    arrays, the blocks stay as many, and the result tells what ended the
    loop. *)
Lemma read_loop_any stream ferr : ∀ ci rp xs ps m col fl w,
  da_ok ci xs → da_ok rp ps →
  Z.of_nat (length xs + length stream) < 2 ^ 58 →
  Z.of_nat (length ps + length stream) + 1 < 2 ^ 59 →
  ∃ ret ci' rp' m' w' xs' ps',
    read_loop stream ferr ci rp m col fl w = Some (ret, ci', rp', m', w') ∧
    da_ok ci' xs' ∧ da_ok rp' ps' ∧ blocks w' = blocks w ∧
    (ret = -2 ∧ ¬ well_formed stream ∨
     ret = -3 ∧ well_formed stream ∧ ferr = true ∨
     ret = 0 ∧ well_formed stream ∧ ferr = false).
Proof.
  induction stream as [|c rest IH]; intros ci rp xs ps m col fl w Hci Hrp Hbx Hbp.
  - cbn [read_loop]. unfold at_eof. destruct ferr.
    + eexists _, _, _, _, _, _, _. split; [done|]. split_and!; try done.
      right. left. split_and!; [done|constructor|done].
    + destruct fl; cbn [negb].
      * eexists _, _, _, _, _, _, _. split; [done|]. split_and!; try done.
        right. right. split_and!; [done|constructor|done].
      * destruct (darray_append_ok rp ps (size_t_darray_size ci) w Hrp)
          as (r & rp' & w' & Happ & Hcase); [cbn [length] in Hbp; lia|].
        pose proof (append_blocks _ _ _ _ _ _ _ Hrp Happ) as Hbl.
        rewrite Happ. cbn.
        assert (∃ ps1, da_ok rp' ps1) as [ps1 Hrp1].
        { destruct Hcase as [(_ & ? & _)|(_ & -> & _)]; eauto. }
        eexists _, _, _, _, _, _, _. split; [done|].
        split_and!; [done|exact Hrp1|done|right; right; split_and!; [done|constructor|done]].
  - cbn [read_loop]. cbn [length] in Hbx, Hbp.
    assert (Hcons : ∀ P : Prop, (c = "0"%char ∨ c = "1"%char ∨ c = nl) →
              (well_formed rest ↔ P) → (well_formed (c :: rest) ↔ P)).
    { intros P Hc HP. rewrite <- HP. unfold well_formed. rewrite list.Forall_cons. tauto. }
    destruct (Ascii.eqb_spec c "1") as [->|Hn1].
    + destruct (darray_append_ok ci xs col w Hci) as (r & ci1 & w1 & Happ & Hcase); [lia|].
      pose proof (append_blocks _ _ _ _ _ _ _ Hci Happ) as Hbl.
      rewrite Happ. cbn [mbind option_bind].
      assert (∃ xs1, da_ok ci1 xs1 ∧ (length xs1 ≤ length xs + 1)%nat) as (xs1 & Hci1 & Hl1).
      { destruct Hcase as [(_ & ? & _)|(_ & -> & _)].
        - eexists. split; [done|]. rewrite length_app. simpl. lia.
        - exists xs. split; [done|lia]. }
      destruct (IH ci1 rp xs1 ps m (wrap (col + 1)) false w1 Hci1 Hrp)
        as (ret & ci' & rp' & m' & w' & xs' & ps' & Hrun & ? & ? & Hbl' & Hret); [lia|lia|].
      eexists _, _, _, _, _, _, _. split; [exact Hrun|]. split_and!; try done; [lia|].
      unfold well_formed in *. rewrite list.Forall_cons. intuition.
    + destruct (Ascii.eqb_spec c "0") as [->|Hn0].
      * destruct (IH ci rp xs ps m (wrap (col + 1)) false w Hci Hrp)
          as (ret & ci' & rp' & m' & w' & xs' & ps' & Hrun & ? & ? & Hbl' & Hret); [lia|lia|].
        eexists _, _, _, _, _, _, _. split; [exact Hrun|]. split_and!; try done.
        unfold well_formed in *. rewrite list.Forall_cons. intuition.
      * destruct (Ascii.eqb_spec c nl) as [->|Hnn].
        -- destruct (darray_append_ok rp ps (size_t_darray_size ci) w Hrp)
             as (r & rp1 & w1 & Happ & Hcase); [lia|].
           pose proof (append_blocks _ _ _ _ _ _ _ Hrp Happ) as Hbl.
           rewrite Happ. cbn [mbind option_bind].
           assert (∃ ps1, da_ok rp1 ps1 ∧ (length ps1 ≤ length ps + 1)%nat)
             as (ps1 & Hrp1 & Hl1).
           { destruct Hcase as [(_ & ? & _)|(_ & -> & _)].
             - eexists. split; [done|]. rewrite length_app. simpl. lia.
             - exists ps. split; [done|lia]. }
           destruct (IH ci rp1 xs ps1 (if bool_decide (m < col) then col else m) 0 true w1
                       Hci Hrp1)
             as (ret & ci' & rp' & m' & w' & xs' & ps' & Hrun & ? & ? & Hbl' & Hret);
             [lia|lia|].
           eexists _, _, _, _, _, _, _. split; [exact Hrun|]. split_and!; try done; [lia|].
           unfold well_formed in *. rewrite list.Forall_cons. intuition.
        -- eexists _, _, _, _, _, _, _. split; [done|]. split_and!; try done.
           left. split; [done|]. unfold well_formed. rewrite list.Forall_cons. intuition.
Qed.

Lemma create_blocks sz w a w1 :
  size_t_darray_create sz w = (Some a, w1) → blocks w1 = blocks w + 1 + 1.
Proof.
  unfold size_t_darray_create, alloc.
  destruct (answers w) as [|[] o]; cbn [negb answers blocks]; try done;
    case_bool_decide; cbn [negb answers blocks]; try done.
  - intros ?. by simplify_eq.
  - destruct o as [|[] o]; cbn [negb]; try done; intros ?; by simplify_eq.
Qed.

(** [read_bcsr] once its two arrays are created. *)
Lemma read_bcsr_any stream ferr csr0 n0 w ci w1 rp w2 :
  Z.of_nat (length stream) < 2 ^ 57 →
  size_t_darray_create 512 w = (Some ci, w1) →
  size_t_darray_create 256 w1 = (Some rp, w2) →
  ∃ ret csr n w', read_bcsr csr0 n0 stream ferr w = Some (ret, csr, n, w') ∧
    (ret = 0 ∨ ret = -1 ∨ ret = -2 ∨ ret = -3) ∧
    (ret = -2 ↔ ¬ well_formed stream) ∧
    (ret = -3 ↔ well_formed stream ∧ ferr = true) ∧
    (ret ≠ 0 → csr = Csr 0 None None ∧ n = n0 ∧ blocks w' = blocks w) ∧
    (ret = 0 → blocks w' = blocks w + nb (col_ind csr) + nb (row_ptr csr)).
Proof.
  intros Hlen Hc1 Hc2. unfold read_bcsr. rewrite Hc1, Hc2.
  pose proof (create_ok _ _ _ _ Hc1 ltac:(lia)) as Hci.
  pose proof (create_ok _ _ _ _ Hc2 ltac:(lia)) as Hrp.
  pose proof (create_blocks _ _ _ _ Hc1) as Hb1.
  pose proof (create_blocks _ _ _ _ Hc2) as Hb2.
  destruct (darray_append_ok rp [] 0 w2 Hrp) as (r0 & rp0 & w3 & Happ & Hcase); [cbn; lia|].
  pose proof (append_blocks _ _ _ _ _ _ _ Hrp Happ) as Hb3.
  rewrite Happ. cbn [mbind option_bind].
  assert (∃ ps0, da_ok rp0 ps0 ∧ (length ps0 ≤ 1)%nat) as (ps0 & Hrp0 & Hl0).
  { destruct Hcase as [(_ & ? & _)|(_ & -> & _)]; [exists [0]|exists []]; split; try done;
      simpl; lia. }
  destruct (read_loop_any stream ferr ci rp0 [] ps0 0 0 true w3 Hci Hrp0)
    as (ret & ci' & rp' & m' & w4 & xs' & ps' & Hrun & Hci' & Hrp' & Hb4 & Hret);
    [cbn [length]; lia|lia|].
  rewrite Hrun. cbn [mbind option_bind].
  assert (Hwf : (ret = -2 ↔ ¬ well_formed stream) ∧
                (ret = -3 ↔ well_formed stream ∧ ferr = true)).
  { destruct Hret as [(-> & ?)|[(-> & ? & ?)|(-> & ? & ->)]]; split; split;
      intros; try done; try tauto; try lia; destruct_and?; done. }
  destruct Hwf as [Hwf2 Hwf3].
  destruct (da_data _ _ Hci') as (bc & Hbc & _).
  destruct (da_data _ _ Hrp') as (br & Hbr & _).
  destruct (decide (ret = 0)) as [->|Hne].
  - rewrite bool_decide_true by done.
    assert (Hno2 : ¬ (0 = -2)) by lia. assert (Hno3 : ¬ (0 = -3)) by lia.
    destruct (trim_any ci' xs' w4 Hci') as (t1 & ci2 & w5 & -> & Ht1 & Hb5).
    destruct Ht1 as [[-> _]|[-> ->]].
    + rewrite bool_decide_false by (intros ?; done).
      destruct (trim_any rp' ps' w5 Hrp') as (t2 & rp2 & w6 & -> & Ht2 & Hb6).
      destruct Ht2 as [[-> _]|[-> ->]].
      * rewrite bool_decide_false by (intros ?; done).
        rewrite bool_decide_true by done.
        eexists _, _, _, _. split; [done|].
        split_and!; [by left|tauto|tauto|done|].
        intros _. unfold size_t_darray_destroy, size_t_darray_export, free. cbn. lia.
      * rewrite bool_decide_true by (intros ?; done).
        rewrite bool_decide_false by (intros ?; done).
        eexists _, _, _, _. split; [done|].
        split_and!; [right; by left|split; [lia|tauto]|split; [lia|intros; exfalso; tauto]| |lia].
        intros _. split_and!; [done|done|].
        unfold size_t_darray_destroy, size_t_darray_export, free, free_data. cbn.
        rewrite Hbr in Hb6 |- *. cbn in *. destruct (data ci2); cbn in *; lia.
    + rewrite bool_decide_true by (intros ?; done).
      rewrite bool_decide_false by (intros ?; done).
      eexists _, _, _, _. split; [done|].
      split_and!; [right; by left|split; [lia|tauto]|split; [lia|intros; exfalso; tauto]| |lia].
      intros _. split_and!; [done|done|].
      unfold size_t_darray_destroy, size_t_darray_export, free, free_data. cbn.
      rewrite Hbr, Hbc. cbn in *. rewrite Hbc in Hb5. cbn in Hb5. lia.
  - rewrite bool_decide_false by done. rewrite bool_decide_false by done.
    eexists _, _, _, _. split; [done|].
    split_and!; [|done|done| |done].
    + destruct Hret as [(-> & ?)|[(-> & ? & ?)|(-> & ? & ?)]]; auto.
    + intros _. split_and!; [done|done|].
      unfold size_t_darray_destroy, size_t_darray_export, free, free_data. cbn.
      rewrite Hbr, Hbc. cbn. lia.
Qed.

(** [read_bcsr] once its two arrays are created, with any answers of
    the allocator and any stream of fewer than 2^57 characters: no store is
    outside a block; the result is -2 exactly when the stream has a
    character other than 0, 1 and newline, and -3 exactly when the stream
    has none and ended with an I/O error; on every result other than 0 the
    CSR is handed back empty, [*n] is untouched and every block is freed;
    on 0 the blocks left are the two arrays handed to the caller. *)
Theorem read_bcsr_any_allocator stream ferr csr0 n0 w ci w1 rp w2 :
  Z.of_nat (length stream) < 2 ^ 57 →
  size_t_darray_create 512 w = (Some ci, w1) →
  size_t_darray_create 256 w1 = (Some rp, w2) →
  ∃ ret csr n w', read_bcsr csr0 n0 stream ferr w = Some (ret, csr, n, w') ∧
    (ret = 0 ∨ ret = -1 ∨ ret = -2 ∨ ret = -3) ∧
    (ret = -2 ↔ ¬ well_formed stream) ∧
    (ret = -3 ↔ well_formed stream ∧ ferr = true) ∧
    (ret ≠ 0 → csr = Csr 0 None None ∧ n = n0 ∧ blocks w' = blocks w) ∧
    (ret = 0 → blocks w' = blocks w + nb (col_ind csr) + nb (row_ptr csr)).
Proof. apply read_bcsr_any. Qed.

Lemma read_bcsr_any_allocator_witness :
  let stream := ["1"; "0"; nl; "0"; "1"]%char in
  let w := World [true; true; true; true; false] 0 in
  ∃ ret csr n w', read_bcsr (Csr 0 None None) 0 stream false w = Some (ret, csr, n, w') ∧
    (ret = 0 ∨ ret = -1 ∨ ret = -2 ∨ ret = -3) ∧
    (ret = -2 ↔ ¬ well_formed stream) ∧
    (ret = -3 ↔ well_formed stream ∧ false = true) ∧
    (ret ≠ 0 → csr = Csr 0 None None ∧ n = 0 ∧ blocks w' = blocks w) ∧
    (ret = 0 → blocks w' = blocks w + nb (col_ind csr) + nb (row_ptr csr)).
Proof.
  eapply (read_bcsr_any_allocator ["1"; "0"; nl; "0"; "1"]%char false (Csr 0 None None) 0
            (World [true; true; true; true; false] 0)).
  - vm_compute. reflexivity.
  - reflexivity.
  - reflexivity.
Defined.

(** * A matrix built in any memory *)

(** [build], starting from the memory [H0] instead of the empty one. *)
Definition build_from (H0 : heap) (ncols : nat) (rows : list (list nat)) : heap :=
  build_rows 0 0 rows (dlx_make_header_row Root 0 ncols H0).

Lemma make_header_row_lookup_from n H0 q :
  dlx_make_header_row Root 0 n H0 !! q
  = match q with
    | Root => Some (Cell (rid H0 Root) (left (rootcell n)) (right (rootcell n))
                         Null Null Null 1 (cid H0 Root))
    | Hd c => if decide (c < n)%nat
              then Some (Cell (rid H0 q) (left (hcell n c)) (right (hcell n c)) q q q 1 (cid H0 q))
              else H0 !! q
    | _ => H0 !! q
    end.
Proof.
  unfold dlx_make_header_row, hcell, rootcell. cbn [left right].
  destruct n as [|[|n]].
  - rewrite bool_decide_true by lia. rewrite init_root_eq, lookup_wr.
    destruct q; by dsimp.
  - rewrite bool_decide_false by lia. rewrite bool_decide_true by lia.
    rewrite init_header_eq, init_root_eq, !lookup_wr, !rid_wr, !cid_wr.
    destruct q as [| |[|c]| |]; by dsimp.
  - rewrite !bool_decide_false by lia. cbv zeta.
    rewrite init_header_eq, lookup_wr.
    unfold rid at 1. unfold cid at 1. unfold rd. rewrite !lookup_total_alt.
    rewrite !header_loop_lookup.
    rewrite !init_header_eq, !init_root_eq, !lookup_wr, ?rid_wr, ?cid_wr.
    simpl.
    destruct q as [| |c| |]; try (by dsimp).
    repeat (case_decide; simplify_eq/=; try lia); try done;
      try (exfalso; match goal with Hne : Hd _ ≠ Hd _ |- _ => apply Hne; f_equal; lia end);
      repeat f_equal; try lia.
Qed.

Lemma make_header_row_ok_from ncols hd H0 :
  cols_ok (Hd <$> seq 0 ncols) [] hd (dlx_make_header_row Root 0 ncols H0).
Proof.
  set (H := dlx_make_header_row Root 0 ncols H0).
  assert (HR : ∃ x y, H !! Root = Some (Cell x (left (rootcell ncols)) (right (rootcell ncols))
                                          Null Null Null 1 y)).
  { unfold H. rewrite make_header_row_lookup_from. eauto. }
  assert (Hc : ∀ c, (c < ncols)%nat →
            ∃ x y, H !! Hd c = Some (Cell x (left (hcell ncols c)) (right (hcell ncols c))
                                       (Hd c) (Hd c) (Hd c) 1 y)).
  { intros c Hc. unfold H. rewrite make_header_row_lookup_from.
    rewrite decide_True by lia. eauto. }
  clearbody H. destruct HR as (xr & yr & HR). split.
  - apply seg_of_cells.
    + intros c Hcr. destruct (Hc c ltac:(lia)) as (x & y & Hcc).
      rewrite (rt_of_lookup _ _ _ Hcc), (lf_of_lookup _ _ _ Hcc). unfold hcell. simpl. done.
    + rewrite (rt_of_lookup _ _ _ HR). done.
    + rewrite (lf_of_lookup _ _ _ HR). simpl.
      destruct (decide (ncols = 0)%nat); [done|]. try done; f_equal; lia.
  - intros c (k & -> & Hk%elem_of_seq)%list_elem_of_fmap. unfold ring. simpl.
    destruct (Hc k ltac:(lia)) as (x & y & Hcc).
    rewrite (dn_of_lookup _ _ _ Hcc), (upp_of_lookup _ _ _ Hcc).
    done.
  - intros x Hx. by apply elem_of_nil in Hx.
  - intros c (k & -> & Hk%elem_of_seq)%list_elem_of_fmap. simpl.
    destruct (Hc k ltac:(lia)) as (x & y & Hcc).
    by rewrite (cnt_of_lookup _ _ _ Hcc).
  - intros p Hp. rewrite app_nil_r in Hp.
    apply elem_of_cons in Hp as [->|(k & -> & Hk%elem_of_seq)%list_elem_of_fmap].
    + by rewrite HR.
    + destruct (Hc k ltac:(lia)) as (x & y & Hcc). by rewrite Hcc.
Qed.

(** A matrix built in any memory is well formed, and its nodes carry
    their row ids. *)
Lemma build_from_ok H0 ncols rows :
  inst_ok ncols rows →
  mstate_ok (lay ncols rows) (MState [] [] (build_from H0 ncols rows)) ∧
  rids_ok (lay_rows 0 rows) (build_from H0 ncols rows).
Proof.
  intros Hinst. pose proof Hinst as [Hnd Hb Hsz Hcs].
  destruct (build_rows_ok ncols (mjoin rows)) with
    (rest := rows) (lrs := @nil (list ptr)) (off := 0%nat) (pre := @nil nat)
    (H := dlx_make_header_row Root 0 ncols H0) as (Hok & Hrows & Hjoin & Hrid); try done.
  - intros c (cs & Hc & Hcs')%list_elem_of_join. by eapply Hb.
  - apply make_header_row_ok_from.
  - intros row l1 i l2 Hrow. by apply elem_of_nil in Hrow.
  - simpl in *. split; [unfold mstate_ok; simpl; split|done].
    + apply struct_ok_of_parts; [|done]. unfold lay, nodes. simpl.
      by rewrite lay_rows_join.
    + intros row Hrow _ j Hj. split; apply not_elem_of_nil.
Qed.

(** The search on any well-formed matrix of an instance. *)
Lemma solve_valid ncols rows H sol0 M fuel :
  inst_ok ncols rows →
  mstate_ok (lay ncols rows) (MState [] [] H) → rids_ok (lay_rows 0 rows) H →
  (ncols ≤ length sol0)%nat → (ncols + 3 * length (mjoin rows) + 2 ≤ fuel)%nat →
  1 ≤ M < 2 ^ 64 →
  ∃ n st, dlx_exact_cover fuel Root 0 (SState sol0 M H) = Some (n, st) ∧
          mem st = H ∧
          (0 < n →
           let idx := solution_rows (mem st) (sol st) n in
           length idx = Z.to_nat n ∧
           Forall (λ r, (r < length rows)%nat) idx ∧
           mjoin ((rows !!!.) <$> idx) ≡ₚ seq 0 ncols) ∧
          (M = 1 → (0 < ncols)%nat → (n = 0 ↔ ¬ has_cover ncols rows)).
Proof.
  intros Hinst Hok Hrid Hsol Hf HM.
  pose proof (lay_ok ncols rows Hinst) as HΣ.
  set (Σ := lay ncols rows) in *.
  assert (Hlc : length (l_cols Σ) = ncols).
  { unfold Σ. simpl. by rewrite length_fmap, length_seq. }
  assert (Hln : length (nodes Σ) = length (mjoin rows)).
  { unfold Σ, nodes. simpl. by rewrite lay_rows_join, length_fmap, length_seq. }
  destruct (search_full Σ HΣ (eq_ind_r (λ n, Z.of_nat n < 2 ^ 64) (io_cols _ _ Hinst) Hlc)
              fuel (MState [] [] H) 0 (SState sol0 M H))
    as ([n st] & Hrun & (Hmem & Hlen & Hres) & (Hc1 & Hc2 & Hc3));
    cbn [m_V m_H m_R mem sol pnsol]; try done.
  - intros j Hj. by apply elem_of_nil in Hj.
  - rewrite live_nil. lia.
  - lia.
  - rewrite live_nil. lia.
  - exists n, st. split; [done|]. cbn [m_V m_H mem sol pnsol fst snd] in *.
    split; [done|]. split.
    + intros Hn. destruct Hres as [->|(path & -> & Hrec & Hpath)]; [lia|].
      destruct (Hpath) as [Hnodes Hperm].
      unfold solution_rows. rewrite Nat2Z.id. simpl.
      pose proof (recorded_take _ _ Hrec) as Htake.
      destruct (path_decode ncols rows Hinst H Hrid path Hnodes) as [Hidx Hdec].
      rewrite Hmem.
      assert (Heq : (λ e, row_index (dlx_row_id (row_node e) H)) <$> take (length path) (sol st)
                    = (λ i, row_index (dlx_row_id i H)) <$> path).
      { rewrite <- Htake at 2. by rewrite <- list_fmap_compose. }
      rewrite Heq. split_and!; [by rewrite length_fmap|done|].
      destruct (path_has_cover ncols rows Hinst H path Hrid Hpath) as (idx & _ & _).
      fold Σ in Hdec. rewrite Hdec, live_nil in Hperm. unfold Σ in Hperm. cbn [l_cols lay] in Hperm.
      apply NoDup_Permutation.
      * apply (NoDup_fmap_1 Hd). rewrite Hperm. apply NoDup_fmap_2; [apply _|apply NoDup_seq].
      * apply NoDup_seq.
      * intros c. rewrite <- (list_elem_of_fmap_inj Hd), Hperm, (list_elem_of_fmap_inj Hd). done.
    + intros -> Hpos.
      assert (Hne : live Σ [] ≠ []).
      { rewrite live_nil. intros Hnil. rewrite Hnil in Hlc. simpl in Hlc. lia. }
      split.
      * intros ->. intros Hcov.
        destruct (decide (pnsol st = 0)) as [Hz|Hnz].
        -- destruct (Hc3 Hz) as [_ Hlt]. specialize (Hlt Hne). lia.
        -- destruct Hc2 as [_ Hno]; [lia|]. by apply Hno, has_cover_exists.
      * intros Hno. destruct Hres as [->|(path & -> & _ & Hpath)]; [done|].
        exfalso. apply Hno. by apply (path_has_cover ncols rows Hinst H path).
Qed.

(** * From the CSR form to the matrix *)

(** What a pointer variable holds, as far as [free] goes: nothing yet,
    [NULL], a block, or a block already freed. *)
Inductive pval : Type := Uninit | NullP | Blk | Freed.

(** [free(p)]; on a pointer that was never set, or freed before, the C
    code has no defined behaviour, rendered as [None]. *)
Definition free_p (p : pval) (w : world) : option world :=
  match p with
  | NullP => Some w
  | Blk => Some (free w)
  | Uninit | Freed => None
  end.

Definition after_free (p : pval) : pval :=
  match p with
  | Blk => Freed
  | _ => p
  end.

(** [calloc(n, size)]: [NULL] when [n * size] does not fit a [size_t]. *)
Definition calloc (n size : Z) (w : world) : bool * world :=
  if bool_decide (n * size ≤ SIZE_MAX) then alloc w else (false, w).

Definition ptr_of (ok : bool) : pval := if ok then Blk else NullP.

(** [struct dlx_matrix]: [dlx_mem] holds the root and the cells of the
    arrays [headers] and [nodes]; [row_off] is the array of offsets. *)
Record dlx_matrix : Type := Dlx {
  dlx_mem : heap;
  dlx_headers : pval;
  dlx_nodes : pval;
  dlx_row_off : pval;
  row_off : list Z;
  n_col : Z;
  n_row : Z
}.

(** The read [a[i]] of an array of [size_t]; outside the block the C
    code has no defined behaviour, rendered as [None]. *)
Definition rd_arr (d : option buffer) (i : Z) : option Z :=
  b ← d; if bool_decide (0 ≤ i) then cells b !! Z.to_nat i else None.

(** The loop [for (j = ri_start; j < ri_end; j++) pheaders[j - ri_start]
    = dlx->headers + csr->col_ind[j]], with [cnt] rounds to go. *)
Fixpoint fill_pheaders (cnt : nat) (j ri_start ncols : Z) (ci : option buffer)
    (pheaders : list ptr) : option (list ptr) :=
  match cnt with
  | O => Some pheaders
  | S c =>
      col ← rd_arr ci j;
      if bool_decide (col < ncols ∧ j - ri_start < ncols)
      then fill_pheaders c (j + 1) ri_start ncols ci
             (<[Z.to_nat (j - ri_start) := Hd (Z.to_nat col)]> pheaders)
      else None
  end.

(** The row loop of [bcsr_to_dlx], with [cnt] rounds to go; [nn] is the
    length of the array [nodes]. *)
Fixpoint rows_loop (cnt : nat) (i : Z) (csr : binary_csr_matrix) (ncols nn : Z)
    (pheaders : list ptr) (ro : list Z) (H : heap) : option (list Z * heap) :=
  match cnt with
  | O => Some (ro, H)
  | S c =>
      ri_start ← rd_arr (row_ptr csr) i;
      ri_end ← rd_arr (row_ptr csr) (i + 1);
      ph ← fill_pheaders (Z.to_nat (ri_end - ri_start)) ri_start ri_start ncols
             (col_ind csr) pheaders;
      let n := wrap (ri_end - ri_start) in
      if bool_decide (ri_start + n ≤ nn) then
        let H1 := dlx_make_row (Z.to_nat ri_start) (RowOff (Z.to_nat i)) (Z.to_nat n) H in
        let H2 := dlx_add_row (Z.to_nat ri_start) ph (Z.to_nat n) H1 in
        rows_loop c (i + 1) csr ncols nn ph (<[Z.to_nat (i + 1) := ri_end]> ro) H2
      else None
  end.

(** The branch of [bcsr_to_dlx] taken when an allocation failed: the four
    pointers are freed, whatever they hold. *)
Definition alloc_failed (dlx : dlx_matrix) (h n r p : pval) (w : world)
    : option (Z * dlx_matrix * world) :=
  w1 ← free_p h w;
  w2 ← free_p n w1;
  w3 ← free_p r w2;
  w4 ← free_p p w3;
  Some (-1, Dlx (dlx_mem dlx) (after_free h) (after_free n) (after_free r)
                (row_off dlx) (n_col dlx) (n_row dlx), w4).

(** [bcsr_to_dlx]; the sizes of the structures are those of a machine
    with 8-byte pointers and [size_t]. *)
Definition bcsr_to_dlx (csr : binary_csr_matrix) (dlx : dlx_matrix) (ncols : Z) (w : world)
    : option (Z * dlx_matrix * world) :=
  let '(ok1, w1) := calloc ncols 64 w in
  if negb ok1
  then alloc_failed dlx (ptr_of ok1) (dlx_nodes dlx) (dlx_row_off dlx) Uninit w1
  else
    nn ← rd_arr (row_ptr csr) (wrap (row_ptr_size csr - 1));
    let '(ok2, w2) := calloc nn 48 w1 in
    if negb ok2
    then alloc_failed dlx (ptr_of ok1) (ptr_of ok2) (dlx_row_off dlx) Uninit w2
    else
      let '(ok3, w3) := calloc (row_ptr_size csr) 8 w2 in
      if negb ok3
      then alloc_failed dlx (ptr_of ok1) (ptr_of ok2) (ptr_of ok3) Uninit w3
      else
        let '(ok4, w4) := calloc ncols 8 w3 in
        if negb ok4
        then alloc_failed dlx (ptr_of ok1) (ptr_of ok2) (ptr_of ok3) (ptr_of ok4) w4
        else
          let H1 := dlx_make_header_row Root 0 (Z.to_nat ncols)
                      (wr Root (rd (dlx_mem dlx) Root) ∅) in
          let ro := replicate (Z.to_nat (row_ptr_size csr)) 0 in
          if bool_decide (0 < row_ptr_size csr) then
            '(ro1, H2) ← rows_loop (Z.to_nat (wrap (row_ptr_size csr - 1))) 0 csr ncols nn
                           (replicate (Z.to_nat ncols) Null) (<[0%nat := 0]> ro) H1;
            Some (0, Dlx H2 Blk Blk Blk ro1 ncols (wrap (row_ptr_size csr - 1)), free w4)
          else None.

(** [dlx_read_matrix]; the local [csr] starts with its two pointers
    [NULL]. *)
Definition dlx_read_matrix (dlx : dlx_matrix) (stream : list ascii) (ferr : bool) (w : world)
    : option (Z * dlx_matrix * world) :=
  '(ret, csr, ncols, w1) ← read_bcsr (Csr 0 None None) 0 stream ferr w;
  '(ret, dlx1, w2) ← (if bool_decide (ret = 0) then bcsr_to_dlx csr dlx ncols w1
                      else Some (ret, dlx, w1));
  Some (ret, dlx1, free_data (row_ptr csr) (free_data (col_ind csr) w2)).

(** ** The matrix of a CSR form *)

(** The row pointers after the first, for rows given by their columns. *)
Fixpoint row_ptrs (base : nat) (rows : list (list nat)) : list Z :=
  match rows with
  | [] => []
  | cs :: rest => Z.of_nat (base + length cs) :: row_ptrs (base + length cs) rest
  end.

Lemma row_ptrs_length rows : ∀ base, length (row_ptrs base rows) = length rows.
Proof. induction rows as [|cs rows IH]; intros base; simpl; [done|]. by rewrite IH. Qed.

Lemma add_row_ext nb ph ph' n H :
  (∀ k, (k < n)%nat → ph !!! k = ph' !!! k) →
  dlx_add_row nb ph n H = dlx_add_row nb ph' n H.
Proof.
  intros Hext. unfold dlx_add_row.
  assert (Hl : ∀ k, k ∈ seq 0 n → ph !!! k = ph' !!! k).
  { intros k Hk%elem_of_seq. apply Hext. lia. }
  clear Hext. revert H. induction (seq 0 n) as [|k l IH]; intros H; [done|].
  simpl. rewrite Hl by set_solver. apply IH. intros k' Hk'. apply Hl. set_solver.
Qed.

Lemma fill_pheaders_ok ci off ncols cs2 : ∀ (cs1 : list nat) ph,
  (∀ k c, cs2 !! k = Some c →
     rd_arr ci (Z.of_nat (off + length cs1 + k)) = Some (Z.of_nat c) ∧ (c < ncols)%nat) →
  (length cs1 + length cs2 ≤ ncols)%nat → length ph = ncols →
  ∃ ph', fill_pheaders (length cs2) (Z.of_nat (off + length cs1)) (Z.of_nat off)
           (Z.of_nat ncols) ci ph = Some ph' ∧
         length ph' = ncols ∧
         (∀ k, (k < length cs1)%nat → ph' !!! k = ph !!! k) ∧
         (∀ k c, cs2 !! k = Some c → ph' !!! (length cs1 + k)%nat = Hd c).
Proof.
  induction cs2 as [|c cs2 IH]; intros cs1 ph Hrd Hlen Hph; simpl.
  - exists ph. split_and!; try done.
  - destruct (Hrd 0%nat c eq_refl) as [Hc Hcn]. rewrite Nat.add_0_r in Hc.
    rewrite Hc. simpl in Hlen. cbn [mbind option_bind].
    rewrite bool_decide_true by lia.
    replace (Z.of_nat (off + length cs1) - Z.of_nat off) with (Z.of_nat (length cs1)) by lia.
    rewrite !Nat2Z.id.
    replace (Z.of_nat (off + length cs1) + 1) with (Z.of_nat (off + length (cs1 ++ [c])))
      by (rewrite length_app; simpl; lia).
    destruct (IH (cs1 ++ [c]) (<[length cs1 := Hd c]> ph)) as (ph' & Hrun & Hl' & Hkeep & Hnew).
    + intros k c' Hk. rewrite length_app. simpl.
      replace (off + (length cs1 + 1) + k)%nat with (off + length cs1 + S k)%nat by lia.
      by apply Hrd.
    + rewrite length_app. simpl. lia.
    + by rewrite length_insert.
    + exists ph'. split; [done|]. split; [done|]. split.
      * intros k Hk. rewrite Hkeep by (rewrite length_app; simpl; lia).
        rewrite list_lookup_total_insert_ne by lia. done.
      * intros [|k] c' Hk; simpl in Hk.
        -- simplify_eq. rewrite Nat.add_0_r.
           rewrite Hkeep by (rewrite length_app; simpl; lia).
           rewrite list_lookup_total_insert_eq by lia. done.
        -- specialize (Hnew k c' Hk). rewrite length_app in Hnew. simpl in Hnew.
           by replace (length cs1 + S k)%nat with (length cs1 + 1 + k)%nat by lia.
Qed.

Lemma nodup_bounded_length (cs : list nat) n :
  NoDup cs → (∀ c, c ∈ cs → (c < n)%nat) → (length cs ≤ n)%nat.
Proof.
  intros Hnd Hb. apply Nat.le_trans with (length (seq 0 n)); [|by rewrite length_seq].
  apply submseteq_length, NoDup_submseteq; [done|].
  intros c Hc. apply elem_of_seq. specialize (Hb c Hc). lia.
Qed.

Section rows_loop.
Context (csr : binary_csr_matrix) (ncols : nat) (nn : Z) (rpl : list Z).
Context (Hrp : ∀ i : nat, rd_arr (row_ptr csr) (Z.of_nat i) = rpl !! i).
Context (Hnn : nn < 2 ^ 64).

Lemma rows_loop_ok rest : ∀ i off ro ph H,
  rpl !! i = Some (Z.of_nat off) → drop (S i) rpl = row_ptrs off rest →
  (∀ k c, mjoin rest !! k = Some c →
     rd_arr (col_ind csr) (Z.of_nat (off + k)) = Some (Z.of_nat c)) →
  (∀ cs, cs ∈ rest → NoDup cs ∧ ∀ c, c ∈ cs → (c < ncols)%nat) →
  length ph = ncols →
  Z.of_nat (off + length (mjoin rest)) ≤ nn →
  length ro = length rpl → take (S i) ro = take (S i) rpl →
  rows_loop (length rest) (Z.of_nat i) csr (Z.of_nat ncols) nn ph ro H
  = Some (rpl, build_rows i off rest H).
Proof.
  induction rest as [|cs rest IH]; intros i off ro ph H Hi Hdrop Hcol Hrows Hph Hsz Hlen Htake.
  - simpl. do 2 f_equal.
    assert (length rpl ≤ S i)%nat.
    { apply (f_equal length) in Hdrop. rewrite length_drop in Hdrop. simpl in Hdrop. lia. }
    rewrite !take_ge in Htake by lia. done.
  - cbn [length rows_loop build_rows]. rewrite Hrp, Hi. cbn [mbind option_bind].
    assert (HSi : rpl !! S i = Some (Z.of_nat (off + length cs))).
    { pose proof (lookup_drop rpl (S i) 0) as Hl. rewrite Hdrop in Hl. simpl in Hl.
      rewrite Nat.add_0_r in Hl. done. }
    replace (Z.of_nat i + 1) with (Z.of_nat (S i)) by lia.
    rewrite Hrp, HSi. cbn [mbind option_bind].
    replace (Z.of_nat (off + length cs) - Z.of_nat off) with (Z.of_nat (length cs)) by lia.
    simpl in Hsz. rewrite length_app in Hsz.
    rewrite !wrap_id by lia. rewrite !Nat2Z.id.
    destruct (Hrows cs) as [Hnd Hb]; [set_solver|].
    pose proof (nodup_bounded_length cs ncols Hnd Hb) as Hle.
    destruct (fill_pheaders_ok (col_ind csr) off ncols cs [] ph) as (ph' & Hfill & Hl' & _ & Hnew).
    { intros k c Hk. simpl. rewrite Nat.add_0_r. split.
      - apply Hcol. simpl. by rewrite lookup_app_l by (by eapply lookup_lt_Some).
      - apply Hb. by eapply list_elem_of_lookup_2. }
    { simpl. lia. }
    { done. }
    simpl in Hfill. rewrite Nat.add_0_r in Hfill. rewrite Hfill. cbn [mbind option_bind].
    rewrite bool_decide_true by lia.
    rewrite (add_row_ext off ph' ((λ c, Hd (0 + c)) <$> cs) (length cs)).
    2:{ intros k Hk. destruct (lookup_lt_is_Some_2 cs k Hk) as [c Hc].
        specialize (Hnew k c Hc). simpl in Hnew. rewrite Hnew. symmetry.
        apply list_lookup_total_correct. by rewrite list_lookup_fmap, Hc. }
    change (dlx_add_row off ((λ c, Hd (0 + c)) <$> cs) (length cs)
              (dlx_make_row off (RowOff i) (length cs) H))
      with (build_row 0 i off cs H).
    apply IH.
    + done.
    + rewrite <- (Nat.add_1_r (S i)), <- drop_drop, Hdrop. done.
    + intros k c Hk. replace (off + length cs + k)%nat with (off + (length cs + k))%nat by lia.
      apply Hcol. simpl. rewrite lookup_app_r by lia.
      by replace (length cs + k - length cs)%nat with k by lia.
    + intros cs' Hcs'. apply Hrows. set_solver.
    + done.
    + lia.
    + by rewrite length_insert.
    + assert (S i < length ro)%nat.
      { rewrite Hlen. by eapply lookup_lt_Some. }
      rewrite (take_S_r _ (S i) (Z.of_nat (off + length cs)))
        by (by rewrite list_lookup_insert_eq).
      rewrite (take_S_r rpl (S i) (Z.of_nat (off + length cs))) by done.
      rewrite take_insert_ge by lia. by rewrite Htake.
Qed.
End rows_loop.

Lemma row_ptrs_last rows : ∀ base,
  (Z.of_nat base :: row_ptrs base rows) !! length rows
  = Some (Z.of_nat (base + length (mjoin rows))).
Proof.
  induction rows as [|cs rows IH]; intros base; simpl.
  - by rewrite Nat.add_0_r.
  - rewrite IH, length_app. do 2 f_equal. lia.
Qed.

Lemma calloc_all n size bl :
  n * size ≤ SIZE_MAX → calloc n size (World [] bl) = (true, World [] (bl + 1)).
Proof. intros. unfold calloc. by rewrite bool_decide_true by done. Qed.

(** [bcsr_to_dlx] on the CSR form of an instance, with memory at hand:
    it returns 0 and the matrix is the one that [dlx_make_header_row],
    [dlx_make_row] and [dlx_add_row] build from the rows. *)
Lemma bcsr_to_dlx_run csr dlx ncols rows bl :
  inst_ok ncols rows →
  buf_list (col_ind csr) = Z.of_nat <$> mjoin rows →
  buf_list (row_ptr csr) = 0 :: row_ptrs 0 rows →
  row_ptr_size csr = Z.of_nat (length rows) + 1 →
  Z.of_nat ncols * 64 ≤ SIZE_MAX →
  Z.of_nat (length (mjoin rows)) * 48 ≤ SIZE_MAX →
  (Z.of_nat (length rows) + 1) * 8 ≤ SIZE_MAX →
  bcsr_to_dlx csr dlx (Z.of_nat ncols) (World [] bl)
  = Some (0, Dlx (build_from (wr Root (rd (dlx_mem dlx) Root) ∅) ncols rows) Blk Blk Blk
                 (0 :: row_ptrs 0 rows) (Z.of_nat ncols) (Z.of_nat (length rows)),
          World [] (bl + 1 + 1 + 1 + 1 - 1)).
Proof.
  intros Hinst Hci Hrpl Hsize Hs1 Hs2 Hs3.
  set (rpl := 0 :: row_ptrs 0 rows) in *.
  assert (Hrp : ∀ i : nat, rd_arr (row_ptr csr) (Z.of_nat i) = rpl !! i).
  { intros i. unfold rd_arr. destruct (row_ptr csr) as [b|]; [|done].
    simpl in *. rewrite bool_decide_true by lia. by rewrite Nat2Z.id, Hrpl. }
  assert (Hcol : ∀ k c, mjoin rows !! k = Some c →
            rd_arr (col_ind csr) (Z.of_nat (0 + k)) = Some (Z.of_nat c)).
  { intros k c Hk. unfold rd_arr. destruct (col_ind csr) as [b|]; simpl in *.
    - rewrite bool_decide_true by lia. rewrite Nat2Z.id, Hci, list_lookup_fmap, Hk. done.
    - destruct (mjoin rows); [done|]. done. }
  unfold bcsr_to_dlx. rewrite calloc_all by done. cbn [negb].
  rewrite Hsize. rewrite wrap_id by (unfold SIZE_MAX in Hs3; lia).
  replace (Z.of_nat (length rows) + 1 - 1) with (Z.of_nat (length rows)) by lia.
  pose proof (row_ptrs_last rows 0) as Hlast.
  change (Z.of_nat 0) with 0 in Hlast. rewrite Nat.add_0_l in Hlast.
  rewrite Hrp. unfold rpl at 1. rewrite Hlast. cbn [mbind option_bind].
  rewrite calloc_all by done. cbn [negb].
  rewrite calloc_all by done. cbn [negb].
  rewrite calloc_all by lia. cbn [negb].
  rewrite bool_decide_true by lia. rewrite !Nat2Z.id.
  change (rows_loop (length rows) 0) with (rows_loop (length rows) (Z.of_nat 0)).
  rewrite (rows_loop_ok csr ncols (Z.of_nat (length (mjoin rows))) rpl Hrp) with (off := 0%nat).
  - cbn [mbind option_bind]. unfold build_from, free. cbn. done.
  - unfold SIZE_MAX in Hs2. lia.
  - done.
  - done.
  - done.
  - intros cs Hcs. split; [by apply (io_nodup _ _ Hinst)|].
    intros c Hc. by apply (io_bound _ _ Hinst cs).
  - by rewrite length_replicate.
  - simpl. lia.
  - rewrite length_insert, length_replicate. unfold rpl. simpl.
    rewrite row_ptrs_length. lia.
  - replace (Z.to_nat (Z.of_nat (length rows) + 1)) with (S (length rows)) by lia.
    done.
Qed.

(** * From the text to the matrix *)

(** The columns of the ones of a row, as numbers. *)
Fixpoint ones_nat_from (k : nat) (row : list ascii) : list nat :=
  match row with
  | [] => []
  | c :: rest => if Ascii.eqb c "1" then k :: ones_nat_from (S k) rest
                 else ones_nat_from (S k) rest
  end.

(** The instance that a stream describes: one row for each row of the
    text, with the columns of its ones. *)
Definition text_rows (s : list ascii) : list (list nat) :=
  ones_nat_from 0 <$> stream_rows s.

Lemma ones_from_nat row : ∀ k, ones_from k row = Z.of_nat <$> ones_nat_from k row.
Proof.
  induction row as [|c row IH]; intros k; simpl; [done|].
  destruct (Ascii.eqb c "1"); simpl; by rewrite IH.
Qed.

Lemma ones_nat_bounds row : ∀ k c, c ∈ ones_nat_from k row → (k ≤ c < k + length row)%nat.
Proof.
  induction row as [|x row IH]; intros k c Hc; simpl in *; [by apply elem_of_nil in Hc|].
  destruct (Ascii.eqb x "1").
  - apply elem_of_cons in Hc as [->|Hc]; [lia|]. apply IH in Hc. lia.
  - apply IH in Hc. lia.
Qed.

Lemma ones_nat_nodup row : ∀ k, NoDup (ones_nat_from k row).
Proof.
  induction row as [|x row IH]; intros k; simpl; [constructor|].
  destruct (Ascii.eqb x "1"); [|done].
  apply list.NoDup_cons. split; [|done]. intros Hk%ones_nat_bounds. lia.
Qed.

Lemma ones_nat_length row : ∀ k, (length (ones_nat_from k row) ≤ length row)%nat.
Proof.
  induction row as [|x row IH]; intros k; simpl; [done|].
  specialize (IH (S k)). destruct (Ascii.eqb x "1"); simpl; lia.
Qed.

Lemma ptrs_row_ptrs srows : ∀ base,
  ptrs base srows = row_ptrs base (ones_nat_from 0 <$> srows).
Proof.
  induction srows as [|row srows IH]; intros base; simpl; [done|].
  unfold ones_of. rewrite ones_from_nat, length_fmap. by rewrite IH.
Qed.

Lemma ones_join srows :
  mjoin (ones_of <$> srows) = Z.of_nat <$> mjoin (ones_nat_from 0 <$> srows).
Proof.
  induction srows as [|row srows IH]; [done|].
  rewrite !fmap_cons. change (mjoin (?x :: ?l)) with (x ++ mjoin l).
  rewrite fmap_app, IH. unfold ones_of. by rewrite ones_from_nat.
Qed.

Lemma max_width_ge srows row : row ∈ srows → (length row ≤ max_width srows)%nat.
Proof.
  induction srows as [|r srows IH]; intros Hrow; [by apply elem_of_nil in Hrow|].
  unfold max_width in *. simpl. apply elem_of_cons in Hrow as [->|Hrow]; [lia|].
  specialize (IH Hrow). lia.
Qed.

(** The characters of the rows are characters of the stream. *)
Lemma rows_acc_size s : ∀ cur,
  (length (mjoin (rows_acc cur s)) ≤ length cur + length s)%nat ∧
  (length (rows_acc cur s) ≤ 1 + length s)%nat.
Proof.
  induction s as [|c s IH]; intros cur; simpl.
  - case_bool_decide; simpl; rewrite ?app_nil_r; lia.
  - destruct (Ascii.eqb c nl).
    + destruct (IH []) as [? ?]. simpl. rewrite length_app. simpl in *. lia.
    + destruct (IH (cur ++ [c])) as [? ?]. rewrite length_app in *. simpl in *. lia.
Qed.

Lemma max_width_size srows : (max_width srows ≤ length (mjoin srows))%nat.
Proof.
  induction srows as [|r srows IH]; [done|].
  unfold max_width in *. simpl. rewrite length_app. lia.
Qed.

Lemma ones_total_size srows :
  (length (mjoin (ones_nat_from 0 <$> srows)) ≤ length (mjoin srows))%nat.
Proof.
  induction srows as [|r srows IH]; [done|].
  rewrite fmap_cons. simpl. rewrite !length_app.
  pose proof (ones_nat_length r 0). lia.
Qed.

Lemma text_rows_sizes s :
  (max_width (stream_rows s) ≤ length s)%nat ∧
  (length (mjoin (text_rows s)) ≤ length s)%nat ∧
  (length (text_rows s) ≤ 1 + length s)%nat.
Proof.
  unfold text_rows, stream_rows. destruct (rows_acc_size s []) as [H1 H2]. simpl in H1.
  pose proof (max_width_size (rows_acc [] s)).
  pose proof (ones_total_size (rows_acc [] s)).
  rewrite length_fmap. lia.
Qed.

Lemma text_rows_inst s :
  Z.of_nat (length s) < 2 ^ 57 → inst_ok (max_width (stream_rows s)) (text_rows s).
Proof.
  intros Hlen. destruct (text_rows_sizes s) as (Hw & Hn & Hr). split.
  - intros cs (row & -> & _)%list_elem_of_fmap. apply ones_nat_nodup.
  - intros cs c (row & -> & Hrow)%list_elem_of_fmap Hc.
    apply ones_nat_bounds in Hc. pose proof (max_width_ge _ _ Hrow). lia.
  - lia.
  - lia.
Qed.

(** [read_bcsr] with memory at hand, and the allocator it leaves. *)
Lemma read_bcsr_run stream csr0 n0 bl :
  well_formed stream → Z.of_nat (length stream) < 2 ^ 57 →
  ∃ csr w', read_bcsr csr0 n0 stream false (World [] bl)
            = Some (0, csr, Z.of_nat (max_width (stream_rows stream)), w') ∧
            buf_list (col_ind csr) = mjoin (ones_of <$> stream_rows stream) ∧
            buf_list (row_ptr csr) = 0 :: ptrs 0 (stream_rows stream) ∧
            row_ptr_size csr = Z.of_nat (length (stream_rows stream)) + 1 ∧
            answers w' = [] ∧
            blocks w' = bl + nb (col_ind csr) + nb (row_ptr csr).
Proof.
  intros Hwf Hlen. unfold read_bcsr, stream_rows.
  destruct (create_all_ok 512 bl) as (ci & -> & Hci); [lia|unfold SIZE_MAX; lia|].
  destruct (create_all_ok 256 (bl + 1 + 1)) as (rp & -> & Hrp); [lia|unfold SIZE_MAX; lia|].
  set (w := World [] (bl + 1 + 1 + 1 + 1)).
  destruct (append_all_ok rp [] 0 w Hrp) as (r & rp1 & -> & Hrp1); [cbn; lia|done|].
  cbn [mbind option_bind app].
  destruct (read_loop_ok stream [] [] [0] 0%nat ci rp1 w Hwf) as (ci' & rp' & Hrun & Hci' & Hrp');
    try done; cbn [length]; try lia.
  rewrite bool_decide_true in Hrun by done.
  change (Z.of_nat (length (@nil ascii))) with 0 in Hrun.
  change (Z.of_nat 0) with 0 in Hrun. rewrite Hrun. cbn [mbind option_bind].
  rewrite bool_decide_true by done.
  destruct (trim_all_ok ci' _ w Hci') as (ci2 & w2 & Ht1 & Hw2 & Hci2 & _); [done|].
  destruct (trim_any ci' _ w Hci') as (t1 & ci2' & w2' & Ht1' & _ & Hb1).
  rewrite Ht1 in Ht1'. simplify_eq. rewrite Ht1.
  rewrite bool_decide_false by (intros ?; done).
  destruct (trim_all_ok rp' _ w2' Hrp' Hw2) as (rp2 & w3 & Ht2 & Hw3 & Hrp2 & Hnext).
  destruct (trim_any rp' _ w2' Hrp') as (t2 & rp2' & w3' & Ht2' & _ & Hb2).
  rewrite Ht2 in Ht2'. simplify_eq. rewrite Ht2.
  rewrite bool_decide_false by (intros ?; done).
  rewrite bool_decide_true by done.
  eexists _, _. split; [done|]. cbn. split_and!; [done|done| |done|].
  - rewrite Hnext. cbn. rewrite ptrs_length. lia.
  - unfold w in *. cbn in *. lia.
Qed.

(** [dlx_read_matrix] on a stream of the characters 0, 1 and newline,
    read without an I/O error and with memory at hand: it returns 0; the
    matrix has one row for each row of the text and as many columns as the
    widest row; its memory is what [dlx_make_header_row], [dlx_make_row] and
    [dlx_add_row] build from the columns of the ones of each row; of the
    blocks allocated on the way, the three arrays of the matrix are left. *)
Theorem dlx_read_matrix_builds stream dlx bl :
  well_formed stream → Z.of_nat (length stream) < 2 ^ 57 →
  ∃ m w', dlx_read_matrix dlx stream false (World [] bl) = Some (0, m, w') ∧
          dlx_mem m = build_from (wr Root (rd (dlx_mem dlx) Root) ∅)
                        (max_width (stream_rows stream)) (text_rows stream) ∧
          n_col m = Z.of_nat (max_width (stream_rows stream)) ∧
          n_row m = Z.of_nat (length (stream_rows stream)) ∧
          row_off m = 0 :: row_ptrs 0 (text_rows stream) ∧
          blocks w' = bl + 3.
Proof.
  intros Hwf Hlen. unfold dlx_read_matrix.
  destruct (read_bcsr_run stream (Csr 0 None None) 0 bl Hwf Hlen)
    as (csr & w1 & -> & Hci & Hrp & Hsz & Hw1 & Hb1).
  cbn [mbind option_bind]. rewrite bool_decide_true by done.
  destruct (text_rows_sizes stream) as (Hs1 & Hs2 & Hs3).
  destruct w1 as [a1 b1]. simpl in Hw1, Hb1. subst a1.
  rewrite (bcsr_to_dlx_run csr dlx _ (text_rows stream) b1).
  - cbn [mbind option_bind]. eexists _, _. split; [done|]. cbn.
    split_and!; try done.
    + unfold text_rows. by rewrite length_fmap.
    + assert (Hn : nb (row_ptr csr) = 1).
      { destruct (row_ptr csr); [done|]. simpl in Hrp. done. }
      unfold free_data, free. destruct (row_ptr csr), (col_ind csr); cbn in *; lia.
  - by apply text_rows_inst.
  - rewrite Hci. apply ones_join.
  - rewrite Hrp. f_equal. apply ptrs_row_ptrs.
  - rewrite Hsz. unfold text_rows. by rewrite length_fmap.
  - unfold SIZE_MAX. lia.
  - unfold SIZE_MAX. lia.
  - unfold SIZE_MAX. lia.
Qed.

Lemma dlx_read_matrix_builds_witness :
  let stream := ["1"; "0"; nl; "0"; "1"]%char in
  let dlx := Dlx ∅ Uninit Uninit Uninit [] 0 0 in
  ∃ m w', dlx_read_matrix dlx stream false (World [] 0) = Some (0, m, w') ∧
          dlx_mem m = build_from (wr Root (rd (dlx_mem dlx) Root) ∅)
                        (max_width (stream_rows stream)) (text_rows stream) ∧
          n_col m = Z.of_nat (max_width (stream_rows stream)) ∧
          n_row m = Z.of_nat (length (stream_rows stream)) ∧
          row_off m = 0 :: row_ptrs 0 (text_rows stream) ∧
          blocks w' = 0 + 3.
Proof.
  apply (dlx_read_matrix_builds ["1"; "0"; nl; "0"; "1"]%char
           (Dlx ∅ Uninit Uninit Uninit [] 0 0) 0).
  - unfold well_formed. repeat apply Forall_cons_2; try apply Forall_nil_2;
      first [by left | by right; left | by right; right].
  - vm_compute. reflexivity.
Defined.

(** Reading a text and searching it, with [*pnsol = 1] and a [solution]
    array of as many entries as the text has columns: when the size
    returned is positive, the rows recorded are rows of the text whose ones
    are in every column exactly once; and when the text has a column, 0 is
    returned exactly when no choice of rows of the text is such an exact
    cover.  The matrix is left as it was read. *)
Theorem read_then_solve stream dlx bl sol0 fuel :
  well_formed stream → Z.of_nat (length stream) < 2 ^ 57 →
  (max_width (stream_rows stream) ≤ length sol0)%nat →
  (max_width (stream_rows stream) + 3 * length (mjoin (text_rows stream)) + 2 ≤ fuel)%nat →
  ∃ m w' n st,
    dlx_read_matrix dlx stream false (World [] bl) = Some (0, m, w') ∧
    dlx_exact_cover fuel Root 0 (SState sol0 1 (dlx_mem m)) = Some (n, st) ∧
    mem st = dlx_mem m ∧
    (0 < n →
     let idx := solution_rows (mem st) (sol st) n in
     length idx = Z.to_nat n ∧
     Forall (λ r, (r < length (text_rows stream))%nat) idx ∧
     mjoin ((text_rows stream !!!.) <$> idx) ≡ₚ seq 0 (max_width (stream_rows stream))) ∧
    ((0 < max_width (stream_rows stream))%nat →
     (n = 0 ↔ ¬ has_cover (max_width (stream_rows stream)) (text_rows stream))).
Proof.
  intros Hwf Hlen Hsol Hf. unfold dlx_read_matrix.
  destruct (read_bcsr_run stream (Csr 0 None None) 0 bl Hwf Hlen)
    as (csr & w1 & -> & Hci & Hrp & Hsz & Hw1 & Hb1).
  cbn [mbind option_bind]. rewrite bool_decide_true by done.
  destruct (text_rows_sizes stream) as (Hs1 & Hs2 & Hs3).
  destruct w1 as [a1 b1]. simpl in Hw1, Hb1. subst a1.
  pose proof (text_rows_inst stream Hlen) as Hinst.
  rewrite (bcsr_to_dlx_run csr dlx _ (text_rows stream) b1); try done.
  - cbn [mbind option_bind].
    set (H := build_from (wr Root (rd (dlx_mem dlx) Root) ∅)
                (max_width (stream_rows stream)) (text_rows stream)).
    destruct (build_from_ok (wr Root (rd (dlx_mem dlx) Root) ∅) _ _ Hinst) as [Hok Hrid].
    fold H in Hok, Hrid.
    destruct (solve_valid _ _ H sol0 1 fuel Hinst Hok Hrid Hsol Hf)
      as (n & st & Hrun & Hmem & Hsound & Hcompl); [lia|].
    eexists _, _, n, st. split; [done|]. cbn [dlx_mem].
    split_and!; try done. by apply Hcompl.
  - rewrite Hci. apply ones_join.
  - rewrite Hrp. f_equal. apply ptrs_row_ptrs.
  - rewrite Hsz. unfold text_rows. by rewrite length_fmap.
  - unfold SIZE_MAX. lia.
  - unfold SIZE_MAX. lia.
  - unfold SIZE_MAX. lia.
Qed.

Lemma read_then_solve_witness :
  let stream := ["1"; "0"; nl; "0"; "1"]%char in
  let dlx := Dlx ∅ Uninit Uninit Uninit [] 0 0 in
  ∃ m w' n st,
    dlx_read_matrix dlx stream false (World [] 0) = Some (0, m, w') ∧
    dlx_exact_cover 10 Root 0 (SState (blank 2) 1 (dlx_mem m)) = Some (n, st) ∧
    mem st = dlx_mem m ∧
    (0 < n →
     let idx := solution_rows (mem st) (sol st) n in
     length idx = Z.to_nat n ∧
     Forall (λ r, (r < length (text_rows stream))%nat) idx ∧
     mjoin ((text_rows stream !!!.) <$> idx) ≡ₚ seq 0 (max_width (stream_rows stream))) ∧
    ((0 < max_width (stream_rows stream))%nat →
     (n = 0 ↔ ¬ has_cover (max_width (stream_rows stream)) (text_rows stream))).
Proof.
  apply (read_then_solve ["1"; "0"; nl; "0"; "1"]%char
           (Dlx ∅ Uninit Uninit Uninit [] 0 0) 0 (blank 2) 10).
  - unfold well_formed. repeat apply Forall_cons_2; try apply Forall_nil_2;
      first [by left | by right; left | by right; right].
  - vm_compute. reflexivity.
  - vm_compute. lia.
  - vm_compute. lia.
Defined.

(** * The loader when something fails *)

Lemma calloc_blocks n size w ok w1 :
  calloc n size w = (ok, w1) → blocks w1 = blocks w + (if ok then 1 else 0).
Proof.
  unfold calloc, alloc. case_bool_decide.
  - destruct (answers w) as [|[] o]; intros ?; simplify_eq; cbn; lia.
  - intros ?. simplify_eq. lia.
Qed.

(** When the last allocation of [bcsr_to_dlx], the one of [pheaders],
    fails after the three before it succeeded, the three arrays are freed
    and -1 is returned: no block is left, and the cells of the matrix are
    not touched. *)
Theorem bcsr_to_dlx_last_alloc_fails csr dlx ncols w w1 nn w2 w3 w4 :
  calloc ncols 64 w = (true, w1) →
  rd_arr (row_ptr csr) (wrap (row_ptr_size csr - 1)) = Some nn →
  calloc nn 48 w1 = (true, w2) →
  calloc (row_ptr_size csr) 8 w2 = (true, w3) →
  calloc ncols 8 w3 = (false, w4) →
  ∃ m w', bcsr_to_dlx csr dlx ncols w = Some (-1, m, w') ∧
          dlx_mem m = dlx_mem dlx ∧ blocks w' = blocks w.
Proof.
  intros H1 Hnn H2 H3 H4. unfold bcsr_to_dlx.
  rewrite H1. cbn [negb]. rewrite Hnn. cbn [mbind option_bind].
  rewrite H2. cbn [negb]. rewrite H3. cbn [negb]. rewrite H4. cbn [negb].
  unfold alloc_failed. cbn.
  eexists _, _. split; [done|]. split; [done|].
  apply calloc_blocks in H1, H2, H3, H4. unfold free. cbn. lia.
Qed.

Lemma bcsr_to_dlx_last_alloc_fails_witness :
  let csr := Csr 2 (Some (Buffer 8 [0])) (Some (Buffer 16 [0; 1])) in
  let dlx := Dlx ∅ Uninit Uninit Uninit [] 0 0 in
  ∃ m w', bcsr_to_dlx csr dlx 1 (World [true; true; true; false] 0) = Some (-1, m, w') ∧
          dlx_mem m = dlx_mem dlx ∧ blocks w' = blocks (World [true; true; true; false] 0).
Proof.
  eapply (bcsr_to_dlx_last_alloc_fails
            (Csr 2 (Some (Buffer 8 [0])) (Some (Buffer 16 [0; 1])))
            (Dlx ∅ Uninit Uninit Uninit [] 0 0) 1 (World [true; true; true; false] 0)).
  - reflexivity.
  - reflexivity.
  - reflexivity.
  - reflexivity.
  - reflexivity.
Defined.

(** When one of the first three allocations of [bcsr_to_dlx] fails, the
    branch that frees the arrays also calls [free] on [pheaders], which has
    not been set: the call has no defined result. *)
Theorem bcsr_to_dlx_early_alloc_fails csr dlx ncols w w1 nn w2 w3 :
  calloc ncols 64 w = (false, w1) ∨
  (calloc ncols 64 w = (true, w1) ∧
   rd_arr (row_ptr csr) (wrap (row_ptr_size csr - 1)) = Some nn ∧
   (calloc nn 48 w1 = (false, w2) ∨
    (calloc nn 48 w1 = (true, w2) ∧ calloc (row_ptr_size csr) 8 w2 = (false, w3)))) →
  bcsr_to_dlx csr dlx ncols w = None.
Proof.
  assert (Hfail : ∀ h n r w0, alloc_failed dlx h n r Uninit w0 = None).
  { intros h n r w0. unfold alloc_failed.
    destruct (free_p h w0) as [x1|]; [|done]. cbn.
    destruct (free_p n x1) as [x2|]; [|done]. cbn.
    destruct (free_p r x2) as [x3|]; [|done]. done. }
  unfold bcsr_to_dlx.
  intros [H1|(H1 & Hnn & [H2|[H2 H3]])]; rewrite H1; cbn [negb]; [apply Hfail|..];
    rewrite Hnn; cbn [mbind option_bind]; rewrite H2; cbn [negb]; [apply Hfail|].
  rewrite H3. cbn [negb]. apply Hfail.
Qed.

Lemma bcsr_to_dlx_early_alloc_fails_witness :
  bcsr_to_dlx (Csr 2 (Some (Buffer 8 [0])) (Some (Buffer 16 [0; 1])))
    (Dlx ∅ NullP NullP NullP [] 0 0) 1 (World [true; false] 0) = None.
Proof.
  eapply (bcsr_to_dlx_early_alloc_fails _ _ _ _ (World [false] 1) 1 (World [] 1) (World [] 1)).
  right. split; [reflexivity|]. split; [reflexivity|]. left. reflexivity.
Defined.

(** [dlx_read_matrix] on a stream that has a character other than 0, 1
    and newline, or that ends with an I/O error, once the two arrays of the
    reader are created: it returns -2 for the character and -3 for the I/O
    error alone, the matrix of the caller is not touched, and no block is
    left allocated. *)
Theorem dlx_read_matrix_errors stream ferr dlx w ci w1 rp w2 :
  Z.of_nat (length stream) < 2 ^ 57 →
  size_t_darray_create 512 w = (Some ci, w1) →
  size_t_darray_create 256 w1 = (Some rp, w2) →
  ¬ well_formed stream ∨ ferr = true →
  ∃ ret w', dlx_read_matrix dlx stream ferr w = Some (ret, dlx, w') ∧
            (¬ well_formed stream → ret = -2) ∧
            (well_formed stream → ret = -3) ∧
            blocks w' = blocks w.
Proof.
  intros Hlen Hc1 Hc2 Hbad. unfold dlx_read_matrix.
  destruct (read_bcsr_any stream ferr (Csr 0 None None) 0 w ci w1 rp w2 Hlen Hc1 Hc2)
    as (ret & csr & n & w' & -> & _ & H2 & H3 & Herr & _).
  cbn [mbind option_bind].
  assert (Hne : ret ≠ 0).
  { destruct Hbad as [Hnwf| ->].
    - apply H2 in Hnwf. lia.
    - destruct (decide (well_formed stream)) as [Hwf|Hnwf].
      + assert (ret = -3) by (by apply H3). lia.
      + apply H2 in Hnwf. lia. }
  destruct (Herr Hne) as (-> & _ & Hb).
  rewrite bool_decide_false by done. cbn.
  eexists _, _. split; [done|]. split_and!; [by apply H2| |done].
  intros Hwf. apply H3. split; [done|]. by destruct Hbad.
Qed.

Lemma dlx_read_matrix_errors_witness :
  let w := World [] 0 in
  let dlx := Dlx ∅ Uninit Uninit Uninit [] 0 0 in
  ∃ ret w', dlx_read_matrix dlx ["1"; "2"]%char false w = Some (ret, dlx, w') ∧
            (¬ well_formed ["1"; "2"]%char → ret = -2) ∧
            (well_formed ["1"; "2"]%char → ret = -3) ∧
            blocks w' = blocks w.
Proof.
  eapply (dlx_read_matrix_errors ["1"; "2"]%char false
            (Dlx ∅ Uninit Uninit Uninit [] 0 0) (World [] 0)).
  - vm_compute. reflexivity.
  - reflexivity.
  - reflexivity.
  - left. intros Hwf. unfold well_formed in Hwf.
    apply list.Forall_cons in Hwf as [_ Hwf]. apply list.Forall_cons in Hwf as [Hc _].
    destruct Hc as [Hc|[Hc|Hc]]; discriminate Hc.
Defined.

(** [bcsr_to_dlx] on the CSR form of an instance (column indices row after
    row, row pointers 0 and then the running number of entries), with memory
    at hand: it returns 0, the matrix is the one that [dlx_make_header_row],
    [dlx_make_row] and [dlx_add_row] build from the rows, [row_off] holds the
    row pointers, and [pheaders] is freed again. *)
Theorem bcsr_to_dlx_builds csr dlx ncols rows bl :
  inst_ok ncols rows →
  buf_list (col_ind csr) = Z.of_nat <$> mjoin rows →
  buf_list (row_ptr csr) = 0 :: row_ptrs 0 rows →
  row_ptr_size csr = Z.of_nat (length rows) + 1 →
  Z.of_nat ncols * 64 ≤ SIZE_MAX →
  Z.of_nat (length (mjoin rows)) * 48 ≤ SIZE_MAX →
  (Z.of_nat (length rows) + 1) * 8 ≤ SIZE_MAX →
  ∃ m w', bcsr_to_dlx csr dlx (Z.of_nat ncols) (World [] bl) = Some (0, m, w') ∧
          dlx_mem m = build_from (wr Root (rd (dlx_mem dlx) Root) ∅) ncols rows ∧
          row_off m = 0 :: row_ptrs 0 rows ∧
          n_col m = Z.of_nat ncols ∧ n_row m = Z.of_nat (length rows) ∧
          blocks w' = bl + 3.
Proof.
  intros Hinst Hci Hrp Hsz H1 H2 H3.
  rewrite (bcsr_to_dlx_run csr dlx ncols rows bl); try done.
  eexists _, _. split; [done|]. cbn. split_and!; try done. lia.
Qed.

Lemma bcsr_to_dlx_builds_witness :
  let csr := Csr 3 (Some (Buffer 16 [0; 1])) (Some (Buffer 24 [0; 1; 2])) in
  let dlx := Dlx ∅ Uninit Uninit Uninit [] 0 0 in
  ∃ m w', bcsr_to_dlx csr dlx (Z.of_nat 2) (World [] 0) = Some (0, m, w') ∧
          dlx_mem m = build_from (wr Root (rd (dlx_mem dlx) Root) ∅) 2 [[0]; [1]]%nat ∧
          row_off m = 0 :: row_ptrs 0 [[0]; [1]]%nat ∧
          n_col m = Z.of_nat 2 ∧ n_row m = Z.of_nat (length [[0]; [1]]%nat) ∧
          blocks w' = 0 + 3.
Proof.
  apply (bcsr_to_dlx_builds (Csr 3 (Some (Buffer 16 [0; 1])) (Some (Buffer 24 [0; 1; 2])))
           (Dlx ∅ Uninit Uninit Uninit [] 0 0) 2 [[0]; [1]]%nat 0).
  - apply inst_okb_ok. reflexivity.
  - reflexivity.
  - reflexivity.
  - reflexivity.
  - vm_compute. discriminate.
  - vm_compute. discriminate.
  - vm_compute. discriminate.
Defined.

(** * A row chosen beforehand *)





